(** * DPack privacy-budget scheduler: budget algebra, block selection,
      metrics and termination clock

    A shallow embedding of the Python sources under [privacypacking/].
    A finite Python float is the rational it stands for ([Q], compared with
    [Qeq_bool]/[Qle_bool]). Where the code applies one operation to given
    values or compares them, the operation is the exact one; where it
    accumulates sums and branches on the result (the local knapsack,
    [OverflowRelevance]), every operation is rounded to binary64
    ([round64]), overflow and underflow included. Real numbers ([R])
    stand where the code takes a logarithm or a power.
    Python dictionaries are association lists in insertion order; raised
    exceptions are the [Raise] case of [result]. *)

From Stdlib Require Import List Bool Arith ZArith QArith Qround Qpower Qabs Reals Psatz.
From stdpp Require Import list sorting.

(** ** Exceptions and results *)

Inductive exn : Type :=
| KeyError
| ValueError
| TypeError
| AssertionError
| AttributeError
| IndexError
| OverflowError
| NotEnoughBlocks.

Inductive result (A : Type) : Type :=
| Return (a : A)
| Raise (e : exn).
Arguments Return {A} a.
Arguments Raise {A} e.

#[global] Instance result_ret : MRet result := fun A a => Return a.
#[global] Instance result_bind : MBind result := fun A B f m =>
  match m with
  | Return a => f a
  | Raise e => Raise e
  end.

(** [for x in xs: acc = body(acc, x)], stopping at the first exception. *)
Fixpoint for_each {A S : Type} (body : S -> A -> result S) (xs : list A) (acc : S) : result S :=
  match xs with
  | [] => Return acc
  | x :: xs' => acc' ← body acc x; for_each body xs' acc'
  end.

(** ** Floats *)

Definition Qlt_bool (x y : Q) : bool := negb (Qle_bool y x).

(** numpy floats: a finite value, an infinity or NaN *)
Inductive float64 : Type :=
| Fin (q : Q)
| PInf
| NInf
| NaN.

(** [x <= y] on floats: false as soon as one side is NaN *)
Definition float_le (x y : float64) : bool :=
  match x, y with
  | NaN, _ | _, NaN => false
  | NInf, _ => true
  | _, PInf => true
  | Fin a, Fin b => Qle_bool a b
  | _, _ => false
  end.

(** equality of ranks, up to the representation of rationals *)
Definition float_eq (x y : float64) : Prop :=
  match x, y with
  | Fin a, Fin b => (a == b)%Q
  | PInf, PInf | NInf, NInf | NaN, NaN => True
  | _, _ => False
  end.

(** ** numpy arithmetic on floats: one operation, on finite values the exact
    result *)

Definition Qsign_pos (q : Q) : bool := Qlt_bool 0 q.
Definition Qsign_neg (q : Q) : bool := Qlt_bool q 0.

Definition float_neg (x : float64) : float64 :=
  match x with
  | Fin a => Fin (- a)
  | PInf => NInf
  | NInf => PInf
  | NaN => NaN
  end.

Definition float_add (x y : float64) : float64 :=
  match x, y with
  | NaN, _ | _, NaN => NaN
  | PInf, NInf | NInf, PInf => NaN
  | PInf, _ | _, PInf => PInf
  | NInf, _ | _, NInf => NInf
  | Fin a, Fin b => Fin (a + b)
  end.

Definition float_sub (x y : float64) : float64 := float_add x (float_neg y).

(** an infinity with the sign of [q], NaN when [q] is zero *)
Definition float_signed_inf (q : Q) (positive : bool) : float64 :=
  if Qsign_pos q then (if positive then PInf else NInf)
  else if Qsign_neg q then (if positive then NInf else PInf)
  else NaN.

Definition float_mul (x y : float64) : float64 :=
  match x, y with
  | NaN, _ | _, NaN => NaN
  | Fin a, Fin b => Fin (a * b)
  | Fin a, PInf | PInf, Fin a => float_signed_inf a true
  | Fin a, NInf | NInf, Fin a => float_signed_inf a false
  | PInf, PInf | NInf, NInf => PInf
  | PInf, NInf | NInf, PInf => NInf
  end.

(** division of numpy floats: dividing by zero gives an infinity or NaN *)
Definition float_div (x y : float64) : float64 :=
  match x, y with
  | NaN, _ | _, NaN => NaN
  | Fin a, Fin b => if Qeq_bool b 0 then float_signed_inf a true else Fin (a / b)
  | Fin _, PInf | Fin _, NInf => Fin 0
  | PInf, Fin b => if Qsign_neg b then NInf else PInf
  | NInf, Fin b => if Qsign_neg b then PInf else NInf
  | _, _ => NaN
  end.

(** [x < y] on floats *)
Definition float_lt (x y : float64) : bool :=
  match x, y with
  | NaN, _ | _, NaN => false
  | Fin a, Fin b => Qlt_bool a b
  | NInf, NInf | PInf, PInf => false
  | NInf, _ => true
  | _, PInf => true
  | _, _ => false
  end.

(** ** Floating point: rounding to binary64 *)

(** The result of an operation on floats is the exact result rounded to the
    nearest binary64 float, ties to even: 53 significant bits in the normal
    range, multiples of [2 ^ (-1074)] below it, an infinity beyond the
    largest float. *)

(** the nearest integer, ties to the even one *)
Definition round_half_even (x : Q) : Z :=
  let f := Qfloor x in
  match Qcompare (x - inject_Z f) (1 # 2) with
  | Lt => f
  | Gt => (f + 1)%Z
  | Eq => if Z.even f then f else (f + 1)%Z
  end.

(** [floor(log2 x)] of a positive rational *)
Definition Qlog2 (x : Q) : Z :=
  let e := (Z.log2 (Qnum x) - Z.log2 (Zpos (Qden x)))%Z in
  if Qle_bool (2 ^ e) x then e else (e - 1)%Z.

(** a positive rational rounded to 53 significant bits *)
Definition round_pos (x : Q) : Q :=
  let e := (Qlog2 x - 52)%Z in
  (inject_Z (round_half_even (x / 2 ^ e)) * 2 ^ e)%Q.

(** [x] rounded to 53 significant bits, whatever its exponent *)
Definition b64 (x : Q) : Q :=
  Qred
    match Qcompare x 0 with
    | Eq => 0%Q
    | Gt => round_pos (Qred x)
    | Lt => (- round_pos (Qred (- x)))%Q
    end.

(** the smallest positive normal float and the largest float *)
Definition min_normal : Q := (2 ^ (-1022))%Q.
Definition max_float : Q := (inject_Z (2 ^ 53 - 1) * 2 ^ 971)%Q.

(** below the normal range the floats are the multiples of [2 ^ (-1074)] *)
Definition round_subnormal (x : Q) : Q :=
  Qred (inject_Z (round_half_even (x * 2 ^ 1074)) * 2 ^ (-1074))%Q.

(** the float nearest to [x]: an infinity when the rounded value is beyond
    the largest float *)
Definition round64 (x : Q) : float64 :=
  if Qlt_bool (Qabs x) min_normal then Fin (round_subnormal x)
  else if Qlt_bool max_float (Qabs (b64 x)) then (if Qlt_bool 0 x then PInf else NInf)
  else Fin (b64 x).

Definition rounded (x : float64) : float64 :=
  match x with
  | Fin q => round64 q
  | _ => x
  end.

(** [x + y] and [x / y] on Python floats, as the code computes them; every
    division of the code that is modelled with [fdiv] has a divisor that
    was tested to be positive *)
Definition fadd (x y : float64) : float64 := rounded (float_add x y).
Definition fdiv (x y : float64) : float64 := rounded (float_div x y).

Arguments b64 : simpl never.
Arguments round64 : simpl never.
Arguments fadd : simpl never.
Arguments fdiv : simpl never.

(** ** Python dictionaries: association lists in insertion order *)

Module PyDict.
Section Dict.
Context {K V : Type} (keq : K -> K -> bool).

Definition dict : Type := list (K * V).

(** [d[k]], [None] standing for [KeyError] *)
Fixpoint get (d : dict) (k : K) : option V :=
  match d with
  | [] => None
  | (k', v) :: d' => if keq k' k then Some v else get d' k
  end.

(** [k in d] *)
Definition contains (d : dict) (k : K) : bool :=
  match get d k with Some _ => true | None => false end.

(** [d[k] = v]: an existing key keeps its place, a new key goes last *)
Fixpoint set (d : dict) (k : K) (v : V) : dict :=
  match d with
  | [] => [(k, v)]
  | (k', v') :: d' => if keq k' k then (k', v) :: d' else (k', v') :: set d' k v
  end.

Definition keys (d : dict) : list K := map fst d.
Definition values (d : dict) : list V := map snd d.

(** [d[k]] as an expression *)
Definition item (d : dict) (k : K) : result V :=
  match get d k with
  | Some v => Return v
  | None => Raise KeyError
  end.

(** Specification helpers: some key of [ks] equals [k]; keys pairwise different *)
Definition has_key (ks : list K) (k : K) : bool := existsb (fun k' => keq k' k) ks.

Fixpoint uniq (ks : list K) : Prop :=
  match ks with
  | [] => True
  | k :: ks' => has_key ks' k = false /\ uniq ks'
  end.
End Dict.
End PyDict.

(** Key comparison is an equivalence. *)
Class KeyEq {K : Type} (keq : K -> K -> bool) : Prop := {
  keq_refl : forall k, keq k k = true;
  keq_sym : forall k k', keq k k' = keq k' k;
  keq_trans : forall k1 k2 k3, keq k1 k2 = true -> keq k2 k3 = true -> keq k1 k3 = true
}.

(** ** [sorted]: a stable sort *)

Section Sorted.
Context {A : Type} (leb : A -> A -> bool).

Fixpoint insert_sorted (x : A) (l : list A) : list A :=
  match l with
  | [] => [x]
  | y :: l' => if leb x y then x :: l else y :: insert_sorted x l'
  end.

Definition sorted (l : list A) : list A := foldr insert_sorted [] l.
End Sorted.

(** ** budget/budget.py *)

Module Budget.
Import PyDict.
Local Open Scope Q_scope.

Definition ALPHAS : list Q :=
  [3 # 2; 7 # 4; 2; 5 # 2; 3; 4; 5; 6; 8; 16; 32; 64].

Section Orders.
Context {V : Type}.

(** The private [__orders] dictionary of a [Budget] object. *)
Definition t : Type := @dict Q V.

(** [Budget.__init__] *)
Definition init (orders : @dict Q V) : t :=
  fold_left
    (fun self alpha =>
       match get Qeq_bool orders alpha with
       | Some e => set Qeq_bool self alpha e
       | None => self
       end)
    (sorted Qle_bool (keys orders)) [].

Definition alphas (self : t) : list Q := keys self.
Definition epsilons (self : t) : list V := values self.
Definition epsilon (self : t) (alpha : Q) : result V := item Qeq_bool self alpha.
End Orders.

(** [max(xs)] of a list: the first maximal element, [ValueError] when empty *)
Fixpoint max_loop (m : Q) (xs : list Q) : Q :=
  match xs with
  | [] => m
  | x :: xs' => max_loop (if Qlt_bool m x then x else m) xs'
  end.

Definition py_max (xs : list Q) : result Q :=
  match xs with
  | [] => Raise ValueError
  | x :: xs' => Return (max_loop x xs')
  end.

(** [Budget.is_positive] *)
Fixpoint is_positive_loop (es : list Q) : bool :=
  match es with
  | [] => false
  | e :: es' => if Qle_bool 0 e then true else is_positive_loop es'
  end.
Definition is_positive (self : @t Q) : bool := is_positive_loop (epsilons self).

(** [Budget.is_positive_all_alphas] *)
Fixpoint is_positive_all_alphas_loop (es : list Q) : bool :=
  match es with
  | [] => true
  | e :: es' => if Qlt_bool e 0 then false else is_positive_all_alphas_loop es'
  end.
Definition is_positive_all_alphas (self : @t Q) : bool :=
  is_positive_all_alphas_loop (epsilons self).

(** [Budget.same_support] *)
Definition same_support (budget1 budget2 : @t Q) : result (@t Q * @t Q) :=
  let shared_alphas := List.filter (fun a => contains Qeq_bool budget2 a) (alphas budget1) in
  let ordered_support := sorted Qle_bool shared_alphas in
  '(orders1, orders2) ←
    for_each
      (fun '(orders1, orders2) alpha =>
         e1 ← epsilon budget1 alpha;
         e2 ← epsilon budget2 alpha;
         Return (set Qeq_bool orders1 alpha e1, set Qeq_bool orders2 alpha e2))
      ordered_support ([], []);
  Return (init orders1, init orders2).

(** The dictionary comprehension [{alpha: f(alpha) for alpha in alphas}] *)
Definition comprehension {V : Type} (f : Q -> result V) (alphas : list Q) : result (@dict Q V) :=
  for_each (fun orders alpha => e ← f alpha; Return (set Qeq_bool orders alpha e)) alphas [].

(** [Budget.__sub__] *)
Definition sub (self other : @t Q) : result (@t Q) :=
  '(a, b) ← same_support self other;
  orders ← comprehension
    (fun alpha => ea ← epsilon a alpha; eb ← epsilon b alpha; Return (ea - eb)) (alphas a);
  Return (init orders).

(** [Budget.__add__] *)
Definition add (self other : @t Q) : result (@t Q) :=
  '(a, b) ← same_support self other;
  orders ← comprehension
    (fun alpha => ea ← epsilon a alpha; eb ← epsilon b alpha; Return (ea + eb)) (alphas a);
  Return (init orders).

(** [Budget.can_allocate] *)
Definition can_allocate (self demand_budget : @t Q) : result bool :=
  if negb (is_positive_all_alphas demand_budget) then Raise AssertionError
  else
    diff ← sub self demand_budget;
    max_order ← py_max (epsilons diff);
    if Qle_bool 0 max_order then Return true else Return false.

(** [Budget.__eq__] *)
Fixpoint eq_loop (self other : @t Q) (alphas : list Q) : result bool :=
  match alphas with
  | [] => Return true
  | alpha :: alphas' =>
      eo ← epsilon other alpha;
      es ← epsilon self alpha;
      if negb (Qeq_bool eo es) then Return false else eq_loop self other alphas'
  end.
Definition eq (self other : @t Q) : result bool := eq_loop self other (alphas self).

(** [Budget.from_epsilon_delta], over the reals: [np.log] is [ln] *)
Definition from_epsilon_delta (epsilon delta : R) (alpha_list : list Q) : @t R :=
  init
    (fold_left
       (fun orders alpha =>
          set Qeq_bool orders alpha (Rmax (epsilon + ln delta / (Q2R alpha - 1)) 0)%R)
       alpha_list []).

(** Specification helpers: membership of an order in the shared support, and
    what [__sub__] and [__add__] compute at one order *)
Definition shared (b1 b2 : @t Q) (alpha : Q) : bool :=
  contains Qeq_bool b1 alpha && contains Qeq_bool b2 alpha.

Definition pointwise (op : Q -> Q -> Q) (b1 b2 : @t Q) (alpha : Q) : option Q :=
  match get Qeq_bool b1 alpha, get Qeq_bool b2 alpha with
  | Some e1, Some e2 => Some (op e1 e2)
  | _, _ => None
  end.

(** Specification helpers: equal supports; the RDP lower envelope of the
    specification; strictly increasing orders *)
Definition same_alphas (a b : @t Q) : Prop :=
  forall alpha, contains Qeq_bool a alpha = contains Qeq_bool b alpha.

Definition rdp_envelope (epsilon delta : R) (alpha : Q) : R :=
  Rmax (epsilon + ln delta / (Q2R alpha - 1)) 0.

Fixpoint ascending (ks : list Q) : bool :=
  match ks with
  | [] => true
  | k :: ks' =>
      match ks' with
      | [] => true
      | k' :: _ => Qlt_bool k k' && ascending ks'
      end
  end.

End Budget.

(** ** schedulers/metrics.py: the knapsack of ArgmaxKnapsack *)

(** the sum of a list of floats *)
Definition qsum (l : list Q) : Q := foldr Qplus 0%Q l.

Module Knapsack.
Import PyDict.
Local Open Scope Q_scope.

(** the loop of [SoftKnapsack.solve_local_knapsack_no_profits]; [sum + demand]
    is a sum of floats *)
Fixpoint knapsack_loop (capacity : float64) (demands : list Q) (sum : float64) (opt : nat) : nat :=
  match demands with
  | [] => opt
  | demand :: demands' =>
      if float_le (fadd sum (Fin demand)) capacity
      then knapsack_loop capacity demands' (fadd sum (Fin demand)) (opt + 1)
      else knapsack_loop capacity demands' sum opt
  end.

(** [SoftKnapsack.solve_local_knapsack_no_profits] *)
Definition solve_local_knapsack_no_profits (capacity : float64) (task_demands : @dict nat Q) : nat :=
  if float_le capacity (Fin 0) then 0%nat
  else
    let demands := sorted Qle_bool (values task_demands) in
    knapsack_loop capacity demands (Fin 0) 0.

(** one entry of [available_budget] in [ArgmaxKnapsack.compute_relevance_matrix]
    ([truncate_available_budget] false): the capacity handed to the solver *)
Definition local_capacity (eps : Q) : float64 :=
  if Qlt_bool 0 eps then Fin eps else NInf.

(** Specification: the 0/1 knapsack with unit values *)
Definition total_demand (chosen : @dict nat Q) : Q := foldr Qplus 0 (values chosen).

Definition is_knapsack_optimum (capacity : Q) (task_demands : @dict nat Q) (opt : nat) : Prop :=
  (exists chosen, chosen `sublist_of` task_demands /\
                  total_demand chosen <= capacity /\ length chosen = opt) /\
  (forall chosen, chosen `sublist_of` task_demands ->
                  total_demand chosen <= capacity -> (length chosen <= opt)%nat).

(** Specification: the value of [sum] after the demands of a list were
    added one after the other, and the lists whose running sums are all
    computed without rounding *)
Definition float_sum (demands : list Q) : float64 :=
  fold_left (fun sum demand => fadd sum (Fin demand)) demands (Fin 0).

Definition exact_sums (demands : list Q) : Prop :=
  forall j, (j <= length demands)%nat ->
            float_eq (float_sum (take j demands)) (Fin (qsum (take j demands))).
End Knapsack.

(** ** schedulers/metrics.py: blocks, tasks and the overflow metrics *)

(** Modelled from the spec: the class [Block] of [privacypacking.budget] is
    not among the sources; these are the budgets the metrics read from a
    block (initial capacity, remaining capacity, unlocked budget and its
    truncated variant). *)
Record Block : Type := {
  initial_budget : @Budget.t Q;
  budget : @Budget.t Q;
  available_unlocked_budget : @Budget.t Q;
  truncated_available_unlocked_budget : @Budget.t Q
}.

(** [Task] of budget/task.py, with the attributes the metrics use *)
Record Task : Type := {
  id : nat;
  profit : Q;
  budget_per_block : @PyDict.dict nat (@Budget.t Q);
  cost : Q;
  (** [demand_matrix]: the dense array of [build_demand_matrix], one row per
      block, one column per order *)
  demand_matrix : list (list Q)
}.

Definition set_cost (task : Task) (c : Q) : Task :=
  {| id := id task; profit := profit task;
     budget_per_block := budget_per_block task; cost := c;
     demand_matrix := demand_matrix task |}.

Module OverflowRelevance.
Import PyDict.
Local Open Scope Q_scope.

(** [overflow_b_a]: block id, then order, to overflow *)
Definition overflow_dict : Type := @dict nat (@dict Q float64).

(** body of [for a in block_demand.alphas]; [+=] adds two floats *)
Definition alpha_body (blocks : @dict nat Block) (block_id : nat) (block_demand : @Budget.t Q)
    (overflow_b_a : overflow_dict) (a : Q) : result overflow_dict :=
  row ← item Nat.eqb overflow_b_a block_id;
  row ← (if negb (contains Qeq_bool row a)
         then
           block ← item Nat.eqb blocks block_id;
           e ← Budget.epsilon (initial_budget block) a;
           Return (set Qeq_bool row a (Fin (- e)))
         else Return row);
  current ← item Qeq_bool row a;
  demand ← Budget.epsilon block_demand a;
  Return (set Nat.eqb overflow_b_a block_id (set Qeq_bool row a (fadd current (Fin demand)))).

(** body of [for block_id, block_demand in t.budget_per_block.items()] *)
Definition block_body (blocks : @dict nat Block) (overflow_b_a : overflow_dict)
    (entry : nat * @Budget.t Q) : result overflow_dict :=
  let '(block_id, block_demand) := entry in
  let overflow_b_a :=
    if negb (contains Nat.eqb overflow_b_a block_id)
    then set Nat.eqb overflow_b_a block_id []
    else overflow_b_a in
  for_each (alpha_body blocks block_id block_demand) (Budget.alphas block_demand) overflow_b_a.

(** the first loop of [OverflowRelevance.apply] *)
Definition compute_overflow (blocks : @dict nat Block) (tasks : list Task) : result overflow_dict :=
  for_each (fun overflow_b_a t => for_each (block_body blocks) (budget_per_block t) overflow_b_a)
    tasks [].

(** [for alpha in block_demand_.alphas], with its [break] *)
Fixpoint cost_loop (overflow_b_a : overflow_dict) (block_id_ : nat) (block_demand_ : @Budget.t Q)
    (alphas : list Q) (cost : float64) : result float64 :=
  match alphas with
  | [] => Return cost
  | alpha :: alphas' =>
      demand ← Budget.epsilon block_demand_ alpha;
      row ← item Nat.eqb overflow_b_a block_id_;
      overflow ← item Qeq_bool row alpha;
      if float_lt (Fin 0) overflow
      then cost_loop overflow_b_a block_id_ block_demand_ alphas'
             (fadd cost (fdiv (Fin demand) overflow))
      else Return (Fin 0)
  end.

(** the second loop of [OverflowRelevance.apply] *)
Definition compute_costs (overflow_b_a : overflow_dict) (task : Task)
    : result (@dict nat float64) :=
  for_each
    (fun costs '(block_id_, block_demand_) =>
       c ← cost_loop overflow_b_a block_id_ block_demand_ (Budget.alphas block_demand_) (Fin 0);
       Return (set Nat.eqb costs block_id_ c))
    (budget_per_block task) [].

(** [OverflowRelevance.apply]: the rank, and the value it stores in
    [task.cost] *)
Definition apply (task : Task) (blocks : @dict nat Block) (tasks : list Task)
    : result (float64 * float64) :=
  overflow_b_a ← compute_overflow blocks tasks;
  costs ← compute_costs overflow_b_a task;
  let total_cost := fold_left fadd (values costs) (Fin 0) in
  if float_le total_cost (Fin 0) then Return (PInf, total_cost)
  else Return (fdiv (Fin (profit task)) total_cost, total_cost).

(** Specification, in the words of the metric's description, every sum and
    quotient in exact arithmetic *)

(** [t.demand.ε(α)] on block [b], zero where the task asks nothing *)
Definition demand_on (t : Task) (b : nat) (alpha : Q) : Q :=
  match get Nat.eqb (budget_per_block t) b with
  | Some block_demand =>
      match get Qeq_bool block_demand alpha with Some e => e | None => 0 end
  | None => 0
  end.

Definition initial_epsilon (blocks : @dict nat Block) (b : nat) (alpha : Q) : Q :=
  match get Nat.eqb blocks b with
  | Some block =>
      match get Qeq_bool (initial_budget block) alpha with Some e => e | None => 0 end
  | None => 0
  end.

(** [overflow(b,α) = Σ_{t ∈ pending} t.demand.ε(α) − initial(b).ε(α)] *)
Definition spec_overflow (blocks : @dict nat Block) (tasks : list Task) (b : nat) (alpha : Q) : Q :=
  qsum (map (fun t => demand_on t b alpha) tasks) - initial_epsilon blocks b alpha.

(** the cost of one block: zero as soon as one order has no overflow *)
Definition spec_block_cost (blocks : @dict nat Block) (tasks : list Task)
    (b : nat) (block_demand : @Budget.t Q) : Q :=
  if forallb (fun alpha => Qlt_bool 0 (spec_overflow blocks tasks b alpha)) (Budget.alphas block_demand)
  then qsum (map (fun '(alpha, e) => e / spec_overflow blocks tasks b alpha) block_demand)
  else 0.

Definition spec_total_cost (blocks : @dict nat Block) (tasks : list Task) (task : Task) : Q :=
  qsum (map (fun '(b, block_demand) => spec_block_cost blocks tasks b block_demand)
          (budget_per_block task)).

Definition spec_rank (blocks : @dict nat Block) (tasks : list Task) (task : Task) : float64 :=
  let total_cost := spec_total_cost blocks tasks task in
  if Qle_bool total_cost 0 then PInf else Fin (profit task / total_cost).

(** Specification, the same sums and quotients in floating point *)

(** the task asks for block [b] at order [alpha] *)
Definition asks (t : Task) (b : nat) (alpha : Q) : bool :=
  match get Nat.eqb (budget_per_block t) b with
  | Some block_demand => contains Qeq_bool block_demand alpha
  | None => false
  end.

(** from minus the initial budget, the demands of the pending tasks that
    ask for the block at the order, added one after the other *)
Definition float_overflow (blocks : @dict nat Block) (tasks : list Task) (b : nat) (alpha : Q)
    : float64 :=
  fold_left
    (fun overflow t =>
       if asks t b alpha then fadd overflow (Fin (demand_on t b alpha)) else overflow)
    tasks (Fin (- initial_epsilon blocks b alpha)).

(** the cost of one block: zero as soon as one order has no overflow,
    otherwise the quotients added one after the other in the order of the
    demand *)
Definition float_block_cost (blocks : @dict nat Block) (tasks : list Task)
    (b : nat) (block_demand : @Budget.t Q) : float64 :=
  if forallb (fun alpha => float_lt (Fin 0) (float_overflow blocks tasks b alpha))
       (Budget.alphas block_demand)
  then fold_left
         (fun cost '(alpha, e) => fadd cost (fdiv (Fin e) (float_overflow blocks tasks b alpha)))
         block_demand (Fin 0)
  else Fin 0.

Definition float_total_cost (blocks : @dict nat Block) (tasks : list Task) (task : Task)
    : float64 :=
  fold_left (fun total '(b, block_demand) => fadd total (float_block_cost blocks tasks b block_demand))
    (budget_per_block task) (Fin 0).

Definition float_rank (blocks : @dict nat Block) (tasks : list Task) (task : Task) : float64 :=
  let total_cost := float_total_cost blocks tasks task in
  if float_le total_cost (Fin 0) then PInf else fdiv (Fin (profit task)) total_cost.

(** the inputs raise no [KeyError]: every block a pending task asks for is
    known, with an initial budget at every order asked for; dictionaries
    have distinct keys *)
Definition demand_ok (blocks : @dict nat Block) (entry : nat * @Budget.t Q) : Prop :=
  uniq Qeq_bool (Budget.alphas (snd entry)) /\
  exists block, get Nat.eqb blocks (fst entry) = Some block /\
    forall alpha, In alpha (Budget.alphas (snd entry)) ->
      contains Qeq_bool (initial_budget block) alpha = true.

Definition task_ok (blocks : @dict nat Block) (t : Task) : Prop :=
  uniq Nat.eqb (keys (budget_per_block t)) /\
  Forall (demand_ok blocks) (budget_per_block t).
End OverflowRelevance.

(** ** BatchOverflowRelevance *)

Module BatchOverflowRelevance.
Import PyDict.
Local Open Scope Q_scope.

(** What a parameter of [compute_overflow] may be bound to: the method is
    also called through the class, which shifts its arguments. *)
Inductive pyval : Type :=
| PyNone
| PyBlocks (blocks : @dict nat Block)
| PyTasks (tasks : list Task).

Definition overflow_dict : Type := @dict nat (@dict Q float64).

(** [for t in tasks]: the tasks iterated over *)
Definition iterate (tasks : pyval) : result (list Task) :=
  match tasks with
  | PyTasks ts => Return ts
  | PyNone => Raise TypeError
  | PyBlocks [] => Return []
  | PyBlocks (_ :: _) => Raise AttributeError
  end.

(** [blocks[block_id]], read as a block *)
Definition subscript (blocks : pyval) (block_id : nat) : result Block :=
  match blocks with
  | PyBlocks bs => item Nat.eqb bs block_id
  | PyNone => Raise TypeError
  | PyTasks ts => if Nat.ltb block_id (length ts) then Raise AttributeError else Raise IndexError
  end.

(** body of [for a in block_demand.alphas] *)
Definition alpha_body (blocks : pyval) (block_id : nat) (block_demand : @Budget.t Q)
    (overflow_b_a : overflow_dict) (a : Q) : result overflow_dict :=
  row ← item Nat.eqb overflow_b_a block_id;
  row ← (if negb (contains Qeq_bool row a)
         then
           block ← subscript blocks block_id;
           available_unlocked_budget ← Budget.epsilon (available_unlocked_budget block) a;
           if Qlt_bool 0 available_unlocked_budget
           then Return (set Qeq_bool row a (Fin (- available_unlocked_budget)))
           else Return (set Qeq_bool row a PInf)
         else Return row);
  current ← item Qeq_bool row a;
  demand ← Budget.epsilon block_demand a;
  Return (set Nat.eqb overflow_b_a block_id (set Qeq_bool row a (float_add current (Fin demand)))).

Definition block_body (blocks : pyval) (overflow_b_a : overflow_dict)
    (entry : nat * @Budget.t Q) : result overflow_dict :=
  let '(block_id, block_demand) := entry in
  let overflow_b_a :=
    if negb (contains Nat.eqb overflow_b_a block_id)
    then set Nat.eqb overflow_b_a block_id []
    else overflow_b_a in
  for_each (alpha_body blocks block_id block_demand) (Budget.alphas block_demand) overflow_b_a.

(** [BatchOverflowRelevance.compute_overflow(self, blocks, tasks=None)] *)
Definition compute_overflow (self blocks : pyval) (tasks : pyval) : result overflow_dict :=
  ts ← iterate tasks;
  for_each (fun overflow_b_a t => for_each (block_body blocks) (budget_per_block t) overflow_b_a)
    ts [].

(** [for alpha in block_demand_.alphas], with its [break] *)
Fixpoint cost_loop (overflow_b_a : overflow_dict) (block_id_ : nat) (block_demand_ : @Budget.t Q)
    (alphas : list Q) (cost : float64) : result float64 :=
  match alphas with
  | [] => Return cost
  | alpha :: alphas' =>
      demand ← Budget.epsilon block_demand_ alpha;
      row ← item Nat.eqb overflow_b_a block_id_;
      overflow ← item Qeq_bool row alpha;
      if float_lt (Fin 0) overflow
      then cost_loop overflow_b_a block_id_ block_demand_ alphas'
             (float_add cost (float_div (Fin demand) overflow))
      else Return (Fin 0)
  end.

Definition compute_costs (overflow_b_a : overflow_dict) (task : Task) : result (@dict nat float64) :=
  for_each
    (fun costs '(block_id_, block_demand_) =>
       c ← cost_loop overflow_b_a block_id_ block_demand_ (Budget.alphas block_demand_) (Fin 0);
       Return (set Nat.eqb costs block_id_ c))
    (budget_per_block task) [].

(** the truth value of [overflow]: neither [None] nor an empty dictionary *)
Definition truthy (overflow : option overflow_dict) : bool :=
  match overflow with
  | Some (_ :: _) => true
  | _ => false
  end.

Definition optional_tasks (tasks : option (list Task)) : pyval :=
  match tasks with
  | Some ts => PyTasks ts
  | None => PyNone
  end.

(** [BatchOverflowRelevance.apply(self, task, blocks, tasks=None, overflow=None)].
    The fresh overflow is asked for as
    [BatchOverflowRelevance.compute_overflow(blocks, tasks)]: on the class, so
    [blocks] is bound to [self], [tasks] to [blocks], and [tasks] keeps its
    default [None]. *)
Definition apply (task : Task) (blocks : @dict nat Block) (tasks : option (list Task))
    (overflow : option overflow_dict) : result float64 :=
  overflow_b_a ←
    (if truthy overflow
     then Return (match overflow with Some o => o | None => [] end)
     else compute_overflow (PyBlocks blocks) (optional_tasks tasks) PyNone);
  costs ← compute_costs overflow_b_a task;
  let total_cost := fold_left float_add (values costs) (Fin 0) in
  if float_le total_cost (Fin 0) then Return PInf
  else Return (float_div (Fin (profit task)) total_cost).
End BatchOverflowRelevance.

(** ** SoftmaxOverflow *)

(** numpy arrays of two dimensions, as lists of rows *)
Definition matrix : Type := list (list float64).

(** [[f(x) for x in xs]], stopping at the first exception *)
Fixpoint map_result {A B : Type} (f : A -> result B) (xs : list A) : result (list B) :=
  match xs with
  | [] => Return []
  | x :: xs' => y ← f x; ys ← map_result f xs'; Return (y :: ys)
  end.

Fixpoint zip_result {A B C : Type} (f : A -> B -> result C) (xs : list A) (ys : list B)
    : result (list C) :=
  match xs, ys with
  | x :: xs', y :: ys' => z ← f x y; zs ← zip_result f xs' ys'; Return (z :: zs)
  | _, _ => Return []
  end.

(** numpy broadcasting along one axis: equal lengths, or one side of length one *)
Definition zip_broadcast {A B C : Type} (f : A -> B -> result C) (xs : list A) (ys : list B)
    : result (list C) :=
  if Nat.eqb (length xs) (length ys) then zip_result f xs ys
  else
    match xs, ys with
    | [x], _ => map_result (f x) ys
    | _, [y] => map_result (fun x => f x y) xs
    | _, _ => Raise ValueError
    end.

(** an elementwise operation on two arrays *)
Definition elementwise (op : float64 -> float64 -> float64) (x y : matrix) : result matrix :=
  zip_broadcast (zip_broadcast (fun a b => Return (op a b))) x y.

(** [np.min] of a row: NaN wins; no minimum of an empty row *)
Definition float_min (x y : float64) : float64 :=
  match x, y with
  | NaN, _ | _, NaN => NaN
  | _, _ => if float_lt y x then y else x
  end.

Definition np_min (row : list float64) : result float64 :=
  match row with
  | [] => Raise ValueError
  | x :: row' => Return (fold_left float_min row' x)
  end.

(** [np.broadcast_to(m, (rows, cols))] *)
Definition broadcast_axis {A : Type} (xs : list A) (n : nat) : result (list A) :=
  if Nat.eqb (length xs) n then Return xs
  else
    match xs with
    | [x] => Return (replicate n x)
    | _ => Raise ValueError
    end.

Definition broadcast_to (m : matrix) (rows cols : nat) : result matrix :=
  m' ← broadcast_axis m rows;
  map_result (fun row => broadcast_axis row cols) m'.

(** [task.demand_matrix.toarray()]. The attribute [demand_matrix] is set by
    [Task.build_demand_matrix] only, which stores the dense array of
    [np.zeros]; an [ndarray] has no attribute [toarray] (and neither has a
    task whose matrix was never built an attribute [demand_matrix]). *)
Definition toarray (demand_matrix : list (list Q)) : result matrix := Raise AttributeError.

Module SoftmaxOverflow.
Import PyDict.
Local Open Scope Q_scope.

Section WithExp.
(** [np.exp] on a finite float *)
Variable np_exp : Q -> float64.

Definition float_exp (x : float64) : float64 :=
  match x with
  | Fin q => np_exp q
  | PInf => PInf
  | NInf => Fin 0
  | NaN => NaN
  end.

(** one row of [available_budget] *)
Definition available_row (blocks : @dict nat Block) (truncate_available_budget : bool)
    (block_id : nat) : result (list float64) :=
  map_result
    (fun alpha =>
       block ← item Nat.eqb blocks block_id;
       if truncate_available_budget
       then
         eps ← Budget.epsilon (truncated_available_unlocked_budget block) alpha;
         Return (Fin eps)
       else
         eps ← Budget.epsilon (available_unlocked_budget block) alpha;
         if Qle_bool 0 eps then Return (Fin eps) else Return NInf)
    Budget.ALPHAS.

(** [sum((task.demand_matrix.toarray() for task in tasks))]; the integer
    [0] the sum starts from broadcasts as an array of one entry *)
Definition sum_demands (tasks : list Task) : result matrix :=
  fold_left
    (fun acc task =>
       total ← acc;
       demands ← toarray (demand_matrix task);
       elementwise float_add total demands)
    tasks (Return [[Fin 0]]).

(** [sum_demands - available_budget] *)
Definition overflow_matrix (blocks : @dict nat Block) (tasks : list Task)
    (truncate_available_budget : bool) : result (matrix * matrix) :=
  let n_blocks := length blocks in
  available_budget ← map_result (available_row blocks truncate_available_budget) (seq 0 n_blocks);
  demands ← sum_demands tasks;
  overflow ← elementwise float_sub demands available_budget;
  Return (overflow, available_budget).

(** body of the loop over blocks without contention.
    [np.empty(shape=[1, n_alphas]).fill(float("inf"))] is the value of
    [ndarray.fill], which is [None]; assigning [None] to a row of a float
    array stores NaN in each of its entries. *)
Definition drop_body (overflow : matrix) (block_id : nat) : result matrix :=
  match overflow !! block_id with
  | None => Raise IndexError
  | Some row =>
      min_overflow ← np_min row;
      if float_le min_overflow (Fin 0)
      then Return (<[block_id := map (fun _ => NaN) row]> overflow)
      else Return overflow
  end.

(** [SoftmaxOverflow.compute_relevance_matrix] *)
Definition compute_relevance_matrix (blocks : @dict nat Block) (tasks : list Task)
    (drop_blocks_with_no_contention truncate_available_budget : bool) (temperature : Q)
    : result matrix :=
  let n_blocks := length blocks in
  let n_alphas := length Budget.ALPHAS in
  '(overflow, available_budget) ← overflow_matrix blocks tasks truncate_available_budget;
  overflow ←
    (if drop_blocks_with_no_contention
     then for_each drop_body (seq 0 n_blocks) overflow
     else Return overflow);
  let exponential_overflow :=
    map (map (fun x => float_exp (float_mul (Fin (- temperature)) x))) overflow in
  let sum_per_block :=
    map (fun row => float_add (fold_left float_add row (Fin 0)) (Fin (1 # 1000000000000000)))
      exponential_overflow in
  expanded ← broadcast_to (map (fun s => [s]) sum_per_block) n_blocks n_alphas;
  softmax ← elementwise float_div exponential_overflow expanded;
  elementwise float_div softmax available_budget.
End WithExp.

(** the default [temperature] *)
Definition default_temperature : Q := 1 # 10.
End SoftmaxOverflow.

(** ** budget/budget.py: the cached DP budget *)

Module DPBudgetCache.
Import PyDict.

(** [DPBudget = namedtuple("ConvertedDPBudget", ["epsilon", "delta", "best_alpha"])] *)
Record DPBudget : Type := {
  dp_epsilon : Q;
  dp_delta : Q;
  best_alpha : Q
}.

(** a [Budget] object: its orders and, once set, the attribute [dp_budget_cached] *)
Record BudgetObject : Type := {
  orders : @Budget.t Q;
  dp_budget_cached : option DPBudget
}.

(** [Budget(orders)]: a fresh object has no [dp_budget_cached] attribute *)
Definition new (orders : @dict Q Q) : BudgetObject :=
  {| orders := Budget.init orders; dp_budget_cached := None |}.

Section WithAccountant.
(** [opacus.accountants.analysis.rdp.get_privacy_spent(orders, rdp, delta)],
    an external function: the converted epsilon and the best order *)
Variable get_privacy_spent : list Q -> list Q -> Q -> Q * Q.

(** [Budget.dp_budget(delta)]: the result and the object after the call *)
Definition dp_budget (self : BudgetObject) (delta : Q) : DPBudget * BudgetObject :=
  match dp_budget_cached self with
  | Some cached => (cached, self)
  | None =>
      let '(epsilon, best_alpha) :=
        get_privacy_spent (Budget.alphas (orders self)) (Budget.epsilons (orders self)) delta in
      let converted := {| dp_epsilon := epsilon; dp_delta := delta; best_alpha := best_alpha |} in
      (converted, {| orders := orders self; dp_budget_cached := Some converted |})
  end.

(** successive calls [self.dp_budget(delta)] for each [delta] of a list *)
Fixpoint dp_budget_calls (self : BudgetObject) (deltas : list Q) : list DPBudget * BudgetObject :=
  match deltas with
  | [] => ([], self)
  | delta :: deltas' =>
      let '(converted, self') := dp_budget self delta in
      let '(rest, self'') := dp_budget_calls self' deltas' in
      (converted :: rest, self'')
  end.

(** Specification: the tight conversion at [delta] *)
Definition conversion (self : BudgetObject) (delta : Q) : DPBudget :=
  let r := get_privacy_spent (Budget.alphas (orders self)) (Budget.epsilons (orders self)) delta in
  {| dp_epsilon := fst r; dp_delta := delta; best_alpha := snd r |}.
End WithAccountant.
End DPBudgetCache.

(** ** simulator/resourcemanager.py: the termination clock *)

Module ResourceManager.

Inductive event : Type :=
| block_production_terminated
| task_production_terminated
| simulation_terminated.

Definition event_eqb (e1 e2 : event) : bool :=
  match e1, e2 with
  | block_production_terminated, block_production_terminated
  | task_production_terminated, task_production_terminated
  | simulation_terminated, simulation_terminated => true
  | _, _ => false
  end.

(** the statements of a simpy process *)
Inductive stmt : Type :=
| YieldEvent (e : event)              (* [yield e] *)
| YieldTimeout (delay : nat)          (* [yield self.env.timeout(delay)] *)
| SucceedUnlessTriggered (e : event)  (* [if not e.triggered: e.succeed()] *)
| LogInfo.                            (* [logger.info(...)] *)

Record Config : Type := {
  data_lifetime : nat   (* [omegaconf.scheduler.data_lifetime] *)
}.

(** [Config.set_block_arrival_time]: [self.block_arrival_interval = 1] *)
Definition set_block_arrival_time (config : Config) : nat := 1.

(** [ResourceManager.termination_clock] *)
Definition termination_clock (config : Config) : list stmt :=
  let block_arrival_interval := set_block_arrival_time config in
  [ YieldEvent block_production_terminated;
    LogInfo;
    YieldTimeout block_arrival_interval;
    SucceedUnlessTriggered task_production_terminated;
    LogInfo;
    YieldTimeout (data_lifetime config);
    LogInfo ].

(** The clock of the simulation seen from one process: the virtual time, and
    for each event the time at which it was triggered. *)
Record env : Type := {
  now : nat;
  triggered : event -> option nat
}.

Definition trigger (e : event) (s : env) : env :=
  {| now := now s;
     triggered := fun e' => if event_eqb e e' then Some (now s) else triggered s e' |}.

(** [fires e]: the time at which another process triggers [e], if any.
    A process yielding an event resumes when the event is triggered, at once
    when it already is; [None] is a process that never resumes. *)
Section Run.
Variable fires : event -> option nat.

Definition triggered_at (s : env) (e : event) : option nat :=
  match triggered s e with
  | Some t => Some t
  | None =>
      match fires e with
      | Some t => if Nat.leb t (now s) then Some t else None
      | None => None
      end
  end.

Definition step (s : env) (c : stmt) : option env :=
  match c with
  | YieldEvent e =>
      match triggered s e, fires e with
      | Some _, _ => Some s
      | None, Some t =>
          Some {| now := Nat.max (now s) t;
                  triggered := fun e' => if event_eqb e e' then Some t else triggered s e' |}
      | None, None => None
      end
  | YieldTimeout delay => Some {| now := now s + delay; triggered := triggered s |}
  | SucceedUnlessTriggered e =>
      match triggered_at s e with
      | Some _ => Some s
      | None => Some (trigger e s)
      end
  | LogInfo => Some s
  end.

Fixpoint run (s : env) (process : list stmt) : option env :=
  match process with
  | [] => Some s
  | c :: process' =>
      match step s c with
      | Some s' => run s' process'
      | None => None
      end
  end.
End Run.

Definition start : env := {| now := 0; triggered := fun _ => None |}.

(** somebody triggers the end of block production at [t_block]; nobody but
    the clock triggers the end of task production *)
Definition only_blocks (t_block : nat) (e : event) : option nat :=
  match e with
  | block_production_terminated => Some t_block
  | _ => None
  end.
End ResourceManager.

(** ** budget/block_selection.py *)

Module BlockSelection.
Import PyDict.

Inductive policy : Type :=
| RandomBlocks
| LatestBlocksFirst
| BiasedRandomBlocks
| ContiguousBlocksRandomOffset
| Zeta (s : Q).

(** The random draws are relations between the arguments and the possible
    outcomes, after the documentation of the libraries. *)

(** [random.sample(population, k)]: [k] elements at distinct positions, in
    any order; [ValueError] when the population is too small *)
Definition random_sample (population : list nat) (k : nat) (o : result (list nat)) : Prop :=
  if Nat.leb k (length population)
  then exists out, o = Return out /\ length out = k /\ out ⊆+ population
  else o = Raise ValueError.

(** [random.randint(a, b)]: both bounds included *)
Definition random_randint (a b : nat) (x : nat) : Prop := a <= x <= b.

(** [np.random.choice([0, 1], 1, p=[0.7, 0.3])[0]] *)
Definition biased_draw (selection : nat) : Prop := selection = 0 \/ selection = 1.

(** [Zeta.select_blocks] after its guard: [density] holds the weights
    [(i + 1) ** (-s)] divided by their sum, and
    [np.random.choice(n_blocks, k, replace=False, p=density)] draws [k]
    distinct indices among the entries of [density] that are positive.
    The weights are floats; their signs are read off the real numbers they
    round. *)

(** the weight [(i + 1) ** (-s)] of block [i], as a real number *)
Definition zeta_weight (s : Q) (i : nat) : R := Rpower (INR (i + 1)) (- Q2R s).

(** the weight is below a quarter of the smallest positive float: the power
    underflows to zero, and so does the entry of [density] *)
Definition surely_zero (s : Q) (i : nat) : Prop :=
  (zeta_weight s i <= / 2 ^ 1076)%R.

(** the weight is at least [n_blocks] times the smallest normal float: the
    power is a positive float, and so is its quotient by a sum of at most
    [n_blocks] *)
Definition surely_positive (s : Q) (n_blocks i : nat) : Prop :=
  (INR n_blocks * / 2 ^ 1022 <= zeta_weight s i)%R.

(** [pos i] tells whether entry [i] of [density] is positive; between the two
    bounds it depends on the rounding of the power and is left open *)
Definition possible_support (s : Q) (n_blocks : nat) (pos : nat -> bool) : Prop :=
  forall i, i < n_blocks ->
    (surely_positive s n_blocks i -> pos i = true) /\
    (surely_zero s i -> pos i = false).

(** up to this many blocks the rounding of the division leaves the sum of
    [density] within numpy's tolerance of one *)
Definition zeta_max_blocks : Z := 1048576.

(** The outcomes. Without blocks the probabilities sum to zero and numpy
    raises [ValueError]. For [s < 0] the weights grow with the index: a
    power that overflows raises [OverflowError], a sum that overflows makes
    every entry of [density] zero ([ValueError]); which of them happens, if
    any, is not modelled. Otherwise numpy raises [ValueError] when fewer
    than [k] entries are positive, and draws among the positive ones when
    there are enough. *)
Inductive zeta_choice (s : Q) (n_blocks k : nat) : result (list nat) -> Prop :=
| zeta_no_blocks :
    n_blocks = 0 -> zeta_choice s n_blocks k (Raise ValueError)
| zeta_overflow :
    0 < n_blocks -> (s < 0)%Q -> zeta_choice s n_blocks k (Raise OverflowError)
| zeta_not_normalised :
    0 < n_blocks -> (s < 0)%Q \/ (zeta_max_blocks < Z.of_nat n_blocks)%Z ->
    zeta_choice s n_blocks k (Raise ValueError)
| zeta_few (pos : nat -> bool) :
    0 < n_blocks -> possible_support s n_blocks pos ->
    length (List.filter pos (seq 0 n_blocks)) < k ->
    zeta_choice s n_blocks k (Raise ValueError)
| zeta_draw (pos : nat -> bool) (out : list nat) :
    0 < n_blocks -> possible_support s n_blocks pos ->
    length out = k -> out ⊆+ List.filter pos (seq 0 n_blocks) ->
    zeta_choice s n_blocks k (Return out).

(** [select_blocks(blocks, task_blocks_num)] of each policy: the possible outcomes *)
Definition select_blocks (p : policy) (blocks : @dict nat Block) (task_blocks_num : nat)
    (o : result (list nat)) : Prop :=
  let n_blocks := length blocks in
  if Nat.ltb n_blocks task_blocks_num then o = Raise NotEnoughBlocks
  else
    match p with
    | RandomBlocks => random_sample (seq 0 n_blocks) task_blocks_num o
    | LatestBlocksFirst =>
        o = Return (rev (seq (n_blocks - task_blocks_num) task_blocks_num))
    | BiasedRandomBlocks =>
        exists selection, biased_draw selection /\
          if Nat.eqb selection 0
          then
            let even_block_ids := List.filter Nat.even (seq 0 n_blocks) in
            let odd_block_ids := List.filter Nat.odd (seq 0 n_blocks) in
            if Nat.ltb (length even_block_ids) task_blocks_num
            then
              let diff := task_blocks_num - length even_block_ids in
              exists sampled, random_sample odd_block_ids diff sampled /\
                o = (s ← sampled; Return (even_block_ids ++ s))
            else random_sample even_block_ids task_blocks_num o
          else random_sample (seq 0 n_blocks) task_blocks_num o
    | ContiguousBlocksRandomOffset =>
        exists offset, random_randint 0 (n_blocks - task_blocks_num) offset /\
          o = Return (seq offset task_blocks_num)
    | Zeta s => zeta_choice s n_blocks task_blocks_num o
    end.

(** Specification: an ordered collection of [k] distinct block indices in [[0, n)] *)
Definition valid_selection (n k : nat) (l : list nat) : Prop :=
  length l = k /\ NoDup l /\ Forall (fun i => i < n) l.

(** what [Zeta s] needs to draw [k] of [n] blocks: a block, [s] not
    negative, not too many blocks, and the weights of the first [k] blocks
    (the [k] largest) surely positive; the other policies need nothing *)
Definition zeta_ok (p : policy) (n k : nat) : Prop :=
  match p with
  | Zeta s =>
      0 < n /\ (0 <= s)%Q /\ (Z.of_nat n <= zeta_max_blocks)%Z /\
      forall i, i < k -> surely_positive s n i
  | _ => True
  end.
End BlockSelection.

(** Proof-level view of the first loop: the demands added so far *)
Module OverflowFacts.
Import PyDict OverflowRelevance.
Local Open Scope Q_scope.

(** one demand added to the overflow: block, order, epsilon *)
Definition event : Type := (nat * Q * Q)%type.

Definition hits (b : nat) (alpha : Q) (ev : event) : bool :=
  let '(b', a', _) := ev in Nat.eqb b' b && Qeq_bool a' alpha.

Definition touched (events : list event) (b : nat) (alpha : Q) : bool :=
  existsb (hits b alpha) events.

(** the overflow after the events, from [start]: the demands of the events
    that hit, added one after the other *)
Definition total (start : float64) (events : list event) (b : nat) (alpha : Q) : float64 :=
  fold_left (fun overflow ev => if hits b alpha ev then fadd overflow (Fin (snd ev)) else overflow)
    events start.

Definition block_events (entry : nat * @Budget.t Q) : list event :=
  map (fun '(a, d) => (fst entry, a, d)) (snd entry).

Definition task_events (t : Task) : list event :=
  flat_map block_events (budget_per_block t).

Definition ov_val (ov : overflow_dict) (b : nat) (alpha : Q) : option float64 :=
  match get Nat.eqb ov b with
  | Some row => get Qeq_bool row alpha
  | None => None
  end.

Definition represents (blocks : @dict nat Block) (ov : overflow_dict) (events : list event) : Prop :=
  forall b alpha,
    match ov_val ov b alpha with
    | Some v => touched events b alpha = true /\
                v = total (Fin (- initial_epsilon blocks b alpha)) events b alpha
    | None => touched events b alpha = false
    end.
End OverflowFacts.

(** A block and two tasks, for the examples *)
Module OverflowExample.
Local Open Scope Q_scope.
Definition example_block : Block :=
  {| initial_budget := Budget.init [(2, 1); (3, 1)];
     budget := Budget.init [(2, 1); (3, 1)];
     available_unlocked_budget := Budget.init [(2, 1); (3, 1)];
     truncated_available_unlocked_budget := Budget.init [(2, 1); (3, 1)] |}.

Definition example_task (i : nat) (p e2 e3 : Q) : Task :=
  {| id := i; profit := p;
     budget_per_block := [(0%nat, Budget.init [(2, e2); (3, e3)])]; cost := 0;
     demand_matrix := [] |}.

Definition example_tasks : list Task :=
  [example_task 0 10 (3 # 4) 1; example_task 1 1 (1 # 2) (1 # 2)].

(** the float [0.2], and five tasks that ask [0.2] of the block at both orders *)
Definition fifth : Q := 3602879701896397 # 18014398509481984.

Definition fifth_tasks : list Task :=
  map (fun i => example_task i 1 fifth fifth) (seq 0 5).
End OverflowExample.

(** A block whose unlocked budget is 1 at every order *)
Module SoftmaxExample.
Local Open Scope Q_scope.
Definition unit_budget : @Budget.t Q := Budget.init (map (fun alpha => (alpha, 1)) Budget.ALPHAS).

Definition idle_block : Block :=
  {| initial_budget := unit_budget; budget := unit_budget;
     available_unlocked_budget := unit_budget;
     truncated_available_unlocked_budget := unit_budget |}.

Definition three_blocks : @PyDict.dict nat Block :=
  [(0%nat, idle_block); (1%nat, idle_block); (2%nat, idle_block)].
End SoftmaxExample.

(** ** budget/budget.py: the other operations of [Budget] *)

Module BudgetOps.
Import PyDict.
Local Open Scope Q_scope.

(** [{alpha: f(alpha, epsilon) for alpha, epsilon in zip(self.alphas, self.epsilons)}] *)
Definition comprehension_items {V W : Type} (f : Q -> V -> W) (self : @Budget.t V) : @dict Q W :=
  fold_left (fun orders '(alpha, epsilon) => set Qeq_bool orders alpha (f alpha epsilon)) self [].

(** [max(epsilon, 0.0)]: the first argument unless the second is greater *)
Definition py_max2 (x y : Q) : Q := if Qlt_bool x y then y else x.

(** [min(x, y)]: the first argument unless the second is smaller *)
Definition py_min2 (x y : Q) : Q := if Qlt_bool y x then y else x.

(** [Budget.from_epsilon_list] *)
Definition from_epsilon_list (epsilon_list : list Q) (alpha_list : list Q) : result (@Budget.t Q) :=
  if negb (Nat.eqb (length alpha_list) (length epsilon_list)) then Raise ValueError
  else
    let orders :=
      fold_left (fun orders '(alpha, epsilon) => set Qeq_bool orders alpha epsilon)
        (combine alpha_list epsilon_list) [] in
    Return (Budget.init orders).

(** [Budget.add_with_threshold] *)
Definition add_with_threshold (self other threshold : @Budget.t Q) : result (@Budget.t Q) :=
  orders ← Budget.comprehension
    (fun alpha =>
       es ← Budget.epsilon self alpha;
       eo ← Budget.epsilon other alpha;
       et ← Budget.epsilon threshold alpha;
       Return (py_min2 (es + eo) et))
    (Budget.alphas self);
  Return (Budget.init orders).

(** [Budget.positive] *)
Definition positive (self : @Budget.t Q) : @Budget.t Q :=
  Budget.init (comprehension_items (fun _ epsilon => py_max2 epsilon 0) self).

(** [Budget.normalize_by] *)
Definition normalize_by (self other : @Budget.t Q) : result (@Budget.t Q) :=
  '(a, b) ← Budget.same_support self other;
  orders ←
    for_each
      (fun orders alpha =>
         eb ← Budget.epsilon b alpha;
         if Qlt_bool 0 eb
         then
           ea ← Budget.epsilon a alpha;
           eb ← Budget.epsilon b alpha;
           Return (set Qeq_bool orders alpha (ea / eb))
         else Return orders)
      (Budget.alphas a) [];
  Return (Budget.init orders).

(** [Budget.__mul__] *)
Definition mul (self : @Budget.t Q) (n : Q) : result (@Budget.t Q) :=
  orders ← Budget.comprehension
    (fun alpha => e ← Budget.epsilon self alpha; Return (e * n)) (Budget.alphas self);
  Return (Budget.init orders).

(** [Budget.__ge__] *)
Definition ge (self other : @Budget.t Q) : result bool :=
  diff ← Budget.sub self other;
  Return (Budget.is_positive diff).

(** [Budget.copy] *)
Definition copy {V : Type} (self : @Budget.t V) : @Budget.t V := Budget.init self.
End BudgetOps.

(** ** schedulers/metrics.py: VectorizedBatchOverflowRelevance *)

Module VectorizedBatchOverflowRelevance.
Import PyDict.
Local Open Scope Q_scope.

(** one row of [overflow] before the demands are added: the negated
    unlocked budget, or infinity where none is left *)
Definition overflow_row (blocks : @dict nat Block) (truncate_available_budget : bool)
    (block_id : nat) : result (list float64) :=
  map_result
    (fun alpha =>
       block ← item Nat.eqb blocks block_id;
       if truncate_available_budget
       then
         eps ← Budget.epsilon (truncated_available_unlocked_budget block) alpha;
         Return (Fin (- eps))
       else
         eps ← Budget.epsilon (available_unlocked_budget block) alpha;
         if Qle_bool 0 eps then Return (Fin (- eps)) else Return PInf)
    Budget.ALPHAS.

(** [overflow += sum_demands]: the sum has to keep the shape of [overflow] *)
Definition inplace_add (overflow sum_demands : matrix) : result matrix :=
  total ← elementwise float_add overflow sum_demands;
  if Nat.eqb (length total) (length overflow)
     && forallb (fun '(row, row') => Nat.eqb (length row) (length row')) (combine total overflow)
  then Return total
  else Raise ValueError.

(** [overflow] as it enters the loop over blocks without contention *)
Definition overflow_matrix (blocks : @dict nat Block) (tasks : list Task)
    (truncate_available_budget : bool) : result matrix :=
  let n_blocks := length blocks in
  overflow ← map_result (overflow_row blocks truncate_available_budget) (seq 0 n_blocks);
  sum_demands ← SoftmaxOverflow.sum_demands tasks;
  inplace_add overflow sum_demands.

(** [np.reciprocal] *)
Definition np_reciprocal (x : float64) : float64 := float_div (Fin 1) x.

(** [VectorizedBatchOverflowRelevance.compute_relevance_matrix] *)
Definition compute_relevance_matrix (blocks : @dict nat Block) (tasks : list Task)
    (drop_blocks_with_no_contention truncate_available_budget : bool) : result matrix :=
  let n_blocks := length blocks in
  overflow ← overflow_matrix blocks tasks truncate_available_budget;
  overflow ←
    (if drop_blocks_with_no_contention
     then for_each SoftmaxOverflow.drop_body (seq 0 n_blocks) overflow
     else Return overflow);
  Return (map (map np_reciprocal) overflow).

(** [ndarray.sum()] *)
Definition np_sum (m : matrix) : float64 := fold_left float_add (concat m) (Fin 0).

(** [VectorizedBatchOverflowRelevance.apply] *)
Definition apply (task : Task) (relevance_matrix : matrix) : result float64 :=
  demands ← toarray (demand_matrix task);
  product ← elementwise float_mul demands relevance_matrix;
  let cost := np_sum product in
  if float_lt (Fin 0) cost then Return (float_div (Fin (profit task)) cost) else Return PInf.

(** Specification: what the loop over blocks makes of one row, and the
    arrays of one shape *)
Definition drop_row (row : list float64) : list float64 :=
  match np_min row with
  | Return min_overflow => if float_le min_overflow (Fin 0) then map (fun _ => NaN) row else row
  | Raise _ => row
  end.

Definition same_shape {A B : Type} (x : list (list A)) (y : list (list B)) : Prop :=
  Forall2 (fun row row' => length row = length row') x y.
End VectorizedBatchOverflowRelevance.

(** ** schedulers/metrics.py: Fcfs and DynamicFlatRelevance *)

Module Fcfs.
Local Open Scope Q_scope.

(** [Fcfs.apply]: [1 / (task.id + 1)], the quotient of two integers rounded
    to the nearest float *)
Definition apply (task : Task) : float64 :=
  fdiv (Fin 1) (Fin (inject_Z (Z.of_nat (id task) + 1))).
End Fcfs.


Module DynamicFlatRelevance.
Import PyDict.
Local Open Scope Q_scope.

(** body of [for alpha in blocks[block_id].initial_budget.alphas] *)
Definition alpha_body (blocks : @dict nat Block) (block_id : nat) (task_budget : @Budget.t Q)
    (cost : Q) (alpha : Q) : result Q :=
  demand ← Budget.epsilon task_budget alpha;
  block ← item Nat.eqb blocks block_id;
  remaining_budget ← Budget.epsilon (budget block) alpha;
  if Qlt_bool 0 remaining_budget then Return (cost + demand / remaining_budget)
  else Return cost.

(** body of [for block_id, budget in task.budget_per_block.items()] *)
Definition block_body (blocks : @dict nat Block) (cost : Q) (entry : nat * @Budget.t Q)
    : result Q :=
  let '(block_id, task_budget) := entry in
  block ← item Nat.eqb blocks block_id;
  for_each (alpha_body blocks block_id task_budget) (Budget.alphas (initial_budget block)) cost.

(** [DynamicFlatRelevance.apply]: the rank, and the task with its [cost] updated *)
Definition apply (task : Task) (blocks : @dict nat Block) : result (float64 * Task) :=
  cost ← for_each (block_body blocks) (budget_per_block task) 0;
  let task := set_cost task cost in
  if Qeq_bool cost 0 then Return (PInf, task)
  else Return (Fin (profit task / cost), task).

(** Specification: the demand of the task over what is left of the block,
    summed over the orders of the block that have budget left *)
Definition spec_term (task_budget remaining : @Budget.t Q) (alpha : Q) : Q :=
  match get Qeq_bool task_budget alpha, get Qeq_bool remaining alpha with
  | Some demand, Some remaining_budget =>
      if Qlt_bool 0 remaining_budget then demand / remaining_budget else 0
  | _, _ => 0
  end.

Definition spec_block_cost (blocks : @dict nat Block) (entry : nat * @Budget.t Q) : Q :=
  match get Nat.eqb blocks (fst entry) with
  | Some block =>
      qsum (map (spec_term (snd entry) (budget block)) (Budget.alphas (initial_budget block)))
  | None => 0
  end.


(** no [KeyError]: the block is known, and the demand and the remaining
    budget are given at every order of its initial budget *)
Definition entry_ok (blocks : @dict nat Block) (entry : nat * @Budget.t Q) : Prop :=
  exists block, get Nat.eqb blocks (fst entry) = Some block /\
    forall alpha, In alpha (Budget.alphas (initial_budget block)) ->
      contains Qeq_bool (snd entry) alpha = true /\
      contains Qeq_bool (budget block) alpha = true.

(** nothing is left of the block at any order of its initial budget *)
Definition exhausted (block : Block) : Prop :=
  forall alpha remaining_budget,
    In alpha (Budget.alphas (initial_budget block)) ->
    get Qeq_bool (budget block) alpha = Some remaining_budget -> remaining_budget <= 0.
End DynamicFlatRelevance.

(** ** simulator/blocks.py: the producer of blocks *)

Module Blocks.
Import ResourceManager.

(** [config.get_initial_blocks_num()] and [omegaconf.blocks.max_num] *)
Record BlocksConfig : Type := {
  initial_blocks_num : nat;
  max_num : nat
}.

(** What the producer has done so far: the virtual time, the counter
    [blocks_count], the [block(block_id)] processes started (block id and
    time, latest first), whether [LastItem] was put on the queue of new
    blocks, and when [block_production_terminated] was triggered. *)
Record state : Type := {
  now : nat;
  blocks_count : nat;
  started : list (nat * nat);
  last_item : bool;
  block_production_terminated : option nat
}.

(** [self.env.process(self.block(next(self.blocks_count)))] *)
Definition start_block (s : state) : state :=
  {| now := now s; blocks_count := S (blocks_count s);
     started := (blocks_count s, now s) :: started s;
     last_item := last_item s;
     block_production_terminated := block_production_terminated s |}.

(** [yield self.env.timeout(delay)] *)
Definition timeout (delay : nat) (s : state) : state :=
  {| now := now s + delay; blocks_count := blocks_count s; started := started s;
     last_item := last_item s;
     block_production_terminated := block_production_terminated s |}.

(** [for _ in range(n): s = body(s)] *)
Fixpoint repeat_loop (n : nat) (body : state -> state) (s : state) : state :=
  match n with
  | 0 => s
  | S n' => repeat_loop n' body (body s)
  end.

(** [Blocks.block_producer] *)
Definition block_producer (blocks : BlocksConfig) (config : Config) (s : state) : state :=
  let s := repeat_loop (initial_blocks_num blocks) start_block s in
  let s :=
    repeat_loop (max_num blocks - initial_blocks_num blocks)
      (fun s =>
         let block_arrival_interval := set_block_arrival_time config in
         timeout block_arrival_interval (start_block s))
      s in
  let s :=
    if negb (Nat.eqb (initial_blocks_num blocks) (max_num blocks))
    then {| now := now s; blocks_count := blocks_count s; started := started s;
            last_item := true;
            block_production_terminated := block_production_terminated s |}
    else s in
  match block_production_terminated s with
  | Some _ => s
  | None =>
      {| now := now s; blocks_count := blocks_count s; started := started s;
         last_item := last_item s; block_production_terminated := Some (now s) |}
  end.

(** the producer is started with the simulation *)
Definition start : state :=
  {| now := 0; blocks_count := 0; started := []; last_item := false;
     block_production_terminated := None |}.

(** Specification: the time at which block [block_id] is started *)
Definition arrival_time (blocks : BlocksConfig) (config : Config) (block_id : nat) : nat :=
  (block_id - initial_blocks_num blocks) * set_block_arrival_time config.
End Blocks.

(** ** budget/task.py: the demand matrix of a task *)

Module TaskMatrix.
Import PyDict.
Local Open Scope Q_scope.

(** [max(self.budget_per_block.keys())] *)
Definition py_max_nat (ks : list nat) : result nat :=
  match ks with
  | [] => Raise ValueError
  | k :: ks' => Return (fold_left Nat.max ks' k)
  end.

(** [enumerate(alphas)] *)
Definition enumerate {A : Type} (l : list A) : list (nat * A) := combine (seq 0 (length l)) l.

(** [demand_matrix[block_id, i] = v] *)
Definition setitem (m : list (list Q)) (block_id i : nat) (v : Q) : result (list (list Q)) :=
  match m !! block_id with
  | Some row =>
      if Nat.ltb i (length row) then Return (<[block_id := <[i := v]> row]> m)
      else Raise IndexError
  | None => Raise IndexError
  end.

(** body of [for block_id, budget in self.budget_per_block.items()] *)
Definition block_body (alphas : list Q) (m : list (list Q)) (entry : nat * @Budget.t Q)
    : result (list (list Q)) :=
  let '(block_id, task_budget) := entry in
  for_each
    (fun m '(i, alpha) => e ← Budget.epsilon task_budget alpha; setitem m block_id i e)
    (enumerate alphas) m.

(** [Task.build_demand_matrix]: the task with its [demand_matrix] set.
    [max_block_id or max(...)] takes the maximum also when [max_block_id]
    is 0. *)
Definition build_demand_matrix (task : Task) (alphas : list Q) (max_block_id : option nat)
    : result Task :=
  max_block_id ←
    match max_block_id with
    | Some (S n) => Return (S n)
    | _ => py_max_nat (keys (budget_per_block task))
    end;
  let n_alphas := length alphas in
  let zeros := replicate (max_block_id + 1) (replicate n_alphas 0) in
  m ← for_each (block_body alphas) (budget_per_block task) zeros;
  Return {| id := id task; profit := profit task;
            budget_per_block := budget_per_block task; cost := cost task;
            demand_matrix := m |}.

(** Specification: the row of a block, the demands of the task at the
    orders, or zeros when the task does not ask for the block *)
Definition eps_or_zero (task_budget : @Budget.t Q) (alpha : Q) : Q :=
  match get Qeq_bool task_budget alpha with Some e => e | None => 0 end.

Definition spec_row (task : Task) (alphas : list Q) (block_id : nat) : list Q :=
  match get Nat.eqb (budget_per_block task) block_id with
  | Some task_budget => map (eps_or_zero task_budget) alphas
  | None => replicate (length alphas) 0
  end.

(** every budget of the task is given at every order of the list *)
Definition covers (alphas : list Q) (entry : nat * @Budget.t Q) : Prop :=
  forall alpha, In alpha alphas -> contains Qeq_bool (snd entry) alpha = true.
End TaskMatrix.

(** ** budget/task.py: UniformTask *)

Module UniformTask.
Import PyDict.
Local Open Scope Q_scope.

(** a [UniformTask]: the task and the one budget it asks of every block *)
Record t : Type := {
  task : Task;
  budget : @Budget.t Q
}.

(** [np.random.random()]: a float in [[0, 1)] *)
Definition np_random_random (x : Q) : Prop := 0 <= x /\ x < 1.

(** [UniformTask.set_budget_per_block]: the possible outcomes *)
Definition set_budget_per_block (self : t) (block_ids : list nat) (demands_tiebreaker : Q)
    (o : result t) : Prop :=
  exists scaled : result (@Budget.t Q),
    (if Qeq_bool demands_tiebreaker 0 then scaled = Return (budget self)
     else exists fraction_offset,
         np_random_random fraction_offset /\
         scaled = BudgetOps.mul (budget self) (1 + demands_tiebreaker * fraction_offset)) /\
    o = (self_budget ← scaled;
         Return {| task :=
                     {| id := id (task self); profit := profit (task self);
                        budget_per_block :=
                          fold_left (fun d block_id => set Nat.eqb d block_id self_budget)
                            block_ids (budget_per_block (task self));
                        cost := cost (task self);
                        demand_matrix := demand_matrix (task self) |};
                   budget := self_budget |}).
End UniformTask.

(** * Properties *)

Import PyDict.

(** ** Rounding to binary64 *)

Ltac qcompare_hyps :=
  repeat match goal with
  | H : Qcompare _ _ = Eq |- _ => apply Qeq_alt in H
  | H : Qcompare _ _ = Lt |- _ => apply Qlt_alt in H
  | H : Qcompare _ _ = Gt |- _ => apply Qgt_alt in H
  end.

Section Rounding.
Local Open Scope Q_scope.

Lemma round_half_even_range x :
  (Qfloor x <= round_half_even x <= Qfloor x + 1)%Z.
Proof.
  unfold round_half_even. cbv zeta.
  destruct (Qcompare (x - inject_Z (Qfloor x)) (1 # 2)); [destruct (Z.even (Qfloor x))| |]; lia.
Qed.

Lemma round_half_even_mono x y : x <= y -> (round_half_even x <= round_half_even y)%Z.
Proof.
  intros Hxy. pose proof (Qfloor_resp_le x y Hxy) as Hf.
  pose proof (round_half_even_range x) as Hx. pose proof (round_half_even_range y) as Hy.
  destruct (Z.eq_dec (Qfloor x) (Qfloor y)) as [E | E]; [|lia].
  unfold round_half_even in *. cbv zeta in *. rewrite <- E in *.
  destruct (Qcompare (x - inject_Z (Qfloor x)) (1 # 2)) eqn:Cx;
    destruct (Qcompare (y - inject_Z (Qfloor x)) (1 # 2)) eqn:Cy;
    try (destruct (Z.even (Qfloor x))); try lia; exfalso; qcompare_hyps; lra.
Qed.

Lemma round_half_even_Z n : round_half_even (inject_Z n) = n.
Proof.
  unfold round_half_even. cbv zeta. rewrite Qfloor_Z.
  assert (Qcompare (inject_Z n - inject_Z n) (1 # 2) = Lt) as ->; [|reflexivity].
  apply Qlt_alt. assert (inject_Z n - inject_Z n == 0) as E by ring. rewrite E. reflexivity.
Qed.

Lemma Qpower2_pos e : 0 < 2 ^ e.
Proof. apply Qpower_0_lt. reflexivity. Qed.

Lemma Qpower2_succ e : 2 ^ (e + 1) == 2 * 2 ^ e.
Proof. rewrite Qpower_plus by discriminate. change (2 ^ 1) with 2. ring. Qed.

Lemma Qlog2_spec x : 0 < x -> 2 ^ Qlog2 x <= x /\ x < 2 ^ (Qlog2 x + 1).
Proof.
  intros Hx. destruct x as [n d]. unfold Qlog2. cbn [Qnum Qden].
  assert (0 < n)%Z as Hn by (unfold Qlt in Hx; simpl in Hx; lia).
  set (a := Z.log2 n). set (b := Z.log2 (Z.pos d)).
  assert (0 <= a)%Z as Ha by apply Z.log2_nonneg.
  assert (0 <= b)%Z as Hb by apply Z.log2_nonneg.
  destruct (Z.log2_spec n Hn) as [Hn1 Hn2]. fold a in Hn1, Hn2.
  destruct (Z.log2_spec (Z.pos d) ltac:(lia)) as [Hd1 Hd2]. fold b in Hd1, Hd2.
  rewrite Zle_Qle, Zpower_Qpower in Hn1, Hd1 by assumption.
  rewrite Zlt_Qlt, Zpower_Qpower in Hn2, Hd2 by lia.
  change (inject_Z 2) with 2 in *. unfold Z.succ in *.
  rewrite Qpower2_succ in Hn2, Hd2.
  pose proof (Qpower2_pos a) as HA. pose proof (Qpower2_pos b) as HB.
  assert (2 ^ (a - b) * 2 ^ b == 2 ^ a) as HE.
  { rewrite <- Qpower_plus by discriminate. replace (a - b + b)%Z with a by lia. reflexivity. }
  pose proof (Qpower2_pos (a - b)) as HEpos.
  assert ((n # d) * inject_Z (Z.pos d) == inject_Z n) as Hnd.
  { rewrite (Qmake_Qdiv n d). field. discriminate. }
  revert Hn1 Hn2 Hd1 Hd2 HE Hnd HEpos HA HB Hx.
  generalize (2 ^ a) as A. generalize (2 ^ b) as B.
  generalize (inject_Z n) as N. generalize (inject_Z (Z.pos d)) as D.
  intros D N B A Hn1 Hn2 Hd1 Hd2 HE Hnd HEpos HA HB Hx.
  destruct (Qle_bool (2 ^ (a - b)) (n # d)) eqn:C.
  - apply Qle_bool_iff in C. split; [exact C|]. rewrite Qpower2_succ.
    revert C HE Hnd HEpos. generalize (2 ^ (a - b)) as E. generalize (n # d) as X.
    intros X E C HE Hnd HEpos.
    destruct (Qlt_le_dec X (2 * E)) as [H | H]; [exact H | exfalso]. nra.
  - assert (n # d < 2 ^ (a - b)) as C'.
    { destruct (Qlt_le_dec (n # d) (2 ^ (a - b))) as [H | H]; [exact H|].
      apply Qle_bool_iff in H. congruence. }
    replace (a - b - 1 + 1)%Z with (a - b)%Z by lia. split; [|exact C'].
    assert (2 ^ (a - b) == 2 * 2 ^ (a - b - 1)) as Hhalf.
    { rewrite <- Qpower2_succ. replace (a - b - 1 + 1)%Z with (a - b)%Z by lia. reflexivity. }
    pose proof (Qpower2_pos (a - b - 1)) as HE1.
    revert C' HE Hnd HEpos Hhalf HE1.
    generalize (2 ^ (a - b)) as E. generalize (2 ^ (a - b - 1)) as E1. generalize (n # d) as X.
    intros X E1 E C' HE Hnd HEpos Hhalf HE1.
    destruct (Qlt_le_dec X E1) as [H | H]; [exfalso | exact H]. nra.
Qed.

Lemma scaled_range x :
  0 < x ->
  let e := (Qlog2 x - 52)%Z in
  inject_Z (2 ^ 52) <= x / 2 ^ e /\ x / 2 ^ e <= inject_Z (2 ^ 53).
Proof.
  intros Hx e. destruct (Qlog2_spec x Hx) as [H1 H2].
  pose proof (Qpower2_pos e) as He.
  assert (2 ^ Qlog2 x == inject_Z (2 ^ 52) * 2 ^ e) as E1.
  { rewrite Zpower_Qpower by lia. change (inject_Z 2) with 2.
    rewrite <- Qpower_plus by discriminate. unfold e.
    replace (52 + (Qlog2 x - 52))%Z with (Qlog2 x) by lia. reflexivity. }
  assert (2 ^ (Qlog2 x + 1) == inject_Z (2 ^ 53) * 2 ^ e) as E2.
  { rewrite Zpower_Qpower by lia. change (inject_Z 2) with 2.
    rewrite <- Qpower_plus by discriminate. unfold e.
    replace (53 + (Qlog2 x - 52))%Z with (Qlog2 x + 1)%Z by lia. reflexivity. }
  rewrite E1 in H1. rewrite E2 in H2. split.
  - apply Qle_shift_div_l; [exact He | exact H1].
  - apply Qle_shift_div_r; [exact He | apply Qlt_le_weak; exact H2].
Qed.

Lemma round_pos_range x :
  0 < x -> 2 ^ Qlog2 x <= round_pos x /\ round_pos x <= 2 ^ (Qlog2 x + 1).
Proof.
  intros Hx. unfold round_pos. cbv zeta. set (e := (Qlog2 x - 52)%Z).
  destruct (scaled_range x Hx) as [H1 H2]. fold e in H1, H2.
  pose proof (Qpower2_pos e) as He.
  apply round_half_even_mono in H1, H2. rewrite round_half_even_Z in H1, H2.
  rewrite Zle_Qle in H1, H2.
  assert (2 ^ Qlog2 x == inject_Z (2 ^ 52) * 2 ^ e) as E1.
  { rewrite Zpower_Qpower by lia. change (inject_Z 2) with 2.
    rewrite <- Qpower_plus by discriminate. unfold e.
    replace (52 + (Qlog2 x - 52))%Z with (Qlog2 x) by lia. reflexivity. }
  assert (2 ^ (Qlog2 x + 1) == inject_Z (2 ^ 53) * 2 ^ e) as E2.
  { rewrite Zpower_Qpower by lia. change (inject_Z 2) with 2.
    rewrite <- Qpower_plus by discriminate. unfold e.
    replace (53 + (Qlog2 x - 52))%Z with (Qlog2 x + 1)%Z by lia. reflexivity. }
  rewrite E1, E2. split; apply Qmult_le_compat_r; try assumption; apply Qlt_le_weak; exact He.
Qed.

Lemma round_pos_mono x y : 0 < x -> x <= y -> round_pos x <= round_pos y.
Proof.
  intros Hx Hxy. assert (0 < y) as Hy by lra.
  destruct (Qlog2_spec x Hx) as [Hx1 Hx2]. destruct (Qlog2_spec y Hy) as [Hy1 Hy2].
  assert (Qlog2 x < Qlog2 y + 1)%Z as Hlog.
  { apply (Qpower_lt_compat_l_inv 2); [lra | reflexivity]. }
  destruct (Z.eq_dec (Qlog2 x) (Qlog2 y)) as [E | E].
  - unfold round_pos. cbv zeta. rewrite E.
    pose proof (Qpower2_pos (Qlog2 y - 52)) as He.
    apply Qmult_le_compat_r; [|apply Qlt_le_weak; exact He].
    rewrite <- Zle_Qle. apply round_half_even_mono.
    apply Qmult_le_compat_r; [exact Hxy|]. apply Qlt_le_weak, Qinv_lt_0_compat, He.
  - destruct (round_pos_range x Hx) as [_ Hrx]. destruct (round_pos_range y Hy) as [Hry _].
    assert (2 ^ (Qlog2 x + 1) <= 2 ^ Qlog2 y) as Hmid.
    { apply Qpower_le_compat_l; [lia | discriminate]. }
    lra.
Qed.

Lemma round_pos_pos x : 0 < x -> 0 < round_pos x.
Proof.
  intros Hx. destruct (round_pos_range x Hx) as [H _].
  pose proof (Qpower2_pos (Qlog2 x)). lra.
Qed.

Lemma b64_comp x y : x == y -> b64 x = b64 y.
Proof.
  intros H. unfold b64. rewrite (Qcompare_comp x y H 0 0 (Qeq_refl 0)).
  rewrite (Qred_complete x y H).
  rewrite (Qred_complete (- x) (- y)) by (rewrite H; reflexivity). reflexivity.
Qed.

Lemma b64_mono x y : x <= y -> b64 x <= b64 y.
Proof.
  intros Hxy. unfold b64.
  assert (forall z, 0 < z -> 0 < Qred z) as Hred by (intros z Hz; rewrite Qred_correct; exact Hz).
  apply Qred_le.
  destruct (Qcompare x 0) eqn:Cx; destruct (Qcompare y 0) eqn:Cy; qcompare_hyps; try lra.
  - pose proof (round_pos_pos (Qred y) (Hred y Cy)). lra.
  - pose proof (round_pos_pos (Qred (- x)) (Hred (- x) ltac:(lra))). lra.
  - assert (Qred (- y) <= Qred (- x)) as Hle by (rewrite !Qred_correct; lra).
    pose proof (round_pos_mono (Qred (- y)) (Qred (- x)) (Hred (- y) ltac:(lra)) Hle). lra.
  - pose proof (round_pos_pos (Qred (- x)) (Hred (- x) ltac:(lra))).
    pose proof (round_pos_pos (Qred y) (Hred y Cy)). lra.
  - assert (Qred x <= Qred y) as Hle by (rewrite !Qred_correct; lra).
    apply (round_pos_mono (Qred x) (Qred y) (Hred x Cx) Hle).
Qed.
End Rounding.

(** ** Results and dictionaries *)

Lemma bind_Return_inv {A B} (m : result A) (f : A -> result B) b :
  (m ≫= f) = Return b -> exists a, m = Return a /\ f a = Return b.
Proof. destruct m as [a|e]; simpl; intros H; [eauto | discriminate]. Qed.


#[global] Instance Qeq_bool_KeyEq : KeyEq Qeq_bool.
Proof. split; [exact Qeq_bool_refl | exact Qeq_bool_comm | exact Qeq_bool_trans]. Qed.

#[global] Instance Nat_eqb_KeyEq : KeyEq Nat.eqb.
Proof.
  split; intros *.
  - apply Nat.eqb_refl.
  - apply Nat.eqb_sym.
  - rewrite !Nat.eqb_eq. congruence.
Qed.

Section DictFacts.
Context {K V : Type} (keq : K -> K -> bool) `{!KeyEq keq}.

Local Abbreviation dict := (@dict K V).
Local Abbreviation has_key := (has_key keq).
Local Abbreviation uniq := (uniq keq).


Lemma keq_congr k k' k0 : keq k k' = true -> keq k0 k = keq k0 k'.
Proof.
  intros Hk. destruct (keq k0 k) eqn:E.
  - symmetry. eapply keq_trans; eauto.
  - destruct (keq k0 k') eqn:E'; [|reflexivity].
    rewrite keq_sym in Hk. rewrite (keq_trans _ _ _ E' Hk) in E. discriminate.
Qed.

Lemma get_keq (d : dict) k k' : keq k k' = true -> get keq d k = get keq d k'.
Proof.
  intros Hk. induction d as [|[k0 v0] d IH]; simpl; [reflexivity|].
  rewrite (keq_congr _ _ k0 Hk), IH. reflexivity.
Qed.

Lemma get_has_key (d : dict) k : contains keq d k = has_key (keys d) k.
Proof.
  unfold contains. induction d as [|[k0 v0] d IH]; simpl; [reflexivity|].
  destruct (keq k0 k); simpl; [reflexivity | exact IH].
Qed.

Lemma has_key_get (d : dict) k : has_key (keys d) k = true <-> exists v, get keq d k = Some v.
Proof.
  rewrite <- get_has_key. unfold contains.
  destruct (get keq d k); split; intros H; eauto; try discriminate.
  destruct H as [v H]; discriminate.
Qed.

Lemma has_key_In ks k : has_key ks k = true <-> exists k', In k' ks /\ keq k' k = true.
Proof. unfold has_key. apply existsb_exists. Qed.

Lemma has_key_self ks k : In k ks -> has_key ks k = true.
Proof. intros H. apply has_key_In. exists k. split; [exact H | apply keq_refl]. Qed.

Lemma has_key_keq ks k k' : keq k k' = true -> has_key ks k = has_key ks k'.
Proof.
  intros Hk. induction ks as [|k0 ks IH]; simpl; [reflexivity|].
  rewrite IH, (keq_congr _ _ k0 Hk). reflexivity.
Qed.

Lemma get_set_eq (d : dict) k k' v : keq k k' = true -> get keq (set keq d k v) k' = Some v.
Proof.
  intros Hk. induction d as [|[k0 v0] d IH]; simpl.
  - rewrite Hk. reflexivity.
  - destruct (keq k0 k) eqn:E; simpl; rewrite <- (keq_congr _ _ k0 Hk), E; [reflexivity | exact IH].
Qed.

Lemma get_set_ne (d : dict) k k' v : keq k k' = false -> get keq (set keq d k v) k' = get keq d k'.
Proof.
  intros Hk. induction d as [|[k0 v0] d IH]; simpl.
  - rewrite Hk. reflexivity.
  - destruct (keq k0 k) eqn:E; simpl.
    + rewrite (keq_sym k0 k'), (keq_congr _ _ k' E), keq_sym, Hk. reflexivity.
    + destruct (keq k0 k'); [reflexivity | exact IH].
Qed.

Lemma get_set (d : dict) k k' v :
  get keq (set keq d k v) k' = if keq k k' then Some v else get keq d k'.
Proof. destruct (keq k k') eqn:E; [apply get_set_eq | apply get_set_ne]; exact E. Qed.

Lemma keys_set (d : dict) k v :
  keys (set keq d k v) = if contains keq d k then keys d else keys d ++ [k].
Proof.
  unfold contains. induction d as [|[k0 v0] d IH]; simpl; [reflexivity|].
  destruct (keq k0 k) eqn:E; simpl; [reflexivity|].
  rewrite IH. destruct (get keq d k); reflexivity.
Qed.

Lemma has_key_app ks1 ks2 k : has_key (ks1 ++ ks2) k = has_key ks1 k || has_key ks2 k.
Proof. unfold has_key. apply existsb_app. Qed.

Lemma uniq_snoc ks k : uniq ks -> has_key ks k = false -> uniq (ks ++ [k]).
Proof.
  induction ks as [|k0 ks IH]; simpl; intros Hu Hk; [auto|].
  destruct Hu as [H0 Hu]. apply orb_false_elim in Hk as [Hk0 Hk].
  split; [|auto]. rewrite has_key_app, H0. simpl. rewrite (keq_sym (keq:=keq) k k0), Hk0. reflexivity.
Qed.

Lemma uniq_set (d : dict) k v : uniq (keys d) -> uniq (keys (set keq d k v)).
Proof.
  intros Hu. rewrite keys_set. destruct (contains keq d k) eqn:E; [exact Hu|].
  apply uniq_snoc; [exact Hu|]. rewrite <- get_has_key. exact E.
Qed.

Lemma uniq_In_get (d : dict) k v : uniq (keys d) -> In (k, v) d -> get keq d k = Some v.
Proof.
  induction d as [|[k0 v0] d IH]; simpl; [tauto|]. intros [H0 Hu] [Heq|Hin].
  - inversion Heq; subst. rewrite keq_refl. reflexivity.
  - destruct (keq k0 k) eqn:E; [|auto].
    rewrite (has_key_keq _ _ _ E) in H0.
    rewrite (has_key_self (keys d) k) in H0; [discriminate|].
    change k with (fst (k, v)). apply in_map. exact Hin.
Qed.

Lemma get_In (d : dict) k v : get keq d k = Some v -> exists k', keq k' k = true /\ In (k', v) d.
Proof.
  induction d as [|[k0 v0] d IH]; simpl; [discriminate|].
  destruct (keq k0 k) eqn:E.
  - intros [= ->]. eauto.
  - intros H. destruct (IH H) as (k' & ? & ?). eauto.
Qed.

Lemma values_get (d : dict) v :
  uniq (keys d) -> (In v (values d) <-> exists k, get keq d k = Some v).
Proof.
  intros Hu. unfold values. rewrite in_map_iff. split.
  - intros ([k v'] & Hv & Hin). simpl in Hv. subst. eauto using uniq_In_get.
  - intros (k & Hg). destruct (get_In _ _ _ Hg) as (k' & _ & Hin). exists (k', v). auto.
Qed.
End DictFacts.

Section SortedFacts.
Context {A : Type} (leb : A -> A -> bool).

Lemma insert_sorted_Permutation x l : Permutation (insert_sorted leb x l) (x :: l).
Proof.
  induction l as [|y l IH]; simpl; [reflexivity|].
  destruct (leb x y); [reflexivity|]. rewrite IH. apply perm_swap.
Qed.

Lemma sorted_Permutation l : Permutation (sorted leb l) l.
Proof.
  induction l as [|x l IH]; simpl; [reflexivity|].
  rewrite insert_sorted_Permutation, IH. reflexivity.
Qed.

Lemma sorted_In x l : In x (sorted leb l) <-> In x l.
Proof. split; apply Permutation_in; [|symmetry]; apply sorted_Permutation. Qed.
End SortedFacts.

Section BuildFacts.
Context {V : Type}.
Local Abbreviation keq := Qeq_bool.
Local Abbreviation hasq := (has_key Qeq_bool).
Local Abbreviation uniqq := (uniq Qeq_bool).

Lemma has_key_perm ks ks' k : (forall x, In x ks <-> In x ks') -> hasq ks k = hasq ks' k.
Proof.
  intros H. destruct (hasq ks k) eqn:E; symmetry.
  - apply has_key_In in E as (k' & Hin & Hk). apply has_key_In. exists k'. split; [apply H|]; auto.
  - destruct (hasq ks' k) eqn:E'; [|reflexivity].
    apply has_key_In in E' as (k' & Hin & Hk).
    rewrite <- E. symmetry. apply has_key_In. exists k'. split; [apply H|]; auto.
Qed.

Lemma has_key_sorted ks k : hasq (sorted Qle_bool ks) k = hasq ks k.
Proof. apply has_key_perm. intros x. apply sorted_In. Qed.

Lemma init_loop_get (orders : @dict Q V) ks self alpha :
  (forall k, In k ks -> hasq (keys orders) k = true) ->
  get keq
    (fold_left (fun self alpha =>
       match get keq orders alpha with
       | Some e => set keq self alpha e
       | None => self
       end) ks self) alpha
  = if hasq ks alpha then get keq orders alpha else get keq self alpha.
Proof.
  revert self. induction ks as [|k ks IH]; intros self Hks; simpl; [reflexivity|].
  rewrite IH by (intros; apply Hks; right; assumption).
  destruct (proj1 (has_key_get keq _ _) (Hks k (or_introl Logic.eq_refl))) as [e He].
  rewrite He. rewrite (get_set keq).
  destruct (keq k alpha) eqn:E; simpl.
  - rewrite <- (get_keq keq _ _ _ E), He.
    destruct (hasq ks alpha); reflexivity.
  - reflexivity.
Qed.

Lemma init_get (orders : @dict Q V) alpha :
  get keq (Budget.init orders) alpha = get keq orders alpha.
Proof.
  unfold Budget.init. rewrite init_loop_get.
  - rewrite has_key_sorted. destruct (hasq (keys orders) alpha) eqn:E; [reflexivity|].
    simpl. rewrite <- get_has_key in E. unfold contains in E.
    destruct (get keq orders alpha); [discriminate | reflexivity].
  - intros k Hk. apply has_key_self; [apply _|]. apply sorted_In in Hk. exact Hk.
Qed.

Lemma init_uniq (orders : @dict Q V) : uniqq (keys (Budget.init orders)).
Proof.
  unfold Budget.init. generalize (sorted Qle_bool (keys orders)).
  assert (uniqq (keys ([] : @dict Q V))) as H by exact I. revert H.
  generalize ([] : @dict Q V). intros self Hu l. revert self Hu.
  induction l as [|k l IH]; intros self Hu; simpl; [exact Hu|].
  apply IH. destruct (get keq orders k); [|exact Hu].
  apply uniq_set; [apply _ | exact Hu].
Qed.

Lemma comprehension_spec (f : Q -> result V) (g : Q -> V) ks acc :
  (forall k, In k ks -> f k = Return (g k)) ->
  (forall k k', keq k k' = true -> In k ks -> g k = g k') ->
  exists orders,
    for_each (fun orders alpha => e ← f alpha; Return (set keq orders alpha e)) ks acc
      = Return orders /\
    forall alpha, get keq orders alpha
                  = if hasq ks alpha then Some (g alpha) else get keq acc alpha.
Proof.
  revert acc. induction ks as [|k ks IH]; intros acc Hf Hg; simpl.
  - eauto.
  - rewrite (Hf k) by (left; reflexivity). simpl.
    destruct (IH (set keq acc k (g k))) as (o & Ho & Hget).
    + intros; apply Hf; right; assumption.
    + intros; eapply Hg; eauto; right; assumption.
    + exists o. split; [exact Ho|]. intros alpha. rewrite Hget.
      rewrite (get_set keq).
      destruct (keq k alpha) eqn:E; simpl.
      * rewrite (Hg k alpha E) by (left; reflexivity). destruct (hasq ks alpha); reflexivity.
      * reflexivity.
Qed.
End BuildFacts.

(** ** Budget algebra *)

Section BudgetFacts.
Local Open Scope Q_scope.
Local Abbreviation keq := Qeq_bool.
Local Abbreviation hasq := (has_key Qeq_bool).
Local Abbreviation uniqq := (uniq Qeq_bool).

Lemma same_support_loop (b1 b2 : @Budget.t Q) ks o1 o2 :
  (forall k, In k ks -> contains keq b1 k = true /\ contains keq b2 k = true) ->
  exists o1' o2',
    for_each
      (fun '(orders1, orders2) alpha =>
         e1 ← Budget.epsilon b1 alpha;
         e2 ← Budget.epsilon b2 alpha;
         Return (set keq orders1 alpha e1, set keq orders2 alpha e2))
      ks (o1, o2) = Return (o1', o2') /\
    (forall alpha, get keq o1' alpha = if hasq ks alpha then get keq b1 alpha else get keq o1 alpha) /\
    (forall alpha, get keq o2' alpha = if hasq ks alpha then get keq b2 alpha else get keq o2 alpha).
Proof.
  revert o1 o2. induction ks as [|k ks IH]; intros o1 o2 Hks; simpl.
  - eauto.
  - destruct (Hks k (or_introl Logic.eq_refl)) as [H1 H2].
    unfold contains in H1, H2. unfold Budget.epsilon, item.
    destruct (get keq b1 k) as [e1|] eqn:E1; [|discriminate].
    destruct (get keq b2 k) as [e2|] eqn:E2; [|discriminate]. simpl.
    destruct (IH (set keq o1 k e1) (set keq o2 k e2)) as (o1' & o2' & Hrun & Hg1 & Hg2).
    { intros; apply Hks; right; assumption. }
    exists o1', o2'. split; [exact Hrun|].
    split; intros alpha; [rewrite Hg1 | rewrite Hg2]; rewrite (get_set keq);
      destruct (keq k alpha) eqn:E; simpl; try reflexivity;
      rewrite <- (get_keq keq _ _ _ E); [rewrite E1 | rewrite E2];
      destruct (hasq ks alpha); reflexivity.
Qed.


Lemma contains_keq {V} (d : @dict Q V) k k' : keq k k' = true -> contains keq d k = contains keq d k'.
Proof. intros H. unfold contains. rewrite (get_keq keq _ _ _ H). reflexivity. Qed.

Lemma has_key_filter (p : Q -> bool) ks k :
  (forall a a', keq a a' = true -> p a = p a') ->
  hasq (List.filter p ks) k = hasq ks k && p k.
Proof.
  intros Hp. induction ks as [|k0 ks IH]; simpl; [reflexivity|].
  destruct (p k0) eqn:E0; simpl; rewrite IH.
  - destruct (keq k0 k) eqn:E; simpl; [|reflexivity].
    rewrite <- (Hp _ _ E), E0. reflexivity.
  - destruct (keq k0 k) eqn:E; simpl; [|reflexivity].
    rewrite <- (Hp _ _ E), E0. rewrite andb_false_r. reflexivity.
Qed.

Lemma same_support_spec (b1 b2 : @Budget.t Q) :
  exists a b,
    Budget.same_support b1 b2 = Return (a, b) /\
    uniqq (keys a) /\ uniqq (keys b) /\
    (forall alpha, get keq a alpha = if Budget.shared b1 b2 alpha then get keq b1 alpha else None) /\
    (forall alpha, get keq b alpha = if Budget.shared b1 b2 alpha then get keq b2 alpha else None).
Proof.
  unfold Budget.same_support. cbv zeta.
  set (ks := sorted Qle_bool _).
  assert (forall alpha, hasq ks alpha = Budget.shared b1 b2 alpha) as Hks.
  { intros alpha. unfold ks. rewrite has_key_sorted, has_key_filter.
    - unfold Budget.alphas. rewrite <- get_has_key. reflexivity.
    - intros; apply contains_keq; assumption. }
  destruct (same_support_loop b1 b2 ks [] []) as (o1 & o2 & Hrun & Hg1 & Hg2).
  { intros k Hk. unfold ks in Hk. apply sorted_In in Hk. apply filter_In in Hk as [Hk1 Hk2].
    split; [|exact Hk2]. rewrite get_has_key. apply has_key_self; [apply _ | exact Hk1]. }
  exists (Budget.init o1), (Budget.init o2).
  match goal with
  | |- context [for_each ?f ?k ?i] =>
      replace (for_each f k i) with (Return (A:=@dict Q Q * @dict Q Q) (o1, o2))
        by (symmetry; exact Hrun)
  end.
  simpl. split; [reflexivity|].
  split; [apply init_uniq|]. split; [apply init_uniq|].
  split; intros alpha; rewrite init_get; [rewrite Hg1 | rewrite Hg2]; rewrite Hks; reflexivity.
Qed.


Lemma binop_spec (op : Q -> Q -> Q) (b1 b2 : @Budget.t Q) :
  exists c,
    ('(a, b) ← Budget.same_support b1 b2;
     orders ← Budget.comprehension
       (fun alpha => ea ← Budget.epsilon a alpha; eb ← Budget.epsilon b alpha; Return (op ea eb))
       (Budget.alphas a);
     Return (Budget.init orders)) = Return c /\
    uniqq (keys c) /\
    forall alpha, get keq c alpha = Budget.pointwise op b1 b2 alpha.
Proof.
  destruct (same_support_spec b1 b2) as (a & b & Hss & Hua & Hub & Hga & Hgb).
  set (g := fun alpha => match Budget.pointwise op b1 b2 alpha with Some e => e | None => 0 end).
  assert (forall alpha, hasq (keys a) alpha = true ->
            Budget.shared b1 b2 alpha = true /\
            exists e1 e2, get keq b1 alpha = Some e1 /\ get keq b2 alpha = Some e2) as Hsh.
  { intros alpha Hk. rewrite <- get_has_key in Hk. unfold contains in Hk. rewrite Hga in Hk.
    destruct (Budget.shared b1 b2 alpha) eqn:E; [|discriminate]. split; [reflexivity|].
    unfold Budget.shared, contains in E.
    destruct (get keq b1 alpha), (get keq b2 alpha); try discriminate; eauto. }
  destruct (comprehension_spec
    (fun alpha => ea ← Budget.epsilon a alpha; eb ← Budget.epsilon b alpha; Return (op ea eb))
    g (Budget.alphas a) []) as (o & Ho & Hgo).
  { intros k Hk. destruct (Hsh k) as (Hs & e1 & e2 & H1 & H2).
    { apply has_key_self; [apply _ | exact Hk]. }
    unfold Budget.epsilon, item, g, Budget.pointwise. rewrite Hga, Hgb, Hs, H1, H2. reflexivity. }
  { intros k k' Hkk _. unfold g, Budget.pointwise.
    rewrite !(get_keq keq _ _ _ Hkk). reflexivity. }
  exists (Budget.init o). rewrite Hss. simpl. unfold Budget.comprehension. rewrite Ho. simpl.
  split; [reflexivity|].
  split; [apply init_uniq|]. intros alpha. rewrite init_get, Hgo. simpl.
  unfold Budget.alphas.
  destruct (hasq (keys a) alpha) eqn:E.
  - destruct (Hsh _ E) as (_ & e1 & e2 & H1 & H2). unfold g, Budget.pointwise. rewrite H1, H2. reflexivity.
  - rewrite <- get_has_key in E. unfold contains in E. rewrite Hga in E.
    unfold Budget.pointwise. unfold Budget.shared, contains in E.
    destruct (get keq b1 alpha), (get keq b2 alpha); try reflexivity; discriminate.
Qed.

Lemma sub_spec (b1 b2 : @Budget.t Q) :
  exists c, Budget.sub b1 b2 = Return c /\ uniqq (keys c) /\
            forall alpha, get keq c alpha = Budget.pointwise Qminus b1 b2 alpha.
Proof. apply (binop_spec Qminus). Qed.

Lemma add_spec (b1 b2 : @Budget.t Q) :
  exists c, Budget.add b1 b2 = Return c /\ uniqq (keys c) /\
            forall alpha, get keq c alpha = Budget.pointwise Qplus b1 b2 alpha.
Proof. apply (binop_spec Qplus). Qed.
End BudgetFacts.

Section CanAllocate.
Local Open Scope Q_scope.
Local Abbreviation keq := Qeq_bool.

Lemma Qlt_bool_iff x y : Qlt_bool x y = true <-> x < y.
Proof.
  unfold Qlt_bool. rewrite negb_true_iff. split.
  - intros H. apply Qnot_le_lt. intros Hle. apply Qle_bool_iff in Hle. congruence.
  - intros H. destruct (Qle_bool y x) eqn:E; [|reflexivity].
    apply Qle_bool_iff in E. lra.
Qed.

Lemma Qlt_bool_false x y : Qlt_bool x y = false <-> y <= x.
Proof.
  unfold Qlt_bool. rewrite negb_false_iff. apply Qle_bool_iff.
Qed.

Lemma is_positive_all_alphas_loop_iff es :
  Budget.is_positive_all_alphas_loop es = true <-> Forall (fun e => 0 <= e) es.
Proof.
  induction es as [|e es IH]; simpl.
  - split; auto.
  - destruct (Qlt_bool e 0) eqn:E.
    + apply Qlt_bool_iff in E. split; [discriminate|]. intros H. inversion H; subst. lra.
    + apply Qlt_bool_false in E. rewrite IH. split.
      * intros H. constructor; assumption.
      * intros H. inversion H; assumption.
Qed.

Lemma max_loop_nonneg m xs :
  0 <= Budget.max_loop m xs <-> 0 <= m \/ exists x, In x xs /\ 0 <= x.
Proof.
  revert m. induction xs as [|x xs IH]; intros m; simpl.
  - split; [auto | intros [H | (x & [] & _)]; exact H].
  - rewrite IH. destruct (Qlt_bool m x) eqn:E.
    + apply Qlt_bool_iff in E. split.
      * intros [H | (y & Hy & H)]; right; eauto.
      * intros [H | (y & [<- | Hy] & H)]; [left; lra | left; exact H | right; eauto].
    + apply Qlt_bool_false in E. split.
      * intros [H | (y & Hy & H)]; eauto.
      * intros [H | (y & [<- | Hy] & H)]; [left; exact H | left; lra | right; eauto].
Qed.

Lemma py_max_nonneg xs :
  (exists m, Budget.py_max xs = Return m /\ 0 <= m) <-> exists x, In x xs /\ 0 <= x.
Proof.
  destruct xs as [|x xs]; simpl.
  - split; [intros (m & H & _); discriminate | intros (x & [] & _)].
  - split.
    + intros (m & [= <-] & H). apply max_loop_nonneg in H as [H | (y & Hy & H)]; eauto.
    + intros (y & Hy & H). eexists. split; [reflexivity|]. apply max_loop_nonneg.
      destruct Hy as [<- | Hy]; eauto.
Qed.
End CanAllocate.

Section CanAllocateThm.
Local Open Scope Q_scope.
Local Abbreviation keq := Qeq_bool.

Lemma epsilon_Return {V} (b : @Budget.t V) alpha e :
  Budget.epsilon b alpha = Return e <-> get keq b alpha = Some e.
Proof.
  unfold Budget.epsilon, item. destruct (get keq b alpha); split; congruence.
Qed.

(** C1, amended. [can_allocate(r, d)] returns [True] if and only if no
    epsilon of the demand [d] is negative and some order common to [r] and
    [d] has [r.ε(α) ≥ d.ε(α)]. The positivity test of the demand is "not
    negative": a demand that is zero at every order passes it. *)
Theorem can_allocate_iff (self demand_budget : @Budget.t Q) :
  Budget.can_allocate self demand_budget = Return true <->
  Forall (fun e => 0 <= e) (Budget.epsilons demand_budget) /\
  exists alpha er ed,
    Budget.epsilon self alpha = Return er /\
    Budget.epsilon demand_budget alpha = Return ed /\
    ed <= er.
Proof.
  unfold Budget.can_allocate, Budget.is_positive_all_alphas.
  destruct (sub_spec self demand_budget) as (diff & Hsub & Hu & Hget).
  rewrite Hsub. simpl.
  destruct (Budget.is_positive_all_alphas_loop (Budget.epsilons demand_budget)) eqn:Hpos; simpl.
  - apply is_positive_all_alphas_loop_iff in Hpos.
    assert ((exists m, Budget.py_max (Budget.epsilons diff) = Return m /\ 0 <= m) <->
            exists alpha er ed, Budget.epsilon self alpha = Return er /\
              Budget.epsilon demand_budget alpha = Return ed /\ ed <= er) as Hmax.
    { rewrite py_max_nonneg. split.
      - intros (x & Hx & H0). apply (values_get keq) in Hx as (alpha & Hx); [|exact Hu].
        rewrite Hget in Hx. unfold Budget.pointwise in Hx.
        destruct (get keq self alpha) as [er|] eqn:Er; [|discriminate].
        destruct (get keq demand_budget alpha) as [ed|] eqn:Ed; [|discriminate].
        injection Hx as <-. exists alpha, er, ed. rewrite !epsilon_Return.
        repeat split; auto. lra.
      - intros (alpha & er & ed & Hr & Hd & Hle). rewrite epsilon_Return in Hr, Hd.
        exists (er - ed). split; [|lra]. apply (values_get keq); [exact Hu|].
        exists alpha. rewrite Hget. unfold Budget.pointwise. rewrite Hr, Hd. reflexivity. }
    split.
    + intros H. split; [exact Hpos|]. apply Hmax.
      destruct (Budget.py_max (Budget.epsilons diff)) as [m|]; simpl in H; [|discriminate].
      exists m. split; [reflexivity|]. apply Qle_bool_iff.
      destruct (Qle_bool 0 m); [reflexivity | discriminate].
    + intros [_ H]. apply Hmax in H as (m & -> & H). simpl.
      apply Qle_bool_iff in H. rewrite H. reflexivity.
  - split; [discriminate|]. intros [H _]. apply is_positive_all_alphas_loop_iff in H. congruence.
Qed.

(** C1 as stated fails: a demand that is zero at every order (so not
    positive at every order) is allocated by a block with budget left. *)
Lemma can_allocate_zero_demand :
  let r := Budget.init [(2, 1)] in
  let d := Budget.init [(2, 0)] in
  Budget.can_allocate r d = Return true /\
  Forall (fun e => e == 0) (Budget.epsilons d) /\
  ~ Forall (fun e => 0 < e) (Budget.epsilons d).
Proof.
  split; [vm_compute; reflexivity|]. split.
  - vm_compute. constructor; [reflexivity | constructor].
  - vm_compute. intros H. inversion H as [|? ? H0 _]; subst. discriminate H0.
Qed.
End CanAllocateThm.

Section BudgetEq.
Local Open Scope Q_scope.
Local Abbreviation keq := Qeq_bool.

Lemma eq_loop_true (self other : @Budget.t Q) ks :
  Budget.eq_loop self other ks = Return true <->
  forall k, In k ks ->
    exists eo es, get keq other k = Some eo /\ get keq self k = Some es /\ eo == es.
Proof.
  induction ks as [|k ks IH]; simpl.
  - split; [intros _ k [] | reflexivity].
  - unfold Budget.epsilon, item.
    destruct (get keq other k) as [eo|] eqn:Eo; simpl.
    + destruct (get keq self k) as [es|] eqn:Es; simpl.
      * destruct (Qeq_bool eo es) eqn:E; simpl.
        -- rewrite IH. apply Qeq_bool_iff in E. split.
           ++ intros H k' [<- | Hk']; eauto.
           ++ intros H k' Hk'. apply H. right. exact Hk'.
        -- split; [discriminate|]. intros H.
           destruct (H k (or_introl Logic.eq_refl)) as (eo' & es' & H1 & H2 & H3).
           rewrite Eo in H1. rewrite Es in H2. injection H1 as <-. injection H2 as <-.
           apply Qeq_bool_iff in H3. congruence.
      * split; [discriminate|]. intros H.
        destruct (H k (or_introl Logic.eq_refl)) as (eo' & es' & _ & H2 & _). congruence.
    + split; [discriminate|]. intros H.
      destruct (H k (or_introl Logic.eq_refl)) as (eo' & es' & H1 & _). congruence.
Qed.

(** In general [a == b] holds when every order of [a] is an order of [b]
    with an equal epsilon; [b] may have more orders. *)
Lemma eq_true_iff (a b : @Budget.t Q) :
  Budget.eq a b = Return true <->
  forall alpha ea, Budget.epsilon a alpha = Return ea ->
    exists eb, Budget.epsilon b alpha = Return eb /\ eb == ea.
Proof.
  unfold Budget.eq. rewrite eq_loop_true. setoid_rewrite epsilon_Return. split.
  - intros H alpha ea Ha.
    destruct (get_In keq _ _ _ Ha) as (k & Hk & Hin).
    destruct (H k) as (eo & es & Ho & Hs & Heq).
    { unfold Budget.alphas, keys. change k with (fst (k, ea)). apply in_map. exact Hin. }
    rewrite (get_keq keq b _ _ Hk) in Ho. rewrite (get_keq keq a _ _ Hk) in Hs. rewrite Ha in Hs. injection Hs as <-. eauto.
  - intros H k Hk.
    assert (has_key keq (keys a) k = true) as Hh by (apply has_key_self; [apply _ | exact Hk]).
    apply has_key_get in Hh as [ea Ha]. destruct (H k ea Ha) as (eb & Hb & Heq). eauto.
Qed.

Lemma eq_loop_no_raise (self other : @Budget.t Q) ks :
  (forall k, In k ks -> contains keq other k = true /\ contains keq self k = true) ->
  exists v, Budget.eq_loop self other ks = Return v.
Proof.
  induction ks as [|k ks IH]; simpl; intros H; [eauto|].
  destruct (H k (or_introl Logic.eq_refl)) as [Ho Hs]. unfold contains in Ho, Hs.
  unfold Budget.epsilon, item.
  destruct (get keq other k); [|discriminate]. destruct (get keq self k); [|discriminate].
  simpl. destruct (Qeq_bool q q0); simpl; [|eauto]. apply IH. intros; apply H; right; assumption.
Qed.

Lemma same_alphas_check (a b : @Budget.t Q) :
  forallb (contains keq b) (keys a) = true ->
  forallb (contains keq a) (keys b) = true ->
  Budget.same_alphas a b.
Proof.
  assert (forall (a b : @Budget.t Q) alpha, forallb (contains keq b) (keys a) = true ->
            contains keq a alpha = true -> contains keq b alpha = true) as Hone.
  { intros a' b' alpha Hall Ha. rewrite get_has_key in Ha.
    apply has_key_In in Ha as (k & Hin & Hk). rewrite forallb_forall in Hall.
    rewrite <- (contains_keq _ _ _ Hk). apply Hall. exact Hin. }
  intros Hab Hba alpha.
  destruct (contains keq a alpha) eqn:Ea, (contains keq b alpha) eqn:Eb; try reflexivity.
  - rewrite (Hone a b alpha Hab Ea) in Eb. discriminate.
  - rewrite (Hone b a alpha Hba Eb) in Ea. discriminate.
Qed.

Lemma eq_no_raise (a b : @Budget.t Q) :
  Budget.same_alphas a b -> exists v, Budget.eq a b = Return v.
Proof.
  intros H. apply eq_loop_no_raise. intros k Hk.
  assert (contains keq a k = true) as Ha.
  { rewrite get_has_key. apply has_key_self; [apply _ | exact Hk]. }
  split; [rewrite <- H|]; exact Ha.
Qed.

(** C9, amended. For budgets [a] and [b] over the same orders, [a == b]
    holds if and only if they give equal epsilons to every order; on such
    budgets equality is symmetric and raises nothing. (Over different
    orders see [eq_true_iff]: only the orders of [a] are compared.) *)
Theorem eq_same_support (a b : @Budget.t Q) :
  Budget.same_alphas a b ->
  (Budget.eq a b = Return true <->
     forall alpha ea eb,
       Budget.epsilon a alpha = Return ea -> Budget.epsilon b alpha = Return eb -> ea == eb) /\
  Budget.eq a b = Budget.eq b a /\
  (exists v, Budget.eq a b = Return v).
Proof.
  intros Hs.
  assert (forall a b, Budget.same_alphas a b ->
            (Budget.eq a b = Return true <->
             forall alpha ea eb, Budget.epsilon a alpha = Return ea ->
               Budget.epsilon b alpha = Return eb -> ea == eb)) as Hiff.
  { clear a b Hs. intros a b Hs. rewrite eq_true_iff. split.
    - intros H alpha ea eb Ha Hb. destruct (H alpha ea Ha) as (eb' & Hb' & Heq).
      rewrite Hb in Hb'. injection Hb' as <-. symmetry. exact Heq.
    - intros H alpha ea Ha.
      assert (contains keq b alpha = true) as Hc.
      { rewrite <- Hs. unfold contains. apply epsilon_Return in Ha. rewrite Ha. reflexivity. }
      unfold contains in Hc. destruct (get keq b alpha) as [eb|] eqn:Eb; [|discriminate].
      exists eb. rewrite epsilon_Return. split; [exact Eb|].
      symmetry. apply (H alpha); [exact Ha | apply epsilon_Return; exact Eb]. }
  assert (Budget.same_alphas b a) as Hs' by (intros alpha; symmetry; apply Hs).
  split; [apply Hiff; exact Hs|]. split; [|apply eq_no_raise; exact Hs].
  destruct (eq_no_raise a b Hs) as [v Hv]. destruct (eq_no_raise b a Hs') as [w Hw].
  rewrite Hv, Hw. f_equal.
  pose proof (Hiff a b Hs) as H1. pose proof (Hiff b a Hs') as H2.
  rewrite Hv in H1. rewrite Hw in H2.
  destruct v, w; try reflexivity.
  - assert (Return true = Return false :> result bool) as Hx; [|discriminate Hx].
    symmetry. apply H2. intros alpha ea eb Hb Ha. symmetry.
    apply (proj1 H1 Logic.eq_refl alpha); assumption.
  - assert (Return true = Return false :> result bool) as Hx; [|discriminate Hx].
    symmetry. apply H1. intros alpha ea eb Ha Hb. symmetry.
    apply (proj1 H2 Logic.eq_refl alpha); assumption.
Qed.

(** Two budgets over the same orders, built from differently written rationals. *)
Lemma eq_same_support_witness :
  let a := Budget.init [(2, 1); (3, 1 # 2)] in
  let b := Budget.init [(3, 2 # 4); (2, 1)] in
  Budget.same_alphas a b /\
  (Budget.eq a b = Return true <->
     forall alpha ea eb,
       Budget.epsilon a alpha = Return ea -> Budget.epsilon b alpha = Return eb -> ea == eb) /\
  Budget.eq a b = Budget.eq b a /\
  (exists v, Budget.eq a b = Return v).
Proof.
  assert (Budget.same_alphas (Budget.init [(2, 1); (3, 1 # 2)]) (Budget.init [(3, 2 # 4); (2, 1)])) as H.
  { apply same_alphas_check; reflexivity. }
  split; [exact H|]. apply eq_same_support. exact H.
Defined.

(** C9 as stated fails: [a == b] holds although [b] has one more order than
    [a], and [b == a] raises [KeyError]. *)
Lemma eq_not_symmetric :
  let a := Budget.init [(2, 1)] in
  let b := Budget.init [(2, 1); (3, 1)] in
  Budget.eq a b = Return true /\
  Budget.eq b a = Raise KeyError /\
  contains keq b 3 = true /\ contains keq a 3 = false.
Proof. vm_compute. repeat split; reflexivity. Qed.
End BudgetEq.

Section FromEpsilonDelta.
Local Abbreviation keq := Qeq_bool.
Local Abbreviation hasq := (has_key Qeq_bool).
Context {V : Type}.

Lemma fold_set_get (g : Q -> V) ks acc alpha :
  (forall k k', keq k k' = true -> g k = g k') ->
  get keq (fold_left (fun orders a => set keq orders a (g a)) ks acc) alpha
  = if hasq ks alpha then Some (g alpha) else get keq acc alpha.
Proof.
  intros Hg. revert acc. induction ks as [|k ks IH]; intros acc; simpl; [reflexivity|].
  rewrite IH, (get_set keq). destruct (keq k alpha) eqn:E; simpl.
  - rewrite (Hg _ _ E). destruct (hasq ks alpha); reflexivity.
  - reflexivity.
Qed.

Lemma init_contains (orders : @dict Q V) alpha :
  contains keq (Budget.init orders) alpha = contains keq orders alpha.
Proof. unfold contains. rewrite init_get. reflexivity. Qed.
End FromEpsilonDelta.

Section FromEpsilonDeltaThm.
Local Abbreviation keq := Qeq_bool.
Local Abbreviation hasq := (has_key Qeq_bool).
Local Open Scope R_scope.

Lemma rdp_envelope_keq epsilon delta k k' :
  keq k k' = true -> Budget.rdp_envelope epsilon delta k = Budget.rdp_envelope epsilon delta k'.
Proof.
  intros H. apply Qeq_bool_iff in H. unfold Budget.rdp_envelope. rewrite (Qreals.Qeq_eqR _ _ H).
  reflexivity.
Qed.

(** C8. The budget built by [from_epsilon_delta(ε, δ)] gives every order [α]
    of the list the value [max(ε + ln(δ)/(α−1), 0)], and its orders are the
    orders of the list (an order is in the budget exactly when it is in the
    list). *)
Theorem from_epsilon_delta_spec (epsilon delta : R) (alpha_list : list Q) (alpha : Q) :
  In alpha alpha_list ->
  Budget.epsilon (Budget.from_epsilon_delta epsilon delta alpha_list) alpha
    = Return (Rmax (epsilon + ln delta / (Q2R alpha - 1)) 0) /\
  (forall a, contains keq (Budget.from_epsilon_delta epsilon delta alpha_list) a
             = hasq alpha_list a).
Proof.
  intros Hin. unfold Budget.from_epsilon_delta, Budget.epsilon, item, contains.
  split; [|intros a]; rewrite init_get;
    rewrite (fold_set_get (Budget.rdp_envelope epsilon delta)) by (apply rdp_envelope_keq).
  - rewrite (has_key_self keq alpha_list alpha Hin). reflexivity.
  - destruct (hasq alpha_list a); reflexivity.
Qed.

(** The orders 1.5 and 2 with ε = 10 and δ = 1/2. *)
Lemma from_epsilon_delta_witness :
  In 2%Q [3 # 2; 2]%Q /\
  Budget.epsilon (Budget.from_epsilon_delta 10 (1 / 2) [3 # 2; 2]%Q) 2%Q
    = Return (Rmax (10 + ln (1 / 2) / (Q2R 2 - 1)) 0) /\
  (forall a, contains keq (Budget.from_epsilon_delta 10 (1 / 2) [3 # 2; 2]%Q) a
             = hasq [3 # 2; 2]%Q a).
Proof.
  assert (In 2%Q [3 # 2; 2]%Q) as H by (simpl; right; left; reflexivity).
  split; [exact H|]. apply from_epsilon_delta_spec. exact H.
Defined.
End FromEpsilonDeltaThm.

Section Ascending.
Local Abbreviation keq := Qeq_bool.
Local Abbreviation hasq := (has_key Qeq_bool).
Local Abbreviation uniqq := (uniq Qeq_bool).
Context {V : Type}.

Lemma ascending_tail k ks : Budget.ascending (k :: ks) = true -> Budget.ascending ks = true.
Proof. simpl. destruct ks; [reflexivity|]. intros H. apply andb_prop in H. tauto. Qed.

Lemma ascending_all k ks x : Budget.ascending (k :: ks) = true -> In x ks -> (k < x)%Q.
Proof.
  revert k. induction ks as [|k' ks IH]; intros k H Hin; [destruct Hin|].
  simpl in H. apply andb_prop in H as [Hlt Hasc]. apply Qlt_bool_iff in Hlt.
  destruct Hin as [<- | Hin]; [exact Hlt|].
  pose proof (IH k' Hasc Hin). lra.
Qed.

Lemma ascending_has_key k ks : Budget.ascending (k :: ks) = true -> hasq ks k = false.
Proof.
  intros H. destruct (hasq ks k) eqn:E; [|reflexivity].
  apply has_key_In in E as (x & Hin & Hx). apply Qeq_bool_iff in Hx.
  pose proof (ascending_all _ _ _ H Hin). lra.
Qed.

Lemma ascending_uniq ks : Budget.ascending ks = true -> uniqq ks.
Proof.
  induction ks as [|k ks IH]; intros H; simpl; [exact I|].
  split; [apply ascending_has_key; exact H | apply IH; eapply ascending_tail; exact H].
Qed.

Lemma sorted_ascending ks : Budget.ascending ks = true -> sorted Qle_bool ks = ks.
Proof.
  induction ks as [|k ks IH]; intros H; [reflexivity|].
  simpl. rewrite IH by (eapply ascending_tail; exact H).
  destruct ks as [|k' ks]; [reflexivity|]. simpl.
  assert (k < k')%Q as Hlt by (apply (ascending_all k (k' :: ks)); [exact H | left; reflexivity]).
  assert (Qle_bool k k' = true) as -> by (apply Qle_bool_iff; lra). reflexivity.
Qed.

Lemma init_loop_keys (orders : @dict Q V) ks self :
  (forall k, In k ks -> hasq (keys orders) k = true) ->
  (forall k, In k ks -> hasq (keys self) k = false) ->
  uniqq ks ->
  keys (fold_left (fun self alpha =>
          match get keq orders alpha with
          | Some e => set keq self alpha e
          | None => self
          end) ks self) = keys self ++ ks.
Proof.
  revert self. induction ks as [|k ks IH]; intros self Ho Hs Hu; simpl.
  - rewrite app_nil_r. reflexivity.
  - destruct (proj1 (has_key_get keq _ _) (Ho k (or_introl Logic.eq_refl))) as [e He].
    rewrite He. destruct Hu as [Hk Hu]. rewrite IH.
    + rewrite keys_set, get_has_key, (Hs k (or_introl Logic.eq_refl)), <- app_assoc. reflexivity.
    + intros; apply Ho; right; assumption.
    + intros x Hx. rewrite keys_set, get_has_key, (Hs k (or_introl Logic.eq_refl)).
      rewrite has_key_app, (Hs x (or_intror Hx)). simpl. rewrite orb_false_r.
      destruct (keq k x) eqn:E; [|reflexivity].
      rewrite (has_key_keq keq _ _ _ E) in Hk.
      rewrite (has_key_self keq ks x Hx) in Hk. discriminate.
    + exact Hu.
Qed.

Lemma init_keys_ascending (orders : @dict Q V) :
  Budget.ascending (keys orders) = true -> keys (Budget.init orders) = keys orders.
Proof.
  intros H. unfold Budget.init. rewrite (sorted_ascending _ H), init_loop_keys.
  - reflexivity.
  - intros k Hk. apply has_key_self; [apply _ | exact Hk].
  - reflexivity.
  - apply ascending_uniq. exact H.
Qed.

Lemma fold_set_keys (g : Q -> V) ks acc :
  (forall k, In k ks -> hasq (keys acc) k = false) ->
  uniqq ks ->
  keys (fold_left (fun orders a => set keq orders a (g a)) ks acc) = keys acc ++ ks.
Proof.
  revert acc. induction ks as [|k ks IH]; intros acc Hs Hu; simpl.
  - rewrite app_nil_r. reflexivity.
  - destruct Hu as [Hk Hu]. rewrite IH.
    + rewrite keys_set, get_has_key, (Hs k (or_introl Logic.eq_refl)), <- app_assoc. reflexivity.
    + intros x Hx. rewrite keys_set, get_has_key, (Hs k (or_introl Logic.eq_refl)).
      rewrite has_key_app, (Hs x (or_intror Hx)). simpl. rewrite orb_false_r.
      destruct (keq k x) eqn:E; [|reflexivity].
      rewrite (has_key_keq keq _ _ _ E) in Hk.
      rewrite (has_key_self keq ks x Hx) in Hk. discriminate.
    + exact Hu.
Qed.
End Ascending.

(** With strictly increasing orders, as in the default [ALPHAS], the budget
    lists its orders exactly as given. *)
Lemma from_epsilon_delta_alphas (epsilon delta : R) (alpha_list : list Q) :
  Budget.ascending alpha_list = true ->
  Budget.alphas (Budget.from_epsilon_delta epsilon delta alpha_list) = alpha_list.
Proof.
  intros H. unfold Budget.alphas, Budget.from_epsilon_delta.
  assert (keys (fold_left (fun orders a => set Qeq_bool orders a (Budget.rdp_envelope epsilon delta a))
                  alpha_list []) = alpha_list) as Hk.
  { rewrite fold_set_keys; [reflexivity | reflexivity | apply ascending_uniq; exact H]. }
  unfold Budget.rdp_envelope in Hk. rewrite init_keys_ascending; rewrite Hk; [reflexivity | exact H].
Qed.

Example from_epsilon_delta_default_alphas (epsilon delta : R) :
  Budget.alphas (Budget.from_epsilon_delta epsilon delta Budget.ALPHAS) = Budget.ALPHAS.
Proof. apply from_epsilon_delta_alphas. reflexivity. Qed.

(** ** Rounding to binary64: the range of the exponent *)

Section Rounding64.
Local Open Scope Q_scope.

Lemma round_subnormal_comp x y : x == y -> round_subnormal x = round_subnormal y.
Proof.
  intros H. unfold round_subnormal. apply Qred_complete.
  assert (round_half_even (x * 2 ^ 1074) = round_half_even (y * 2 ^ 1074)) as ->; [|reflexivity].
  apply Z.le_antisymm; apply round_half_even_mono; rewrite H; apply Qle_refl.
Qed.

Lemma round64_comp x y : x == y -> round64 x = round64 y.
Proof.
  intros H. unfold round64. rewrite (b64_comp x y H), (round_subnormal_comp x y H).
  assert (Qlt_bool (Qabs x) min_normal = Qlt_bool (Qabs y) min_normal) as ->.
  { unfold Qlt_bool. rewrite H. reflexivity. }
  assert (Qlt_bool 0 x = Qlt_bool 0 y) as ->.
  { unfold Qlt_bool. rewrite H. reflexivity. }
  reflexivity.
Qed.

Lemma Qabs_lt_iff x m : Qabs x < m <-> - m < x /\ x < m.
Proof. apply Qabs_Qlt_condition. Qed.

Lemma Qabs_ge_iff x m : m <= Qabs x <-> x <= - m \/ m <= x.
Proof.
  split.
  - intros H. destruct (Qlt_le_dec x m) as [H1 | H1]; [|right; exact H1].
    destruct (Qlt_le_dec (- m) x) as [H2 | H2]; [|left; exact H2].
    exfalso. assert (Qabs x < m) by (apply Qabs_lt_iff; split; assumption). lra.
  - intros H. destruct (Qlt_le_dec (Qabs x) m) as [H1 | H1]; [|exact H1].
    apply Qabs_lt_iff in H1. lra.
Qed.

Lemma Qabs_gt_iff x m : m < Qabs x <-> x < - m \/ m < x.
Proof.
  split.
  - intros H. destruct (Qlt_le_dec m x) as [H1 | H1]; [right; exact H1|].
    destruct (Qlt_le_dec x (- m)) as [H2 | H2]; [left; exact H2|].
    exfalso. assert (Qabs x <= m) by (apply Qabs_Qle_condition; split; assumption). lra.
  - intros H. destruct (Qlt_le_dec m (Qabs x)) as [H1 | H1]; [exact H1|].
    apply Qabs_Qle_condition in H1. lra.
Qed.

Lemma b64_zero : b64 0 = 0.
Proof. vm_compute. reflexivity. Qed.

Lemma b64_min_normal : b64 min_normal == min_normal /\ b64 (- min_normal) == - min_normal.
Proof. split; vm_compute; reflexivity. Qed.

Lemma min_normal_scaled : min_normal * 2 ^ 1074 == inject_Z (2 ^ 52).
Proof. vm_compute. reflexivity. Qed.

Lemma min_normal_pos : 0 < min_normal.
Proof. vm_compute. reflexivity. Qed.

Lemma max_float_pos : 0 < max_float.
Proof. vm_compute. reflexivity. Qed.

Lemma round_subnormal_mono x y : x <= y -> round_subnormal x <= round_subnormal y.
Proof.
  intros H. unfold round_subnormal. apply Qred_le.
  apply Qmult_le_compat_r; [|vm_compute; discriminate].
  rewrite <- Zle_Qle. apply round_half_even_mono.
  apply Qmult_le_compat_r; [exact H | vm_compute; discriminate].
Qed.

Lemma round_subnormal_min_normal :
  round_subnormal min_normal == min_normal /\ round_subnormal (- min_normal) == - min_normal.
Proof. split; vm_compute; reflexivity. Qed.

(** rounding keeps the order *)
Lemma round64_mono x y : x <= y -> float_le (round64 x) (round64 y) = true.
Proof.
  intros Hxy. unfold round64.
  pose proof (b64_mono x y Hxy) as Hb.
  pose proof (round_subnormal_mono x y Hxy) as Hs.
  pose proof min_normal_pos as Hm. pose proof max_float_pos as HM.
  destruct b64_min_normal as [Hbm Hbm']. destruct round_subnormal_min_normal as [Hsm Hsm'].
  pose proof (b64_mono min_normal y) as Hmy. pose proof (b64_mono x (- min_normal)) as Hxm.
  pose proof (round_subnormal_mono x min_normal) as Hsx.
  pose proof (round_subnormal_mono (- min_normal) y) as Hsy.
  pose proof (b64_mono 0 x) as H0x. pose proof (b64_mono x 0) as Hx0.
  pose proof (b64_mono 0 y) as H0y. pose proof (b64_mono y 0) as Hy0.
  rewrite b64_zero in *. rewrite Hbm in Hmy. rewrite Hbm' in Hxm. rewrite Hsm in Hsx. rewrite Hsm' in Hsy.
  revert Hb Hs Hm HM Hmy Hxm Hsx Hsy H0x Hx0 H0y Hy0.
  generalize (b64 x) (b64 y) (round_subnormal x) (round_subnormal y) min_normal max_float.
  intros bx by_ sx sy m M Hb Hs Hm HM Hmy Hxm Hsx Hsy H0x Hx0 H0y Hy0.
  destruct (Qlt_bool (Qabs x) m) eqn:Ex; [apply Qlt_bool_iff, Qabs_lt_iff in Ex | apply Qlt_bool_false, Qabs_ge_iff in Ex];
  destruct (Qlt_bool (Qabs y) m) eqn:Ey; [apply Qlt_bool_iff, Qabs_lt_iff in Ey | apply Qlt_bool_false, Qabs_ge_iff in Ey | apply Qlt_bool_iff, Qabs_lt_iff in Ey | apply Qlt_bool_false, Qabs_ge_iff in Ey].
  - cbn [float_le]. apply Qle_bool_iff. exact Hs.
  - destruct (Qlt_bool M (Qabs by_)) eqn:Oy;
      [apply Qlt_bool_iff, Qabs_gt_iff in Oy | apply Qlt_bool_false, Qabs_Qle_condition in Oy].
    + destruct (Qlt_bool 0 y) eqn:Py; [reflexivity|]. apply Qlt_bool_false in Py. exfalso. lra.
    + cbn [float_le]. apply Qle_bool_iff. lra.
  - destruct (Qlt_bool M (Qabs bx)) eqn:Ox;
      [apply Qlt_bool_iff, Qabs_gt_iff in Ox | apply Qlt_bool_false, Qabs_Qle_condition in Ox].
    + destruct (Qlt_bool 0 x) eqn:Px; [apply Qlt_bool_iff in Px; exfalso; lra | reflexivity].
    + cbn [float_le]. apply Qle_bool_iff. lra.
  - destruct (Qlt_bool M (Qabs bx)) eqn:Ox;
      [apply Qlt_bool_iff, Qabs_gt_iff in Ox | apply Qlt_bool_false, Qabs_Qle_condition in Ox];
    (destruct (Qlt_bool M (Qabs by_)) eqn:Oy;
      [apply Qlt_bool_iff, Qabs_gt_iff in Oy | apply Qlt_bool_false, Qabs_Qle_condition in Oy]).
    + destruct (Qlt_bool 0 x) eqn:Px; [apply Qlt_bool_iff in Px | apply Qlt_bool_false in Px];
        (destruct (Qlt_bool 0 y) eqn:Py; [apply Qlt_bool_iff in Py | apply Qlt_bool_false in Py]);
        try reflexivity. exfalso. lra.
    + destruct (Qlt_bool 0 x) eqn:Px; [apply Qlt_bool_iff in Px; exfalso; lra | reflexivity].
    + destruct (Qlt_bool 0 y) eqn:Py; [reflexivity|]. apply Qlt_bool_false in Py. exfalso. lra.
    + cbn [float_le]. apply Qle_bool_iff. exact Hb.
Qed.

(** adding a larger float to [s] cannot bring the sum back under a capacity *)
Lemma fadd_le_capacity (s cap : float64) (x z : Q) :
  x <= z -> float_le (fadd s (Fin x)) cap = false -> float_le (fadd s (Fin z)) cap = false.
Proof.
  intros Hxz. unfold fadd. destruct s as [q| | |]; cbn [float_add rounded]; try (intros H; exact H).
  assert (q + x <= q + z) as Hle by lra.
  pose proof (round64_mono _ _ Hle) as Hmono. revert Hmono.
  generalize (round64 (q + x)) (round64 (q + z)). intros a b Hab Hac.
  destruct a as [a| | |], b as [b| | |], cap as [c| | |]; cbn [float_le] in *;
    try reflexivity; try discriminate.
  apply Qle_bool_iff in Hab. destruct (Qle_bool b c) eqn:E; [|reflexivity].
  apply Qle_bool_iff in E. assert (Qle_bool a c = true) by (apply Qle_bool_iff; lra). congruence.
Qed.
End Rounding64.

(** ** The local knapsack of ArgmaxKnapsack *)

Section KnapsackFacts.
Import Knapsack.
Local Open Scope Q_scope.

Lemma qsum_Permutation l l' : Permutation l l' -> qsum l == qsum l'.
Proof.
  induction 1; simpl; lra.
Qed.

Lemma Qle_bool_total x y : Qle_bool x y = false -> y <= x.
Proof.
  intros H. destruct (Qlt_le_dec x y) as [Hlt | Hle]; [|exact Hle].
  assert (Qle_bool x y = true) by (apply Qle_bool_iff; lra). congruence.
Qed.

Lemma Qle_bool_false x y : Qle_bool x y = false -> y < x.
Proof.
  intros H. destruct (Qlt_le_dec y x) as [Hlt | Hle]; [exact Hlt|].
  apply Qle_bool_iff in Hle. congruence.
Qed.

Lemma insert_sorted_Forall (P : Q -> Prop) x l :
  P x -> Forall P l -> Forall P (insert_sorted Qle_bool x l).
Proof.
  intros Hx Hl. induction Hl as [|y l Hy Hl IH]; simpl; [auto|].
  destruct (Qle_bool x y); auto.
Qed.

Lemma insert_sorted_StronglySorted x l :
  StronglySorted Qle l -> StronglySorted Qle (insert_sorted Qle_bool x l).
Proof.
  induction 1 as [|y l Hs IH Hy]; simpl.
  - constructor; [constructor | constructor].
  - destruct (Qle_bool x y) eqn:E.
    + apply Qle_bool_iff in E. constructor; [constructor; assumption|].
      constructor; [exact E|]. eapply Forall_impl; [exact Hy|]. simpl. intros z Hz. lra.
    + apply Qle_bool_total in E. constructor; [exact IH|].
      apply insert_sorted_Forall; assumption.
Qed.

Lemma sorted_StronglySorted l : StronglySorted Qle (sorted Qle_bool l).
Proof.
  induction l as [|x l IH]; simpl; [constructor|]. apply insert_sorted_StronglySorted, IH.
Qed.

(** once a demand does not fit, no later demand is added *)
Lemma knapsack_loop_stuck cap l s o :
  Forall (fun x => float_le (fadd s (Fin x)) cap = false) l -> knapsack_loop cap l s o = o.
Proof.
  induction 1 as [|x l Hx Hl IH]; cbn [knapsack_loop]; [reflexivity|].
  rewrite Hx. exact IH.
Qed.

Lemma knapsack_loop_stuck_sorted cap x l s o :
  Forall (Qle x) l -> float_le (fadd s (Fin x)) cap = false ->
  knapsack_loop cap (x :: l) s o = o.
Proof.
  intros Hx E. apply knapsack_loop_stuck. constructor; [exact E|].
  eapply Forall_impl; [exact Hx|]. cbv beta. intros z Hz.
  apply (fadd_le_capacity s cap x z Hz E).
Qed.

(** the loop takes a prefix of the sorted demands: every running sum of
    the prefix fits, and the running sum with the next demand does not *)
Lemma knapsack_loop_prefix cap l s o :
  StronglySorted Qle l ->
  exists k, (k <= length l)%nat /\
            knapsack_loop cap l s o = (o + k)%nat /\
            (forall j, (1 <= j <= k)%nat ->
               float_le (fold_left (fun sum demand => fadd sum (Fin demand)) (take j l) s) cap = true) /\
            ((k < length l)%nat ->
               float_le (fold_left (fun sum demand => fadd sum (Fin demand)) (take (S k) l) s) cap
               = false).
Proof.
  intros Hl. revert s o. induction Hl as [|x l Hs IH Hx]; intros s o.
  - exists 0%nat. cbn [length knapsack_loop]. repeat split; [lia | lia | intros j Hj; lia | lia].
  - destruct (float_le (fadd s (Fin x)) cap) eqn:E.
    + cbn [knapsack_loop]. rewrite E.
      destruct (IH (fadd s (Fin x)) (o + 1)%nat) as (k & Hk & Hrun & Hfit & Hnext).
      exists (S k). cbn [length]. repeat split; [lia | rewrite Hrun; lia | |].
      * intros [|[|j]] Hj; [lia | exact E |].
        change (take (S (S j)) (x :: l)) with (x :: take (S j) l). cbn [fold_left].
        apply Hfit. lia.
      * intros Hlt. change (take (S (S k)) (x :: l)) with (x :: take (S k) l). cbn [fold_left].
        apply Hnext. lia.
    + exists 0%nat. cbn [length]. repeat split; [lia | | intros j Hj; lia |].
      * rewrite Nat.add_0_r. apply knapsack_loop_stuck_sorted; assumption.
      * intros _. destruct l; exact E.
Qed.

Lemma knapsack_loop_le cap l : forall s o, (knapsack_loop cap l s o <= o + length l)%nat.
Proof.
  induction l as [|x l IH]; intros s o; cbn [knapsack_loop length]; [lia|].
  destruct (float_le (fadd s (Fin x)) cap).
  - specialize (IH (fadd s (Fin x)) (o + 1)%nat). lia.
  - specialize (IH s o). lia.
Qed.

Lemma knapsack_loop_ge cap l s o : (o <= knapsack_loop cap l s o)%nat.
Proof.
  revert s o. induction l as [|x l IH]; intros s o; cbn [knapsack_loop]; [lia|].
  destruct (float_le (fadd s (Fin x)) cap); [|apply IH]. etransitivity; [|apply IH]. lia.
Qed.

Lemma float_le_capacity_monotone (a : float64) (c c' : Q) :
  c <= c' -> float_le a (Fin c) = true -> float_le a (Fin c') = true.
Proof.
  intros Hle. destruct a as [q| | |]; cbn [float_le]; try (intros H; exact H).
  rewrite !Qle_bool_iff. lra.
Qed.

(** more capacity never stops the loop earlier *)
Lemma knapsack_loop_monotone c c' l s o :
  StronglySorted Qle l -> c <= c' ->
  (knapsack_loop (Fin c) l s o <= knapsack_loop (Fin c') l s o)%nat.
Proof.
  intros Hl Hle. revert s o. induction Hl as [|x l Hs IH Hx]; intros s o; [reflexivity|].
  destruct (float_le (fadd s (Fin x)) (Fin c)) eqn:E.
  - cbn [knapsack_loop]. rewrite E, (float_le_capacity_monotone _ c c' Hle E). apply IH.
  - rewrite (knapsack_loop_stuck_sorted (Fin c) x l s o Hx E). apply knapsack_loop_ge.
Qed.

Lemma qsum_ge_member l x :
  Forall (fun y => 0 <= y) l -> In x l -> x <= qsum l.
Proof.
  induction 1 as [|y l Hy Hl IH]; intros Hin; [destruct Hin|]. simpl.
  assert (0 <= qsum l) as Hnn.
  { clear -Hl. induction Hl; simpl; lra. }
  destruct Hin as [<- | Hin]; [lra|]. specialize (IH Hin). lra.
Qed.

(** exchanging any member of a choice for the smallest demand *)
Lemma choice_exchange x l (chosen : list Q) :
  Forall (Qle x) l -> chosen ⊆+ x :: l -> chosen <> [] ->
  exists chosen', chosen' ⊆+ l /\ S (length chosen') = length chosen /\
                  x + qsum chosen' <= qsum chosen.
Proof.
  intros Hx Hsub Hne. apply submseteq_cons_r in Hsub as [Hsub | (l' & Hp & Hsub)].
  - destruct chosen as [|y chosen]; [congruence|].
    exists chosen. split; [|split; [reflexivity|]].
    + etransitivity; [|exact Hsub]. apply submseteq_cons. reflexivity.
    + simpl. assert (x <= y); [|lra].
      rewrite Forall_forall in Hx. apply Hx.
      eapply elem_of_submseteq; [|exact Hsub]. left.
  - exists l'. split; [exact Hsub|]. split.
    + rewrite (Permutation_length Hp). reflexivity.
    + rewrite (qsum_Permutation _ _ Hp). simpl. lra.
Qed.

(** where the running sums from [sum] are exact, no choice that fits has
    more demands than the loop counts; [s] is the value of [sum] *)
Lemma knapsack_loop_optimal c l (sum : float64) (s : Q) o (chosen : list Q) :
  StronglySorted Qle l -> s <= c ->
  (forall j, (j <= length l)%nat ->
     float_eq (fold_left (fun sum demand => fadd sum (Fin demand)) (take j l) sum)
       (Fin (s + qsum (take j l)))) ->
  chosen ⊆+ l -> s + qsum chosen <= c ->
  (o + length chosen <= knapsack_loop (Fin c) l sum o)%nat.
Proof.
  intros Hl. revert sum s o chosen.
  induction Hl as [|x l Hs IH Hx]; intros sum s o chosen Hsc Hex Hsub Hfit.
  - apply submseteq_nil_r in Hsub. subst. simpl. lia.
  - destruct chosen as [|y chosen0] eqn:Hch.
    { pose proof (knapsack_loop_ge (Fin c) (x :: l) sum o). simpl length. lia. }
    rewrite <- Hch in *. assert (chosen <> []) as Hne by (rewrite Hch; discriminate).
    destruct (choice_exchange x l chosen Hx Hsub Hne) as (chosen' & Hsub' & Hlen & Hsum).
    pose proof (Hex 1%nat) as Hsx. cbn [length] in Hsx.
    change (take 1 (x :: l)) with (x :: take 0 l) in Hsx. rewrite take_0 in Hsx.
    cbn [fold_left qsum foldr] in Hsx. specialize (Hsx ltac:(lia)).
    destruct (fadd sum (Fin x)) as [q| | |] eqn:Eq; cbn [float_eq] in Hsx; try contradiction.
    cbn [knapsack_loop]. rewrite Eq. cbn [float_le]. destruct (Qle_bool q c) eqn:E.
    + apply Qle_bool_iff in E.
      assert (o + 1 + length chosen' <= knapsack_loop (Fin c) l (Fin q) (o + 1))%nat.
      { apply (IH (Fin q) (s + x)); [lra | | exact Hsub' | lra].
        intros j Hj. specialize (Hex (S j)). cbn [length] in Hex.
        change (take (S j) (x :: l)) with (x :: take j l) in Hex.
        cbn [fold_left qsum foldr] in Hex. rewrite Eq in Hex. specialize (Hex ltac:(lia)).
        fold (qsum (take j l)) in Hex.
        destruct (fold_left _ (take j l) (Fin q)); cbn [float_eq] in *; try contradiction. lra. }
      lia.
    + exfalso. apply Qle_bool_false in E.
      assert (0 <= qsum chosen').
      { assert (Forall (fun y => 0 <= y) chosen') as Hnn.
        { rewrite Forall_forall. intros z Hz. rewrite Forall_forall in Hx.
          assert (x <= z); [|lra]. apply Hx.
          eapply elem_of_submseteq; [|exact Hsub']. exact Hz. }
        clear -Hnn. induction Hnn; simpl; lra. }
      lra.
Qed.
End KnapsackFacts.

Section KnapsackThm.
Import Knapsack.
Local Open Scope Q_scope.

Lemma sublist_values_inv (d : @dict nat Q) (vs : list Q) :
  vs `sublist_of` values d -> exists d', d' `sublist_of` d /\ values d' = vs.
Proof.
  revert vs. induction d as [|[k v] d IH]; intros vs Hs; simpl in Hs.
  - apply sublist_nil_r in Hs. subst. exists []. split; [constructor | reflexivity].
  - apply sublist_cons_r in Hs as [Hs | (vs' & -> & Hs)].
    + destruct (IH vs Hs) as (d' & Hd' & Hv). exists d'. split; [|exact Hv].
      apply sublist_cons. exact Hd'.
    + destruct (IH vs' Hs) as (d' & Hd' & Hv). exists ((k, v) :: d'). split.
      * apply sublist_skip. exact Hd'.
      * simpl. rewrite Hv. reflexivity.
Qed.

Lemma solve_with_capacity (capacity : float64) (task_demands : @dict nat Q) :
  float_le capacity (Fin 0) = false ->
  solve_local_knapsack_no_profits capacity task_demands
  = knapsack_loop capacity (sorted Qle_bool (values task_demands)) (Fin 0) 0.
Proof.
  intros Hc. unfold solve_local_knapsack_no_profits. rewrite Hc. reflexivity.
Qed.

Lemma positive_capacity (c : Q) : 0 < c -> float_le (Fin c) (Fin 0) = false.
Proof.
  intros Hc. cbn [float_le]. destruct (Qle_bool c 0) eqn:E; [|reflexivity].
  apply Qle_bool_iff in E. lra.
Qed.

(** with some capacity the solve counts a prefix of the sorted demands *)
Lemma solve_prefix (capacity : float64) (task_demands : @dict nat Q) :
  float_le capacity (Fin 0) = false ->
  let demands := sorted Qle_bool (values task_demands) in
  let opt := solve_local_knapsack_no_profits capacity task_demands in
  (opt <= length demands)%nat /\
  (forall j, (1 <= j <= opt)%nat -> float_le (float_sum (take j demands)) capacity = true) /\
  ((opt < length demands)%nat -> float_le (float_sum (take (S opt) demands)) capacity = false).
Proof.
  intros Hc demands opt. unfold opt. rewrite (solve_with_capacity capacity task_demands Hc).
  fold demands.
  destruct (knapsack_loop_prefix capacity demands (Fin 0) 0%nat (sorted_StronglySorted _))
    as (k & Hk & Hrun & Hfit & Hnext).
  rewrite Hrun. cbn [Nat.add]. split; [exact Hk|]. split; [exact Hfit | exact Hnext].
Qed.

(** where no addition rounds, the solve counts the optimum of the knapsack *)
Lemma solve_exact_optimum (c : Q) (task_demands : @dict nat Q) :
  0 < c -> exact_sums (sorted Qle_bool (values task_demands)) ->
  is_knapsack_optimum c task_demands (solve_local_knapsack_no_profits (Fin c) task_demands).
Proof.
  intros Hc Hex. pose proof (positive_capacity c Hc) as Hcap.
  destruct (solve_prefix (Fin c) task_demands Hcap) as (Hk & Hfit & _).
  rewrite (solve_with_capacity (Fin c) task_demands Hcap) in *.
  set (demands := sorted Qle_bool (values task_demands)) in *.
  set (k := knapsack_loop (Fin c) demands (Fin 0) 0) in *.
  assert (StronglySorted Qle demands) as Hsorted by apply sorted_StronglySorted.
  assert (Permutation demands (values task_demands)) as Hperm by apply sorted_Permutation.
  split.
  - assert (take k demands ⊆+ values task_demands) as Hsub.
    { rewrite <- Hperm. apply sublist_submseteq, sublist_take. }
    apply submseteq_sublist_r in Hsub as (vs & Hvs & Hsl).
    destruct (sublist_values_inv _ _ Hsl) as (chosen & Hchosen & Hval).
    exists chosen. split; [exact Hchosen|]. split.
    + unfold total_demand. rewrite Hval. fold (qsum vs).
      rewrite <- (qsum_Permutation _ _ Hvs).
      destruct k as [|k'] eqn:Ek; [rewrite take_0; simpl; lra|].
      specialize (Hfit (S k') ltac:(lia)). specialize (Hex (S k') Hk).
      destruct (float_sum (take (S k') demands)); cbn [float_eq float_le] in *; try contradiction.
      apply Qle_bool_iff in Hfit. lra.
    + transitivity (length (values chosen)); [unfold values; rewrite length_map; reflexivity|].
      rewrite Hval, <- (Permutation_length Hvs), length_take. lia.
  - intros chosen Hchosen Hfit'.
    assert (values chosen ⊆+ demands) as Hsub.
    { rewrite Hperm. apply sublist_submseteq. unfold values. apply fmap_sublist. exact Hchosen. }
    pose proof (knapsack_loop_optimal c demands (Fin 0) 0 0%nat (values chosen) Hsorted) as Hopt.
    assert (length (values chosen) = length chosen) as Hlen by (unfold values; apply length_map).
    rewrite Hlen in Hopt. simpl in Hopt.
    apply Hopt; [lra | | exact Hsub |].
    + intros j Hj. specialize (Hex j Hj). unfold float_sum in Hex.
      destruct (fold_left _ (take j demands) (Fin 0)); cbn [float_eq] in *; try contradiction. lra.
    + unfold total_demand in Hfit'. fold (qsum (values chosen)) in Hfit'. lra.
Qed.

Lemma solve_no_capacity (capacity : float64) (task_demands : @dict nat Q) :
  float_le capacity (Fin 0) = true ->
  solve_local_knapsack_no_profits capacity task_demands = 0%nat.
Proof. intros H. unfold solve_local_knapsack_no_profits. rewrite H. reflexivity. Qed.

(** the capacity handed to the solver where no budget is unlocked *)
Lemma solve_without_budget (eps : Q) (task_demands : @dict nat Q) :
  eps <= 0 -> solve_local_knapsack_no_profits (local_capacity eps) task_demands = 0%nat.
Proof.
  intros H. apply solve_no_capacity. unfold local_capacity.
  destruct (Qlt_bool 0 eps) eqn:E; [|reflexivity]. apply Qlt_bool_iff in E. lra.
Qed.

(** C2. For every capacity [capacity <= 0] (minus infinity included) the
    local knapsack solve returns 0. For every other capacity it returns
    the length [opt] of a prefix of the demands sorted in ascending order:
    adding the demands one after the other in floating point, every
    running sum of the first [opt] demands is at most the capacity, and
    the running sum with the next demand, when there is one, is not. For a
    finite capacity [c > 0] and demands whose running sums are all computed
    without rounding, [opt] is the optimum of the 0/1 knapsack with unit
    values: some choice of [opt] tasks has demands that sum to at most [c],
    and no choice that fits has more. *)
Theorem solve_local_knapsack_no_profits_greedy (capacity : float64) (task_demands : @dict nat Q) :
  let demands := sorted Qle_bool (values task_demands) in
  let opt := solve_local_knapsack_no_profits capacity task_demands in
  (float_le capacity (Fin 0) = true -> opt = 0%nat) /\
  (float_le capacity (Fin 0) = false ->
     (opt <= length demands)%nat /\
     (forall j, (1 <= j <= opt)%nat -> float_le (float_sum (take j demands)) capacity = true) /\
     ((opt < length demands)%nat ->
        float_le (float_sum (take (S opt) demands)) capacity = false)) /\
  (forall c, capacity = Fin c -> 0 < c ->
     exact_sums demands -> is_knapsack_optimum c task_demands opt).
Proof.
  intros demands opt. split; [apply solve_no_capacity|]. split.
  - intros Hc. apply (solve_prefix capacity task_demands Hc).
  - intros c -> Hc Hex. apply (solve_exact_optimum c task_demands Hc Hex).
Qed.

Lemma solve_local_knapsack_no_profits_greedy_witness :
  is_knapsack_optimum 1 [(0, 3 # 4); (1, 1 # 2); (2, 1 # 4)]%nat
    (solve_local_knapsack_no_profits (Fin 1) [(0, 3 # 4); (1, 1 # 2); (2, 1 # 4)]%nat).
Proof.
  apply (solve_local_knapsack_no_profits_greedy (Fin 1) [(0, 3 # 4); (1, 1 # 2); (2, 1 # 4)]%nat);
    [reflexivity | reflexivity |].
  intros [|[|[|[|j]]]] Hj; [vm_compute; reflexivity .. |].
  simpl in Hj. lia.
Defined.

(** The claim as worded is not met: the demands [2^-60] and [1] are
    floats, their sum rounds to [1], so with capacity [1] the solve counts
    both tasks although together they ask for more than [1]. *)
Lemma solve_local_knapsack_not_optimum :
  let task_demands := [(0%nat, 1 # 2 ^ 60); (1%nat, 1)] in
  round64 (1 # 2 ^ 60) = Fin (1 # 2 ^ 60) /\ round64 1 = Fin 1 /\
  solve_local_knapsack_no_profits (local_capacity 1) task_demands = 2%nat /\
  ~ is_knapsack_optimum 1 task_demands 2.
Proof.
  cbv zeta. split; [vm_compute; reflexivity|]. split; [vm_compute; reflexivity|].
  split; [vm_compute; reflexivity|].
  intros [(chosen & Hsub & Hfit & Hlen) _].
  assert (chosen = [(0%nat, 1 # 2 ^ 60); (1%nat, 1)]) as ->.
  { apply sublist_length in Hsub as Hle.
    destruct chosen as [|a [|b [|? ?]]]; try discriminate Hlen.
    apply sublist_cons_r in Hsub as [Hsub | (l' & E & Hsub)].
    - apply sublist_length in Hsub. simpl in Hsub. lia.
    - injection E as -> <-.
      apply sublist_cons_r in Hsub as [Hsub | (l'' & E' & Hsub)].
      + apply sublist_length in Hsub. simpl in Hsub. lia.
      + injection E' as -> <-. apply sublist_nil_r in Hsub. subst. reflexivity. }
  vm_compute in Hfit. apply Hfit. reflexivity.
Qed.

Example solve_local_knapsack_ex :
  solve_local_knapsack_no_profits (Fin 1) [(0, 3 # 4); (1, 1 # 2); (2, 1 # 4); (3, 1 # 3)]%nat = 2%nat.
Proof. vm_compute. reflexivity. Qed.
End KnapsackThm.

(** ** OverflowRelevance *)

Section OverflowLemmas.
Import OverflowRelevance OverflowFacts.
Local Open Scope Q_scope.

Lemma qsum_app l1 l2 : qsum (l1 ++ l2) == qsum l1 + qsum l2.
Proof. induction l1 as [|x l1 IH]; simpl; [lra | rewrite IH; lra]. Qed.

Lemma total_app start ev1 ev2 b alpha :
  total start (ev1 ++ ev2) b alpha = total (total start ev1 b alpha) ev2 b alpha.
Proof. apply fold_left_app. Qed.

Lemma total_snoc start events ev b alpha :
  total start (events ++ [ev]) b alpha
  = if hits b alpha ev then fadd (total start events b alpha) (Fin (snd ev))
    else total start events b alpha.
Proof. rewrite total_app. reflexivity. Qed.

Lemma touched_app ev1 ev2 b alpha :
  touched (ev1 ++ ev2) b alpha = touched ev1 b alpha || touched ev2 b alpha.
Proof. apply existsb_app. Qed.

Lemma touched_snoc events ev b alpha :
  touched (events ++ [ev]) b alpha = touched events b alpha || hits b alpha ev.
Proof. rewrite touched_app. unfold touched at 2. cbn [existsb]. rewrite orb_false_r. reflexivity. Qed.

Lemma touched_false_total events b alpha : forall start,
  touched events b alpha = false -> total start events b alpha = start.
Proof.
  unfold touched, total. induction events as [|ev events IH]; intros start; cbn [existsb fold_left];
    [reflexivity|].
  intros H. apply orb_false_elim in H as [H1 H2]. rewrite H1. apply IH, H2.
Qed.

Lemma hits_keq b a a' ev : Qeq_bool a a' = true -> hits b a ev = hits b a' ev.
Proof.
  intros H. destruct ev as [[b0 a0] d]. simpl. rewrite (keq_congr Qeq_bool _ _ a0 H). reflexivity.
Qed.

Lemma total_keq events b a a' : forall start,
  Qeq_bool a a' = true -> total start events b a' = total start events b a.
Proof.
  unfold total. induction events as [|ev events IH]; intros start H; cbn [fold_left]; [reflexivity|].
  rewrite (hits_keq b a a' ev H). apply IH, H.
Qed.

Lemma nat_eqb_true b b' : Nat.eqb b b' = true -> b = b'.
Proof. apply Nat.eqb_eq. Qed.

(** one turn of the inner loop adds one event *)
Lemma alpha_body_spec blocks b bd ov events a d block row :
  represents blocks ov events ->
  get Nat.eqb ov b = Some row ->
  get Nat.eqb blocks b = Some block ->
  contains Qeq_bool (initial_budget block) a = true ->
  get Qeq_bool bd a = Some d ->
  exists ov' row',
    alpha_body blocks b bd ov a = Return ov' /\
    get Nat.eqb ov' b = Some row' /\
    (forall b', contains Nat.eqb ov b' = true -> contains Nat.eqb ov' b' = true) /\
    represents blocks ov' (events ++ [(b, a, d)]).
Proof.
  intros Hrep Hrow Hblock Hinit Hd.
  unfold alpha_body, item, Budget.epsilon, item. rewrite Hrow. simpl.
  unfold contains in Hinit.
  destruct (get Qeq_bool (initial_budget block) a) as [e0|] eqn:He0; [|discriminate].
  pose proof (Hrep b a) as Hba. unfold ov_val in Hba. rewrite Hrow in Hba.
  assert (initial_epsilon blocks b a = e0) as Hie.
  { unfold initial_epsilon. rewrite Hblock, He0. reflexivity. }
  (* the row after the possible initialisation, and the value read from it *)
  assert (exists row1 cur,
            (if negb (contains Qeq_bool row a)
             then block ← (match get Nat.eqb blocks b with Some v => Return v | None => Raise KeyError end);
                  e ← (match get Qeq_bool (initial_budget block) a with Some v => Return v | None => Raise KeyError end);
                  Return (set Qeq_bool row a (Fin (- e)))
             else Return row) = Return row1 /\
            get Qeq_bool row1 a = Some cur /\
            cur = total (Fin (- e0)) events b a /\
            (forall a', Qeq_bool a a' = false -> get Qeq_bool row1 a' = get Qeq_bool row a')) as Hrow1.
  { unfold contains. destruct (get Qeq_bool row a) as [v|] eqn:Hv; simpl.
    - exists row, v. rewrite Hie in Hba. destruct Hba as [_ Hba]. repeat split; auto.
    - rewrite Hblock. simpl. rewrite He0. simpl.
      exists (set Qeq_bool row a (Fin (- e0))), (Fin (- e0)). split; [reflexivity|]. split.
      + apply (get_set_eq Qeq_bool). apply Qeq_bool_refl.
      + split.
        * rewrite (touched_false_total _ _ _ _ Hba). reflexivity.
        * intros a' Ha'. apply (get_set_ne Qeq_bool). exact Ha'. }
  destruct Hrow1 as (row1 & cur & -> & Hcur & Hcurv & Hother). simpl.
  rewrite Hcur. simpl. rewrite Hd. simpl.
  exists (set Nat.eqb ov b (set Qeq_bool row1 a (fadd cur (Fin d)))),
    (set Qeq_bool row1 a (fadd cur (Fin d))).
  split; [reflexivity|]. split; [apply (get_set_eq Nat.eqb); apply Nat.eqb_refl|]. split.
  { intros b' Hb'. unfold contains in *. rewrite (get_set Nat.eqb).
    destruct (Nat.eqb b b'); [reflexivity | exact Hb']. }
  intros b' a'. unfold ov_val. rewrite (get_set Nat.eqb).
  rewrite touched_snoc, total_snoc. cbn [hits snd].
  destruct (Nat.eqb b b') eqn:Eb; cbn [andb].
  - apply nat_eqb_true in Eb. subst b'. rewrite (get_set Qeq_bool).
    destruct (Qeq_bool a a') eqn:Ea.
    + rewrite orb_true_r. split; [reflexivity|].
      assert (initial_epsilon blocks b a' = e0) as ->.
      { rewrite <- Hie. unfold initial_epsilon. rewrite Hblock.
        rewrite (get_keq Qeq_bool _ _ _ Ea). reflexivity. }
      rewrite (total_keq _ _ _ _ _ Ea), Hcurv. reflexivity.
    + rewrite orb_false_r. rewrite (Hother a' Ea).
      pose proof (Hrep b a') as H. unfold ov_val in H. rewrite Hrow in H. exact H.
  - rewrite orb_false_r. exact (Hrep b' a').
Qed.

Lemma alpha_loop_spec blocks b bd block rest : forall ov events row,
  represents blocks ov events ->
  get Nat.eqb ov b = Some row ->
  get Nat.eqb blocks b = Some block ->
  (forall a d, In (a, d) rest ->
     get Qeq_bool bd a = Some d /\ contains Qeq_bool (initial_budget block) a = true) ->
  exists ov' row',
    for_each (alpha_body blocks b bd) (map fst rest) ov = Return ov' /\
    get Nat.eqb ov' b = Some row' /\
    (forall b', contains Nat.eqb ov b' = true -> contains Nat.eqb ov' b' = true) /\
    represents blocks ov' (events ++ map (fun '(a, d) => (b, a, d)) rest).
Proof.
  induction rest as [|[a d] rest IH]; intros ov events row Hrep Hrow Hblock Hrest; simpl.
  - exists ov, row. rewrite app_nil_r. auto.
  - destruct (Hrest a d (or_introl Logic.eq_refl)) as [Hd Hinit].
    destruct (alpha_body_spec blocks b bd ov events a d block row Hrep Hrow Hblock Hinit Hd)
      as (ov1 & row1 & Hrun1 & Hrow1 & Hkeep1 & Hrep1).
    rewrite Hrun1. simpl.
    destruct (IH ov1 (events ++ [(b, a, d)]) row1 Hrep1 Hrow1 Hblock) as (ov2 & row2 & Hrun2 & Hrow2 & Hkeep2 & Hrep2).
    { intros a' d' Hin. apply Hrest. right. exact Hin. }
    exists ov2, row2. rewrite Hrun2. split; [reflexivity|]. split; [exact Hrow2|]. split.
    + intros b' Hb'. apply Hkeep2, Hkeep1, Hb'.
    + rewrite <- app_assoc in Hrep2. exact Hrep2.
Qed.

Lemma block_body_spec blocks ov events entry :
  represents blocks ov events ->
  demand_ok blocks entry ->
  exists ov',
    block_body blocks ov entry = Return ov' /\
    (forall b', contains Nat.eqb ov b' = true -> contains Nat.eqb ov' b' = true) /\
    represents blocks ov' (events ++ block_events entry).
Proof.
  intros Hrep [Huniq (block & Hblock & Hinit)]. destruct entry as [b bd]. simpl in *.
  unfold block_body.
  set (ov0 := if negb (contains Nat.eqb ov b) then set Nat.eqb ov b [] else ov).
  assert (represents blocks ov0 events /\
          (exists row, get Nat.eqb ov0 b = Some row) /\
          (forall b', contains Nat.eqb ov b' = true -> contains Nat.eqb ov0 b' = true))
    as (Hrep0 & [row Hrow] & Hkeep0).
  { unfold ov0, contains. destruct (get Nat.eqb ov b) as [row|] eqn:Hrow; simpl.
    - split; [exact Hrep|]. split; [eauto | auto].
    - split; [|split].
      + intros b' a'. pose proof (Hrep b' a') as H. unfold ov_val in *.
        rewrite (get_set Nat.eqb). destruct (Nat.eqb b b') eqn:Eb; [|exact H].
        apply nat_eqb_true in Eb. subst b'. rewrite Hrow in H. simpl. exact H.
      + exists []. apply (get_set_eq Nat.eqb). apply Nat.eqb_refl.
      + intros b' Hb'. rewrite (get_set Nat.eqb). destruct (Nat.eqb b b'); [reflexivity | exact Hb']. }
  destruct (alpha_loop_spec blocks b bd block bd ov0 events row Hrep0 Hrow Hblock)
    as (ov' & row' & Hrun & _ & Hkeep & Hrep').
  { intros a d Hin. split.
    - apply (uniq_In_get Qeq_bool); [exact Huniq | exact Hin].
    - apply Hinit. unfold Budget.alphas, keys. change a with (fst (a, d)). apply in_map. exact Hin. }
  exists ov'. split; [exact Hrun|]. split; [|exact Hrep'].
  intros b' Hb'. apply Hkeep, Hkeep0, Hb'.
Qed.

Lemma task_loop_spec blocks entries : forall ov events,
  represents blocks ov events ->
  Forall (demand_ok blocks) entries ->
  exists ov',
    for_each (block_body blocks) entries ov = Return ov' /\
    represents blocks ov' (events ++ flat_map block_events entries).
Proof.
  induction entries as [|entry entries IH]; intros ov events Hrep Hok; simpl.
  - exists ov. rewrite app_nil_r. auto.
  - inversion Hok as [|? ? Hentry Hrest]; subst.
    destruct (block_body_spec blocks ov events entry Hrep Hentry) as (ov1 & Hrun1 & _ & Hrep1).
    rewrite Hrun1. simpl.
    destruct (IH ov1 _ Hrep1 Hrest) as (ov2 & Hrun2 & Hrep2).
    exists ov2. split; [exact Hrun2|]. rewrite <- app_assoc in Hrep2. exact Hrep2.
Qed.

Lemma compute_overflow_loop blocks tasks : forall ov events,
  represents blocks ov events ->
  Forall (task_ok blocks) tasks ->
  exists ov',
    for_each (fun overflow_b_a t => for_each (block_body blocks) (budget_per_block t) overflow_b_a)
      tasks ov = Return ov' /\
    represents blocks ov' (events ++ flat_map task_events tasks).
Proof.
  induction tasks as [|t tasks IH]; intros ov events Hrep Hok; simpl.
  - exists ov. rewrite app_nil_r. auto.
  - inversion Hok as [|? ? [_ Ht] Hrest]; subst.
    destruct (task_loop_spec blocks (budget_per_block t) ov events Hrep Ht) as (ov1 & Hrun1 & Hrep1).
    rewrite Hrun1. simpl.
    destruct (IH ov1 _ Hrep1 Hrest) as (ov2 & Hrun2 & Hrep2).
    exists ov2. split; [exact Hrun2|]. unfold task_events at 2. rewrite <- app_assoc in Hrep2. exact Hrep2.
Qed.

Lemma compute_overflow_spec blocks tasks :
  Forall (task_ok blocks) tasks ->
  exists ov, compute_overflow blocks tasks = Return ov /\
             represents blocks ov (flat_map task_events tasks).
Proof.
  intros Hok. apply (compute_overflow_loop blocks tasks [] [] ); [|exact Hok].
  intros b a. reflexivity.
Qed.
End OverflowLemmas.

Section OverflowSpec.
Import OverflowRelevance OverflowFacts.
Local Open Scope Q_scope.

Lemma total_block_events b0 bd b alpha : forall start,
  uniq Qeq_bool (keys bd) ->
  total start (block_events (b0, bd)) b alpha
  = if Nat.eqb b0 b
    then match get Qeq_bool bd alpha with Some e => fadd start (Fin e) | None => start end
    else start.
Proof.
  unfold total, block_events. simpl fst. simpl snd.
  induction bd as [|[a d] bd IH]; intros start Hu; simpl.
  - destruct (Nat.eqb b0 b); reflexivity.
  - destruct Hu as [Ha Hu]. rewrite (IH _ Hu). destruct (Nat.eqb b0 b); simpl; [|reflexivity].
    destruct (Qeq_bool a alpha) eqn:E; [|reflexivity].
    rewrite (has_key_keq Qeq_bool _ _ _ E) in Ha.
    rewrite <- get_has_key in Ha. unfold contains in Ha. simpl in Ha.
    destruct (get Qeq_bool bd alpha) eqn:G; [discriminate Ha | reflexivity].
Qed.

Lemma total_entries blocks (entries : @dict nat (@Budget.t Q)) b alpha : forall start,
  uniq Nat.eqb (keys entries) -> Forall (demand_ok blocks) entries ->
  total start (flat_map block_events entries) b alpha
  = match get Nat.eqb entries b with
    | Some bd => match get Qeq_bool bd alpha with Some e => fadd start (Fin e) | None => start end
    | None => start
    end.
Proof.
  induction entries as [|[b0 bd] entries IH]; intros start Hu Hok; simpl.
  - reflexivity.
  - apply Forall_cons in Hok as [[Hbd _] Hrest]. destruct Hu as [Hb0 Hu]. simpl in Hbd.
    rewrite total_app, (IH _ Hu Hrest), (total_block_events _ _ _ _ _ Hbd).
    destruct (Nat.eqb b0 b) eqn:E; [|reflexivity].
    apply nat_eqb_true in E. subst b0.
    rewrite <- get_has_key in Hb0. unfold contains in Hb0. simpl in Hb0.
    destruct (get Nat.eqb entries b) eqn:G; [discriminate Hb0 | reflexivity].
Qed.

Lemma total_task_events blocks t b alpha start :
  task_ok blocks t ->
  total start (task_events t) b alpha
  = if asks t b alpha then fadd start (Fin (demand_on t b alpha)) else start.
Proof.
  intros [Hu Hok]. unfold task_events. rewrite (total_entries blocks _ _ _ _ Hu Hok).
  unfold asks, demand_on, contains.
  destruct (get Nat.eqb (budget_per_block t) b) as [bd|]; [|reflexivity].
  destruct (get Qeq_bool bd alpha); reflexivity.
Qed.

Lemma total_all_events blocks tasks b alpha :
  Forall (task_ok blocks) tasks ->
  total (Fin (- initial_epsilon blocks b alpha)) (flat_map task_events tasks) b alpha
  = float_overflow blocks tasks b alpha.
Proof.
  unfold float_overflow. generalize (Fin (- initial_epsilon blocks b alpha)).
  intros start Hok. revert start.
  induction Hok as [|t tasks Ht Hrest IH]; intros start; simpl; [reflexivity|].
  rewrite total_app, (total_task_events blocks t b alpha start Ht). apply IH.
Qed.

Lemma touched_all_events tasks t b bd a d :
  In t tasks -> In (b, bd) (budget_per_block t) -> In (a, d) bd ->
  touched (flat_map task_events tasks) b a = true.
Proof.
  intros Ht Hb Ha. unfold touched. apply existsb_exists. exists (b, a, d). split.
  - apply in_flat_map. exists t. split; [exact Ht|]. unfold task_events.
    apply in_flat_map. exists (b, bd). split; [exact Hb|]. unfold block_events. simpl.
    apply in_map_iff. exists (a, d). split; [reflexivity | exact Ha].
  - simpl. rewrite Nat.eqb_refl, Qeq_bool_refl. reflexivity.
Qed.

(** the overflow read by the second loop is the overflow of the specification *)
Lemma overflow_lookup blocks tasks ov t b bd a d :
  Forall (task_ok blocks) tasks ->
  represents blocks ov (flat_map task_events tasks) ->
  In t tasks -> In (b, bd) (budget_per_block t) -> In (a, d) bd ->
  exists row, get Nat.eqb ov b = Some row /\
              get Qeq_bool row a = Some (float_overflow blocks tasks b a).
Proof.
  intros Hok Hrep Ht Hb Ha. pose proof (Hrep b a) as H. unfold ov_val in H.
  rewrite (touched_all_events tasks t b bd a d Ht Hb Ha) in H.
  destruct (get Nat.eqb ov b) as [row|] eqn:Hrow; [|discriminate].
  destruct (get Qeq_bool row a) as [v|] eqn:Hv; [|discriminate].
  destruct H as [_ H]. exists row. split; [reflexivity|].
  rewrite Hv, H, (total_all_events blocks tasks b a Hok). reflexivity.
Qed.

Lemma cost_loop_spec blocks tasks ov b bd rest : forall cost,
  (forall a d, In (a, d) rest ->
     get Qeq_bool bd a = Some d /\
     exists row, get Nat.eqb ov b = Some row /\
                 get Qeq_bool row a = Some (float_overflow blocks tasks b a)) ->
  cost_loop ov b bd (map fst rest) cost
  = Return (if forallb (fun alpha => float_lt (Fin 0) (float_overflow blocks tasks b alpha))
                 (map fst rest)
            then fold_left
                   (fun cost '(alpha, e) =>
                      fadd cost (fdiv (Fin e) (float_overflow blocks tasks b alpha)))
                   rest cost
            else Fin 0).
Proof.
  induction rest as [|[a d] rest IH]; intros cost Hrest; cbn [map fst cost_loop forallb fold_left].
  - reflexivity.
  - destruct (Hrest a d (or_introl Logic.eq_refl)) as (Hd & row & Hrow & Hv).
    unfold Budget.epsilon, item. rewrite Hd. cbn [mbind result_bind].
    rewrite Hrow. cbn [mbind result_bind]. rewrite Hv. cbn [mbind result_bind].
    destruct (float_lt (Fin 0) (float_overflow blocks tasks b a)) eqn:E; cbn [andb]; [|reflexivity].
    apply IH. intros a' d' Hin. apply Hrest. right. exact Hin.
Qed.
End OverflowSpec.

Section OverflowThm.
Import OverflowRelevance OverflowFacts OverflowExample.
Local Open Scope Q_scope.

Lemma set_append {K V} (keq : K -> K -> bool) (d : @dict K V) k v :
  contains keq d k = false -> set keq d k v = d ++ [(k, v)].
Proof.
  unfold contains. induction d as [|[k0 v0] d IH]; simpl; [reflexivity|].
  destruct (keq k0 k); [discriminate|]. intros H. rewrite (IH H). reflexivity.
Qed.

Lemma fold_left_Qplus l x : fold_left Qplus l x == x + qsum l.
Proof.
  revert x. induction l as [|y l IH]; intros x; simpl; [lra|]. rewrite IH. lra.
Qed.

Lemma compute_costs_loop blocks tasks ov entries : forall costs,
  uniq Nat.eqb (keys entries) ->
  (forall b, has_key Nat.eqb (keys entries) b = true -> contains Nat.eqb costs b = false) ->
  (forall b bd, In (b, bd) entries ->
     cost_loop ov b bd (Budget.alphas bd) (Fin 0) = Return (float_block_cost blocks tasks b bd)) ->
  exists costs',
    for_each
      (fun costs '(block_id_, block_demand_) =>
         c ← cost_loop ov block_id_ block_demand_ (Budget.alphas block_demand_) (Fin 0);
         Return (set Nat.eqb costs block_id_ c))
      entries costs = Return costs' /\
    values costs'
    = values costs
      ++ map (fun '(b, block_demand) => float_block_cost blocks tasks b block_demand) entries.
Proof.
  induction entries as [|[b bd] entries IH]; intros costs Hu Hfresh Hcost; simpl.
  - exists costs. split; [reflexivity | rewrite app_nil_r; reflexivity].
  - rewrite (Hcost b bd (or_introl Logic.eq_refl)). simpl.
    destruct Hu as [Hb Hu]. simpl in Hb.
    assert (contains Nat.eqb costs b = false) as Hfb.
    { apply Hfresh. simpl. rewrite Nat.eqb_refl. reflexivity. }
    rewrite (set_append Nat.eqb costs b _ Hfb).
    destruct (IH (costs ++ [(b, float_block_cost blocks tasks b bd)])) as (costs' & Hrun' & Hsum);
      [exact Hu | |  |].
    + intros b' Hb'. rewrite get_has_key. unfold keys. rewrite map_app, (has_key_app Nat.eqb).
      fold (keys costs). rewrite <- get_has_key, (Hfresh b').
      * simpl. rewrite orb_false_r. destruct (Nat.eqb b b') eqn:E; [|reflexivity].
        apply nat_eqb_true in E. subst b'. rewrite Hb' in Hb. discriminate.
      * simpl. rewrite Hb'. apply orb_true_r.
    + intros b' bd' Hin. apply Hcost. right. exact Hin.
    + exists costs'. split; [exact Hrun'|]. rewrite Hsum.
      unfold values. rewrite map_app, <- app_assoc. reflexivity.
Qed.

Lemma fold_left_fadd_costs blocks tasks (entries : @dict nat (@Budget.t Q)) : forall total,
  fold_left fadd
    (map (fun '(b, block_demand) => float_block_cost blocks tasks b block_demand) entries) total
  = fold_left (fun total '(b, block_demand) => fadd total (float_block_cost blocks tasks b block_demand))
      entries total.
Proof.
  induction entries as [|[b bd] entries IH]; intros total; cbn [map fold_left]; [reflexivity|].
  apply IH.
Qed.

(** C3. For a task among the pending tasks, every pending task asking only
    for known blocks with an initial budget at every order asked for (and no
    key twice in a demand), [OverflowRelevance.apply] returns the rank of the
    description evaluated in floating point, and stores the total cost in
    the task: profit over total cost, infinite when the total cost is not
    positive; the total cost is the sum of the costs of the blocks of the
    task, the cost of a block being the sum over the orders of demand over
    overflow when every overflow is positive and zero otherwise; the
    overflow of a block at an order is what is left after starting from
    minus the initial budget and adding, in the order of the pending tasks,
    the demand of every task that asks for the block at the order. Every
    sum and quotient is rounded to the nearest float as it is computed. *)
Theorem overflow_relevance_apply_float (task : Task) (blocks : @dict nat Block) (tasks : list Task) :
  Forall (task_ok blocks) tasks ->
  In task tasks ->
  apply task blocks tasks
  = Return (float_rank blocks tasks task, float_total_cost blocks tasks task).
Proof.
  intros Hok Hin. unfold apply.
  destruct (compute_overflow_spec blocks tasks Hok) as (ov & Hov & Hrep). rewrite Hov. simpl.
  assert (task_ok blocks task) as [Hu Hdem].
  { rewrite Forall_forall in Hok. apply Hok. apply list_elem_of_In. exact Hin. }
  destruct (compute_costs_loop blocks tasks ov (budget_per_block task) []) as (costs & Hcosts & Hsum).
  - exact Hu.
  - reflexivity.
  - intros b bd Hb.
    assert (demand_ok blocks (b, bd)) as [Hubd _].
    { rewrite Forall_forall in Hdem. apply Hdem. apply list_elem_of_In. exact Hb. }
    simpl in Hubd. unfold float_block_cost, Budget.alphas, keys.
    rewrite (cost_loop_spec blocks tasks ov b bd bd (Fin 0)); [reflexivity|].
    intros a d Ha. split.
    + apply (uniq_In_get Qeq_bool); assumption.
    + apply (overflow_lookup blocks tasks ov task b bd a d); assumption.
  - unfold compute_costs. rewrite Hcosts. simpl.
    assert (fold_left fadd (values costs) (Fin 0) = float_total_cost blocks tasks task) as ->.
    { rewrite Hsum. simpl. apply fold_left_fadd_costs. }
    unfold float_rank. cbv zeta.
    destruct (float_le (float_total_cost blocks tasks task) (Fin 0)); reflexivity.
Qed.

Lemma example_tasks_ok (tasks : list Task) :
  (forall t, In t tasks -> exists i p e2 e3, t = example_task i p e2 e3) ->
  Forall (task_ok [(0%nat, example_block)]) tasks.
Proof.
  intros H. rewrite Forall_forall. intros t Ht. apply list_elem_of_In in Ht.
  destruct (H t Ht) as (i & p & e2 & e3 & ->).
  split; [split; [reflexivity | exact I]|].
  constructor; [|constructor]. split.
  - simpl. repeat split; reflexivity.
  - exists example_block. split; [reflexivity|].
    intros alpha [<- | [<- | []]]; reflexivity.
Qed.

(** Two tasks on one block, both orders in contention. *)
Lemma overflow_relevance_apply_float_witness :
  apply (example_task 0 10 (3 # 4) 1) [(0%nat, example_block)] example_tasks
  = Return (float_rank [(0%nat, example_block)] example_tasks (example_task 0 10 (3 # 4) 1),
            float_total_cost [(0%nat, example_block)] example_tasks (example_task 0 10 (3 # 4) 1)).
Proof.
  apply overflow_relevance_apply_float; [|left; reflexivity].
  apply example_tasks_ok. intros t [<- | [<- | []]]; do 4 eexists; reflexivity.
Defined.

(** The claim as worded is not met: five pending tasks ask the float [0.2]
    of a block whose initial budget is [1] at both orders. The five demands
    sum to more than [1], so the overflow of the description is positive and
    its rank finite; added in floating point to [-1] they leave a negative
    overflow, and the code returns an infinite rank. *)
Lemma overflow_relevance_apply_not_spec :
  let task := example_task 0 1 fifth fifth in
  let blocks := [(0%nat, example_block)] in
  round64 (1 # 5) = Fin fifth /\
  Forall (task_ok blocks) fifth_tasks /\ In task fifth_tasks /\
  (exists cost, apply task blocks fifth_tasks = Return (PInf, cost)) /\
  (exists rank, spec_rank blocks fifth_tasks task = Fin rank /\ 0 < rank).
Proof.
  cbv zeta. split; [vm_compute; reflexivity|]. split; [|split; [left; reflexivity|]].
  - apply example_tasks_ok. intros t Ht. apply in_map_iff in Ht as (i & <- & _).
    do 4 eexists; reflexivity.
  - split.
    + eexists. vm_compute. reflexivity.
    + eexists. split; [vm_compute; reflexivity|]. reflexivity.
Qed.

Example overflow_relevance_apply_example :
  exists r cost,
    apply (example_task 0 10 (3 # 4) 1) [(0%nat, example_block)] example_tasks = Return (r, cost) /\
    float_eq r (Fin 2) /\ float_eq cost (Fin 5).
Proof. do 2 eexists. split; [vm_compute; reflexivity | split; reflexivity]. Qed.
End OverflowThm.

(** ** BatchOverflowRelevance and SoftmaxOverflow *)

Section BatchOverflow.
Import BatchOverflowRelevance.
Local Open Scope Q_scope.

Lemma compute_overflow_unbound (blocks : @dict nat Block) (tasks : option (list Task)) :
  compute_overflow (PyBlocks blocks) (optional_tasks tasks) PyNone = Raise TypeError.
Proof. reflexivity. Qed.

(** C10. Without a precomputed overflow ([None] or an empty dictionary)
    [BatchOverflowRelevance.apply] raises [TypeError], whatever the task, the
    blocks and the pending tasks: the fresh overflow is computed with shifted
    arguments, [tasks] staying [None]. *)
Theorem batch_apply_without_overflow (task : Task) (blocks : @dict nat Block)
    (tasks : option (list Task)) :
  apply task blocks tasks None = Raise TypeError /\
  apply task blocks tasks (Some []) = Raise TypeError.
Proof. split; reflexivity. Qed.

Lemma batch_apply_returns_with_overflow (task : Task) (blocks : @dict nat Block)
    (tasks : option (list Task)) (overflow : option overflow_dict) (rank : float64) :
  apply task blocks tasks overflow = Return rank ->
  exists block_id row rest, overflow = Some ((block_id, row) :: rest).
Proof.
  destruct overflow as [[|[block_id row] rest]|]; try discriminate. eauto.
Qed.

Example batch_apply_with_overflow :
  apply (OverflowExample.example_task 0 10 (3 # 4) 1) [(0%nat, OverflowExample.example_block)] None
    (Some [(0%nat, [(2, Fin (1 # 4)); (3, Fin (1 # 2))])])
  = Return (Fin (10 / (0 + (3 # 4) / (1 # 4) + 1 / (1 # 2)))).
Proof. vm_compute. reflexivity. Qed.
End BatchOverflow.

Section Softmax.
Import SoftmaxOverflow SoftmaxExample.
Local Open Scope Q_scope.
Variable np_exp : Q -> float64.

(** a row without contention is overwritten with NaN *)
Lemma drop_body_no_contention (overflow : matrix) (block_id : nat) row min_overflow :
  overflow !! block_id = Some row ->
  np_min row = Return min_overflow ->
  float_le min_overflow (Fin 0) = true ->
  exists overflow',
    drop_body overflow block_id = Return overflow' /\
    overflow' !! block_id = Some (map (fun _ => NaN) row).
Proof.
  intros Hrow Hmin Hle. unfold drop_body. rewrite Hrow, Hmin. simpl. rewrite Hle.
  eexists. split; [reflexivity|]. apply list_lookup_insert_eq.
  apply lookup_lt_Some in Hrow. exact Hrow.
Qed.

Lemma float_div_NaN y : float_div NaN y = NaN.
Proof. reflexivity. Qed.

Lemma float_exp_NaN temperature : float_exp np_exp (float_mul (Fin (- temperature)) NaN) = NaN.
Proof. reflexivity. Qed.

(** C5 fails on the code. One block with an unlocked budget of 1 at every
    order and no pending task: the overflow is −1 at every order, so the
    block has no contention, and the row of the relevance matrix should be
    zero; the code returns a row of NaN. *)
Theorem softmax_no_contention_row_is_nan :
  (exists overflow available,
     overflow_matrix [(0%nat, idle_block)] [] false = Return (overflow, available) /\
     overflow !! 0%nat = Some (replicate 12 (Fin (-1)))) /\
  compute_relevance_matrix np_exp [(0%nat, idle_block)] [] true false default_temperature
  = Return [replicate 12 NaN].
Proof.
  split.
  - do 2 eexists. split; vm_compute; reflexivity.
  - vm_compute. reflexivity.
Qed.
End Softmax.

(** ** The cached DP budget and the termination clock *)

Section DPBudgetFacts.
Import DPBudgetCache.
Variable get_privacy_spent : list Q -> list Q -> Q -> Q * Q.

Lemma dp_budget_cached_hit self cached delta :
  dp_budget_cached self = Some cached ->
  dp_budget get_privacy_spent self delta = (cached, self).
Proof. intros H. unfold dp_budget. rewrite H. reflexivity. Qed.

Lemma dp_budget_calls_cached self cached deltas :
  dp_budget_cached self = Some cached ->
  dp_budget_calls get_privacy_spent self deltas = (map (fun _ => cached) deltas, self).
Proof.
  intros H. induction deltas as [|delta deltas IH]; simpl; [reflexivity|].
  rewrite (dp_budget_cached_hit self cached delta H), IH. reflexivity.
Qed.

(** C4. On a fresh budget the first call [dp_budget(δ)] returns the
    conversion at [δ] (its [delta] field is [δ]) and caches it; every later
    call, for whatever [δ'], returns that same triple and leaves the object
    unchanged. *)
Theorem dp_budget_idempotent (orders : @dict Q Q) (delta : Q) (deltas : list Q) :
  let self := new orders in
  let first := dp_budget get_privacy_spent self delta in
  fst first = conversion get_privacy_spent self delta /\
  dp_delta (fst first) = delta /\
  dp_budget_cached (snd first) = Some (fst first) /\
  dp_budget_calls get_privacy_spent (snd first) deltas
    = (map (fun _ => fst first) deltas, snd first).
Proof.
  intros self first. unfold first, dp_budget, conversion. simpl.
  destruct (get_privacy_spent _ _ delta) as [epsilon alpha] eqn:E. simpl.
  repeat split. apply dp_budget_calls_cached. reflexivity.
Qed.
End DPBudgetFacts.

Section TerminationClock.
Import ResourceManager.

(** C6, amended. When block production is declared terminated at time [t],
    the termination clock waits [block_arrival_interval] ticks, triggers
    [task_production_terminated] at [t + block_arrival_interval], and only
    afterwards waits [data_lifetime] ticks; it ends at
    [t + block_arrival_interval + data_lifetime]. *)
Theorem termination_clock_times (config : Config) (t_block : nat) :
  exists final,
    run (only_blocks t_block) start (termination_clock config) = Some final /\
    triggered final task_production_terminated
      = Some (t_block + set_block_arrival_time config) /\
    now final = t_block + set_block_arrival_time config + data_lifetime config.
Proof.
  eexists. split; [reflexivity|]. simpl. split; [f_equal; lia | lia].
Qed.

(** C6 as stated fails: with a data lifetime of 30 and the last block at
    time 10, task production is terminated at time 11, before time 40. *)
Lemma termination_clock_early :
  exists final,
    run (only_blocks 10) start (termination_clock {| data_lifetime := 30 |}) = Some final /\
    triggered final task_production_terminated = Some 11 /\
    11 < 10 + data_lifetime {| data_lifetime := 30 |}.
Proof. eexists. split; [reflexivity|]. split; [reflexivity|]. simpl. lia. Qed.
End TerminationClock.

(** ** Block selection *)

Section BlockSelectionFacts.
Import BlockSelection SoftmaxExample.

Lemma submseteq_NoDup (l k : list nat) : l ⊆+ k -> NoDup k -> NoDup l.
Proof.
  intros Hs Hk. apply submseteq_sublist_r in Hs as (l2 & Hp & Hs).
  rewrite Hp. eapply sublist_NoDup; eassumption.
Qed.

Lemma submseteq_seq_valid n k out :
  length out = k -> out ⊆+ seq 0 n -> valid_selection n k out.
Proof.
  intros Hlen Hsub. split; [exact Hlen|]. split.
  - eapply submseteq_NoDup; [exact Hsub|]. apply NoDup_seq.
  - rewrite Forall_forall. intros i Hi.
    apply (elem_of_submseteq _ _ _ Hi) in Hsub. apply elem_of_seq in Hsub. lia.
Qed.

Lemma random_sample_seq n k o :
  k <= n -> random_sample (seq 0 n) k o ->
  exists l, o = Return l /\ valid_selection n k l.
Proof.
  intros Hk. unfold random_sample. rewrite length_seq.
  destruct (Nat.leb_spec k n) as [_|H]; [|lia].
  intros (out & -> & Hlen & Hsub). exists out. split; [reflexivity|].
  apply submseteq_seq_valid; assumption.
Qed.

Lemma random_sample_exists population k :
  k <= length population -> exists o, random_sample population k o.
Proof.
  intros Hk. exists (Return (take k population)). unfold random_sample.
  destruct (Nat.leb_spec k (length population)) as [_|H]; [|lia].
  exists (take k population). split; [reflexivity|]. split.
  - rewrite length_take. lia.
  - apply sublist_submseteq, sublist_take.
Qed.

Lemma filter_sublist_seq f n : List.filter f (seq 0 n) ⊆+ seq 0 n.
Proof.
  apply sublist_submseteq. induction (seq 0 n) as [|x l IH]; simpl; [constructor|].
  destruct (f x); [apply sublist_skip | apply sublist_cons]; exact IH.
Qed.

Lemma even_odd_length (l : list nat) :
  length (List.filter Nat.even l) + length (List.filter Nat.odd l) = length l.
Proof.
  induction l as [|x l IH]; simpl; [reflexivity|].
  unfold Nat.odd in *. destruct (Nat.even x); simpl; lia.
Qed.

Lemma even_odd_Permutation (l : list nat) :
  Permutation (List.filter Nat.even l ++ List.filter Nat.odd l) l.
Proof.
  induction l as [|x l IH]; simpl; [reflexivity|].
  unfold Nat.odd in *. destruct (Nat.even x); simpl.
  - constructor. exact IH.
  - rewrite <- Permutation_middle. constructor. exact IH.
Qed.

Lemma biased_valid n k sampled :
  k <= n ->
  length (List.filter Nat.even (seq 0 n)) < k ->
  length sampled = k - length (List.filter Nat.even (seq 0 n)) ->
  sampled ⊆+ List.filter Nat.odd (seq 0 n) ->
  valid_selection n k (List.filter Nat.even (seq 0 n) ++ sampled).
Proof.
  intros Hk Heven Hlen Hsub. apply submseteq_seq_valid.
  - rewrite length_app, Hlen. lia.
  - etransitivity; [apply submseteq_app; [reflexivity | exact Hsub]|].
    rewrite (even_odd_Permutation (seq 0 n)). reflexivity.
Qed.

(** the entries of [density] under [Zeta] *)
Lemma filter_all_seq (pos : nat -> bool) k : forall a,
  (forall i, a <= i < a + k -> pos i = true) -> List.filter pos (seq a k) = seq a k.
Proof.
  induction k as [|k IH]; intros a H; cbn [seq List.filter]; [reflexivity|].
  rewrite (H a) by lia. f_equal. apply IH. intros i Hi. apply H. lia.
Qed.

Lemma filter_prefix (pos : nat -> bool) n k :
  k <= n -> (forall i, i < k -> pos i = true) -> seq 0 k ⊆+ List.filter pos (seq 0 n).
Proof.
  intros Hk Hpos. replace n with (k + (n - k)) by lia.
  rewrite seq_app, List.filter_app, filter_all_seq.
  - apply submseteq_inserts_r. reflexivity.
  - intros i Hi. apply Hpos. lia.
Qed.

Lemma zeta_weight_first s : zeta_weight s 0 = 1%R.
Proof.
  unfold zeta_weight, Rpower. cbn [Nat.add INR]. rewrite ln_1, Rmult_0_r. apply exp_0.
Qed.

Lemma pow2_pos m : (0 < 2 ^ m)%R.
Proof. apply pow_lt. lra. Qed.

Lemma surely_positive_not_zero s n i :
  0 < n -> surely_positive s n i -> surely_zero s i -> False.
Proof.
  unfold surely_positive, surely_zero. intros Hn Hp Hz.
  assert (1 <= INR n)%R as H1 by (change 1%R with (INR 1); apply le_INR; lia).
  assert (/ 2 ^ 1076 < / 2 ^ 1022)%R as H2.
  { apply Rinv_lt_contravar; [apply Rmult_lt_0_compat; apply pow2_pos|].
    apply Rlt_pow; [lra | lia]. }
  assert (0 < / 2 ^ 1022)%R as H3 by (apply Rinv_0_lt_compat, pow2_pos).
  assert (/ 2 ^ 1022 <= INR n * / 2 ^ 1022)%R as H4.
  { rewrite <- (Rmult_1_l (/ 2 ^ 1022)) at 1. apply Rmult_le_compat_r; lra. }
  lra.
Qed.

(** some support is possible, whatever the exponent *)
Lemma possible_support_exists s n :
  0 < n ->
  exists pos, possible_support s n pos /\
              forall i, surely_positive s n i -> pos i = true.
Proof.
  intros Hn.
  exists (fun i => if Rle_dec (INR n * / 2 ^ 1022) (zeta_weight s i) then true else false).
  split.
  - intros i _. split.
    + intros Hp. destruct (Rle_dec _ _) as [_|Hno]; [reflexivity|]. exfalso. apply Hno, Hp.
    + intros Hz. destruct (Rle_dec _ _) as [Hp|_]; [|reflexivity].
      exfalso. apply (surely_positive_not_zero s n i Hn Hp Hz).
  - intros i Hp. destruct (Rle_dec _ _) as [_|Hno]; [reflexivity|]. exfalso. apply Hno, Hp.
Qed.

Lemma zeta_choice_valid s n k o :
  k <= n -> zeta_ok (Zeta s) n k -> zeta_choice s n k o ->
  exists l, o = Return l /\ valid_selection n k l.
Proof.
  intros Hk (Hn & Hs & Hmax & Hpos) Ho.
  destruct Ho as [H0 | _ Hneg | _ [Hneg | Hbig] | pos _ Hsup Hfew | pos out _ Hsup Hlen Hsub].
  - lia.
  - exfalso. apply (Qlt_not_le _ _ Hneg Hs).
  - exfalso. apply (Qlt_not_le _ _ Hneg Hs).
  - lia.
  - exfalso.
    assert (seq 0 k ⊆+ List.filter pos (seq 0 n)) as Hsub.
    { apply filter_prefix; [exact Hk|]. intros i Hi. apply Hsup; [lia|]. apply Hpos, Hi. }
    apply submseteq_length in Hsub. rewrite length_seq in Hsub. lia.
  - exists out. split; [reflexivity|]. apply submseteq_seq_valid; [exact Hlen|].
    etransitivity; [exact Hsub | apply filter_sublist_seq].
Qed.

Lemma zeta_choice_exists s n k :
  k <= n -> zeta_ok (Zeta s) n k -> exists o, zeta_choice s n k o.
Proof.
  intros Hk (Hn & Hs & Hmax & Hpos).
  destruct (possible_support_exists s n Hn) as (pos & Hsup & Hall).
  exists (Return (seq 0 k)). apply (zeta_draw s n k pos); [exact Hn | exact Hsup | apply length_seq|].
  apply filter_prefix; [exact Hk|]. intros i Hi. apply Hall, Hpos, Hi.
Qed.

(** a weight [(i + 1) ** (-m)] is at most [2 ** (-m)] after the first *)
Lemma zeta_weight_nat (m i : nat) :
  zeta_weight (inject_Z (Z.of_nat m)) i = (/ INR (i + 1) ^ m)%R.
Proof.
  unfold zeta_weight.
  assert (Q2R (inject_Z (Z.of_nat m)) = INR m) as ->.
  { unfold Q2R, inject_Z. cbn [Qnum Qden]. rewrite Rinv_1, Rmult_1_r. symmetry. apply INR_IZR_INZ. }
  assert (0 < INR (i + 1))%R as H0 by (apply lt_0_INR; lia).
  rewrite Rpower_Ropp, Rpower_pow by exact H0. reflexivity.
Qed.

Lemma zeta_weight_le (m i : nat) :
  1 <= i -> (zeta_weight (inject_Z (Z.of_nat m)) i <= / 2 ^ m)%R.
Proof.
  intros Hi. rewrite zeta_weight_nat.
  assert (2 <= INR (i + 1))%R as H2.
  { change 2%R with (INR 2). apply le_INR. lia. }
  apply Rinv_le_contravar; [apply pow2_pos|]. apply pow_incr. lra.
Qed.

(** with [s = 2] the weights of three blocks are [1], [1/4] and [1/9] *)
Lemma zeta_2_positive (i : nat) : i < 3 -> surely_positive 2 3 i.
Proof.
  intros Hi. unfold surely_positive. change (2 : Q) with (inject_Z (Z.of_nat 2)).
  rewrite zeta_weight_nat.
  assert (32 <= 2 ^ 1022)%R as HP.
  { replace 32%R with (2 ^ 5)%R by (simpl; lra). apply Rle_pow; [lra | lia]. }
  assert (/ 2 ^ 1022 <= / 32)%R as Hinv by (apply Rinv_le_contravar; lra).
  assert (0 < INR (i + 1) <= 3)%R as [H0 H3].
  { split; [apply lt_0_INR; lia|]. replace 3%R with (INR 3) by (simpl; lra). apply le_INR. lia. }
  assert (/ 9 <= / INR (i + 1) ^ 2)%R as Hw.
  { apply Rinv_le_contravar; [apply pow_lt; exact H0|].
    replace 9%R with (3 ^ 2)%R by (simpl; lra). apply pow_incr. lra. }
  replace (INR 3) with 3%R by (simpl; lra).
  revert Hinv Hw. generalize (/ 2 ^ 1022)%R (/ INR (i + 1) ^ 2)%R. intros p w Hinv Hw. lra.
Qed.

Lemma zeta_2_ok (k : nat) : k <= 3 -> zeta_ok (Zeta 2) 3 k.
Proof.
  intros Hk. split; [lia|]. split; [discriminate|]. split; [unfold zeta_max_blocks; simpl; lia|].
  intros i Hi. apply zeta_2_positive. lia.
Qed.

(** whatever its exponent, [Zeta] returns a valid selection or raises one
    of two exceptions *)
Lemma zeta_choice_outcomes s n k o :
  zeta_choice s n k o ->
  (exists l, o = Return l /\ valid_selection n k l) \/
  o = Raise ValueError \/ o = Raise OverflowError.
Proof.
  intros Ho.
  destruct Ho as [H0 | _ Hneg | _ _ | pos _ Hsup Hfew | pos out _ Hsup Hlen Hsub]; auto.
  left. exists out. split; [reflexivity|]. apply submseteq_seq_valid; [exact Hlen|].
  etransitivity; [exact Hsub | apply filter_sublist_seq].
Qed.

Lemma zeta_2000_zero (i : nat) : 1 <= i -> surely_zero 2000 i.
Proof.
  intros Hi. unfold surely_zero.
  change (2000 : Q) with (inject_Z (Z.of_nat 2000)).
  eapply Rle_trans; [apply (zeta_weight_le 2000 i Hi)|].
  apply Rinv_le_contravar; [apply pow2_pos|]. apply Rle_pow; [lra | lia].
Qed.

Lemma zeta_2000_support (pos : nat -> bool) :
  possible_support 2000 3 pos -> length (List.filter pos (seq 0 3)) < 2.
Proof.
  intros Hsup.
  assert (pos 1 = false) as H1 by (apply (Hsup 1); [lia | apply zeta_2000_zero; lia]).
  assert (pos 2 = false) as H2 by (apply (Hsup 2); [lia | apply zeta_2000_zero; lia]).
  cbn [seq List.filter]. rewrite H1, H2. destruct (pos 0); cbn [length]; lia.
Qed.

(** C7. For every policy, every set of available blocks and every requested
    number [k] of blocks: when [k] exceeds the number of blocks,
    [select_blocks] can only raise [NotEnoughBlocks]; otherwise, for the
    policies other than [Zeta] it has an outcome, and every outcome is a
    list of [k] distinct block indices, each below the number of blocks.
    The same holds for [Zeta s] provided there is a block, [s] is not
    negative, and the weights [(i + 1) ** (-s)] of the first [k] blocks are
    large enough to be positive floats after the division by their sum;
    without these conditions [Zeta s] returns such a list or raises
    [ValueError] or [OverflowError]. *)
Theorem select_blocks_outcomes (p : policy) (blocks : @dict nat Block) (task_blocks_num : nat) :
  (length blocks < task_blocks_num ->
     forall o, select_blocks p blocks task_blocks_num o <-> o = Raise NotEnoughBlocks) /\
  (task_blocks_num <= length blocks ->
   zeta_ok p (length blocks) task_blocks_num ->
     (exists o, select_blocks p blocks task_blocks_num o) /\
     forall o, select_blocks p blocks task_blocks_num o ->
       exists l, o = Return l /\ valid_selection (length blocks) task_blocks_num l) /\
  (task_blocks_num <= length blocks ->
   forall s o, p = Zeta s -> select_blocks p blocks task_blocks_num o ->
     (exists l, o = Return l /\ valid_selection (length blocks) task_blocks_num l) \/
     o = Raise ValueError \/ o = Raise OverflowError).
Proof.
  set (n := length blocks). set (k := task_blocks_num) in *.
  unfold select_blocks. fold n. cbv zeta. split; [|split].
  - intros Hlt o. destruct (Nat.ltb_spec n k) as [_|H]; [reflexivity | lia].
  - intros Hle Hzeta. destruct (Nat.ltb_spec n k) as [H|_]; [lia|].
    destruct p as [| | | |s].
    + split; [apply random_sample_exists; rewrite length_seq; exact Hle|].
      intros o. apply random_sample_seq. exact Hle.
    + split; [eexists; reflexivity|]. intros o ->. eexists. split; [reflexivity|].
      split; [rewrite length_rev, length_seq; reflexivity|]. split.
      * eapply submseteq_NoDup; [|apply (NoDup_seq (n - k) k)].
        apply Permutation_submseteq. symmetry. apply Permutation_rev.
      * rewrite Forall_forall. intros i Hi. apply list_elem_of_In, in_rev, list_elem_of_In, elem_of_seq in Hi. lia.
    + pose proof (even_odd_length (seq 0 n)) as Hparts. rewrite length_seq in Hparts. split.
      * destruct (random_sample_exists (seq 0 n) k) as [o Ho]; [rewrite length_seq; exact Hle|].
        exists o, 1. split; [right; reflexivity | exact Ho].
      * intros o (selection & [-> | ->] & Hsel); simpl in Hsel.
        -- destruct (Nat.ltb_spec (length (List.filter Nat.even (seq 0 n))) k) as [Hev|Hev].
           ++ destruct Hsel as (sampled & Hsample & ->). unfold random_sample in Hsample.
              destruct (Nat.leb_spec (k - length (List.filter Nat.even (seq 0 n)))
                          (length (List.filter Nat.odd (seq 0 n)))) as [_|H]; [|lia].
              destruct Hsample as (out & -> & Hlen & Hsub). simpl.
              eexists. split; [reflexivity|]. apply biased_valid; assumption.
           ++ unfold random_sample in Hsel.
              destruct (Nat.leb_spec k (length (List.filter Nat.even (seq 0 n)))) as [_|H]; [|lia].
              destruct Hsel as (out & -> & Hlen & Hsub). eexists. split; [reflexivity|].
              apply submseteq_seq_valid; [exact Hlen|].
              etransitivity; [exact Hsub | apply filter_sublist_seq].
        -- apply random_sample_seq; assumption.
    + split.
      * exists (Return (seq 0 k)), 0. split; [unfold random_randint; lia | reflexivity].
      * intros o (offset & [_ Hoff] & ->). eexists. split; [reflexivity|].
        split; [apply length_seq|]. split; [apply NoDup_seq|].
        rewrite Forall_forall. intros i Hi. apply elem_of_seq in Hi. lia.
    + split; [apply zeta_choice_exists; assumption|].
      intros o. apply zeta_choice_valid; assumption.
  - intros Hle s o ->. destruct (Nat.ltb_spec n k) as [H|_]; [lia|].
    apply zeta_choice_outcomes.
Qed.

(** Two of three blocks under [Zeta] with [s = 2]. *)
Lemma select_blocks_outcomes_witness :
  (exists o, select_blocks (Zeta 2) three_blocks 2 o) /\
  forall o, select_blocks (Zeta 2) three_blocks 2 o ->
    exists l, o = Return l /\ valid_selection (length three_blocks) 2 l.
Proof.
  apply (proj1 (proj2 (select_blocks_outcomes (Zeta 2) three_blocks 2))); [simpl; lia|].
  apply zeta_2_ok. lia.
Defined.

(** The claim as worded is not met: asked for two of three blocks, [Zeta]
    with [s = 2000] has an outcome, and its only outcome is [ValueError]:
    the weights of the second and third block underflow to zero, which
    leaves numpy one positive probability for two draws. *)
Lemma zeta_select_blocks_raises :
  2 <= length three_blocks /\
  (exists o, select_blocks (Zeta 2000) three_blocks 2 o) /\
  forall o, select_blocks (Zeta 2000) three_blocks 2 o -> o = Raise ValueError.
Proof.
  split; [simpl; lia|]. unfold select_blocks. cbn [three_blocks length Nat.ltb Nat.leb]. split.
  - destruct (possible_support_exists 2000 3) as (pos & Hsup & _); [lia|].
    exists (Raise ValueError). apply (zeta_few 2000 3 2 pos); [lia | exact Hsup|].
    apply zeta_2000_support, Hsup.
  - intros o Ho.
    destruct Ho as [H0 | _ Hneg | _ [Hneg | Hbig] | pos _ Hsup Hfew | pos out _ Hsup Hlen Hsub].
    + reflexivity.
    + discriminate Hneg.
    + discriminate Hneg.
    + reflexivity.
    + reflexivity.
    + exfalso. pose proof (zeta_2000_support pos Hsup) as Hfew.
      apply submseteq_length in Hsub. lia.
Qed.

(** Without blocks, [Zeta] asked for no block raises too: the probabilities
    sum to zero. *)
Lemma zeta_without_blocks (s : Q) (o : result (list nat)) :
  select_blocks (Zeta s) [] 0 o <-> o = Raise ValueError.
Proof.
  unfold select_blocks. cbn [length Nat.ltb Nat.leb]. split.
  - intros Ho.
    destruct Ho as [H0 | Hn _ | Hn _ | pos Hn _ _ | pos out Hn _ _ _]; try reflexivity; lia.
  - intros ->. apply zeta_no_blocks. reflexivity.
Qed.

Example latest_blocks_first_ex :
  select_blocks LatestBlocksFirst three_blocks 2 (Return [2; 1]).
Proof. reflexivity. Qed.

Example not_enough_blocks_ex (p : policy) :
  select_blocks p three_blocks 4 (Raise NotEnoughBlocks).
Proof. reflexivity. Qed.
End BlockSelectionFacts.

(** * Further properties of the code *)

(** ** budget/budget.py: the remaining operations of [Budget] *)

Section InitFacts.
Local Open Scope Q_scope.
Local Abbreviation keq := Qeq_bool.
Local Abbreviation hasq := (has_key Qeq_bool).
Context {V : Type}.

Lemma ascending_cons2 k k' (l : list Q) :
  Budget.ascending (k :: k' :: l) = Qlt_bool k k' && Budget.ascending (k' :: l).
Proof. reflexivity. Qed.

Lemma ascending_snoc ks x :
  Budget.ascending ks = true -> (forall k, In k ks -> k < x) -> Budget.ascending (ks ++ [x]) = true.
Proof.
  induction ks as [|k ks IH]; intros Hasc Hlt; [reflexivity|].
  destruct ks as [|k' ks].
  - simpl. rewrite andb_true_r. apply Qlt_bool_iff. apply Hlt. left. reflexivity.
  - rewrite ascending_cons2 in Hasc. apply andb_prop in Hasc as [Hk Hasc].
    change ((k :: k' :: ks) ++ [x]) with (k :: k' :: (ks ++ [x])).
    rewrite ascending_cons2, Hk. simpl andb.
    apply (IH Hasc). intros y Hy. apply Hlt. right. exact Hy.
Qed.

Lemma init_loop_ascending (orders : @dict Q V) rest : forall self,
  StronglySorted Qle rest ->
  Budget.ascending (keys self) = true ->
  (forall k x, In k (keys self) -> In x rest -> k <= x) ->
  Budget.ascending
    (keys (fold_left (fun self alpha =>
             match get keq orders alpha with
             | Some e => set keq self alpha e
             | None => self
             end) rest self)) = true.
Proof.
  induction rest as [|x rest IH]; intros self Hsorted Hasc Hle; simpl; [exact Hasc|].
  apply StronglySorted_inv in Hsorted as [Hsorted Hx].
  apply IH; [exact Hsorted | |].
  - destruct (get keq orders x) as [e|]; [|exact Hasc].
    rewrite (keys_set keq). destruct (contains keq self x) eqn:Hc; [exact Hasc|].
    apply ascending_snoc; [exact Hasc|]. intros k Hk.
    assert (k <= x) as Hkx by (apply Hle; [exact Hk | left; reflexivity]).
    destruct (Qeq_bool k x) eqn:E.
    + rewrite (get_has_key keq) in Hc.
      assert (hasq (keys self) x = true) as Hh by (apply has_key_In; eauto). congruence.
    + apply Qeq_bool_neq in E. apply Qle_lteq in Hkx as [H | H]; [exact H | contradiction].
  - intros k y Hk Hy.
    assert (In k (keys self) \/ k = x) as [Hk' | ->].
    { destruct (get keq orders x) as [e|]; [|left; exact Hk].
      rewrite (keys_set keq) in Hk. destruct (contains keq self x); [left; exact Hk|].
      apply in_app_or in Hk as [Hk | [<- | []]]; [left; exact Hk | right; reflexivity]. }
    + apply Hle; [exact Hk' | right; exact Hy].
    + rewrite Forall_forall in Hx. apply Hx. apply list_elem_of_In. exact Hy.
Qed.

Lemma init_ascending (orders : @dict Q V) :
  Budget.ascending (Budget.alphas (Budget.init orders)) = true.
Proof.
  unfold Budget.alphas, Budget.init. apply init_loop_ascending.
  - apply sorted_StronglySorted.
  - reflexivity.
  - intros k x [].
Qed.

(** a dictionary already in increasing order is built again as it is *)
Lemma init_loop_id (orders : @dict Q V) rest : forall self,
  (forall k v, In (k, v) rest -> get keq orders k = Some v) ->
  (forall k, In k (keys rest) -> hasq (keys self) k = false) ->
  uniq keq (keys rest) ->
  fold_left (fun self alpha =>
     match get keq orders alpha with
     | Some e => set keq self alpha e
     | None => self
     end) (keys rest) self = self ++ rest.
Proof.
  induction rest as [|[k v] rest IH]; intros self Hget Hfresh Hu; simpl.
  - rewrite app_nil_r. reflexivity.
  - rewrite (Hget k v) by (left; reflexivity). destruct Hu as [Hk Hu].
    assert (contains keq self k = false) as Hc.
    { rewrite (get_has_key keq). apply Hfresh. left. reflexivity. }
    rewrite (set_append keq self k v Hc), IH.
    + rewrite <- app_assoc. reflexivity.
    + intros k' v' Hin. apply Hget. right. exact Hin.
    + intros k' Hk'. unfold keys. rewrite map_app. rewrite (has_key_app keq).
      fold (keys self). rewrite (Hfresh k') by (right; exact Hk'). simpl. rewrite orb_false_r.
      destruct (keq k k') eqn:E; [|reflexivity].
      simpl in Hk. rewrite (has_key_keq keq _ _ _ E) in Hk.
      rewrite (has_key_self keq _ _ Hk') in Hk. discriminate.
    + exact Hu.
Qed.

Lemma init_id (orders : @dict Q V) :
  Budget.ascending (keys orders) = true -> Budget.init orders = orders.
Proof.
  intros H. unfold Budget.init. rewrite (sorted_ascending _ H).
  rewrite (init_loop_id orders orders []); [reflexivity | | reflexivity |].
  - intros k v Hin. apply (uniq_In_get keq); [apply ascending_uniq; exact H | exact Hin].
  - apply ascending_uniq. exact H.
Qed.
End InitFacts.

Section BudgetLaws.
Local Open Scope Q_scope.
Local Abbreviation keq := Qeq_bool.

(** [Budget.__init__]: the orders of a budget are strictly increasing, and
    each order keeps the epsilon of the dictionary the budget was built from
    ([KeyError] for an order that is not in it) *)
Theorem budget_init_sorted_lookup (orders : @dict Q Q) :
  Budget.ascending (Budget.alphas (Budget.init orders)) = true /\
  forall alpha, Budget.epsilon (Budget.init orders) alpha = item keq orders alpha.
Proof.
  split; [apply init_ascending|]. intros alpha. unfold Budget.epsilon, item.
  rewrite init_get. reflexivity.
Qed.

(** [copy]: the copy of a budget has the same orders and epsilons, and
    compares equal to it in both directions *)
Theorem budget_copy_identical (orders : @dict Q Q) :
  BudgetOps.copy (Budget.init orders) = Budget.init orders /\
  Budget.eq (BudgetOps.copy (Budget.init orders)) (Budget.init orders) = Return true /\
  Budget.eq (Budget.init orders) (BudgetOps.copy (Budget.init orders)) = Return true.
Proof.
  assert (BudgetOps.copy (Budget.init orders) = Budget.init orders) as Hc.
  { apply init_id. apply (init_ascending orders). }
  rewrite Hc. split; [reflexivity|].
  assert (Budget.eq (Budget.init orders) (Budget.init orders) = Return true) as He.
  { apply eq_true_iff. intros alpha ea Ha. exists ea. split; [exact Ha | reflexivity]. }
  split; exact He.
Qed.
End BudgetLaws.

Section BudgetAlgebra.
Local Open Scope Q_scope.
Local Abbreviation keq := Qeq_bool.
Local Abbreviation hasq := (has_key Qeq_bool).

Lemma keys_init_congr {V W} (o : @dict Q V) (o' : @dict Q W) :
  keys o = keys o' -> keys (Budget.init o) = keys (Budget.init o').
Proof.
  intros Hk. unfold Budget.init. rewrite <- Hk.
  assert (forall alpha, contains keq o alpha = contains keq o' alpha) as Hc.
  { intros alpha. rewrite !(get_has_key keq), Hk. reflexivity. }
  generalize (sorted Qle_bool (keys o)). intros ks.
  assert (keys ([] : @dict Q V) = keys ([] : @dict Q W)) as H0 by reflexivity. revert H0.
  generalize ([] : @dict Q V) ([] : @dict Q W). induction ks as [|k ks IH]; intros s s' Hs; simpl.
  - exact Hs.
  - apply IH. specialize (Hc k). unfold contains in Hc.
    destruct (get keq o k), (get keq o' k); try discriminate; [|exact Hs].
    rewrite !(keys_set keq), !(get_has_key keq), Hs. reflexivity.
Qed.

Lemma same_support_loop_keys (b1 b2 : @Budget.t Q) ks : forall o1 o2 o1' o2',
  keys o1 = keys o2 ->
  for_each
    (fun '(orders1, orders2) alpha =>
       e1 ← Budget.epsilon b1 alpha;
       e2 ← Budget.epsilon b2 alpha;
       Return (set keq orders1 alpha e1, set keq orders2 alpha e2))
    ks (o1, o2) = Return (o1', o2') ->
  keys o1' = keys o2'.
Proof.
  induction ks as [|k ks IH]; intros o1 o2 o1' o2' Hk; simpl.
  - intros [= <- <-]. exact Hk.
  - destruct (Budget.epsilon b1 k) as [e1|]; [|discriminate].
    destruct (Budget.epsilon b2 k) as [e2|]; [|discriminate]. simpl.
    apply IH. rewrite !(keys_set keq), !(get_has_key keq), Hk. reflexivity.
Qed.

(** [same_support]: never raises; both budgets come back over the shared
    orders, in the same order, with their own epsilons. *)
Theorem same_support_shared (budget1 budget2 : @Budget.t Q) :
  exists a b,
    Budget.same_support budget1 budget2 = Return (a, b) /\
    Budget.alphas a = Budget.alphas b /\
    Budget.ascending (Budget.alphas a) = true /\
    forall alpha,
      Budget.epsilon a alpha
        = (if Budget.shared budget1 budget2 alpha then Budget.epsilon budget1 alpha else Raise KeyError) /\
      Budget.epsilon b alpha
        = (if Budget.shared budget1 budget2 alpha then Budget.epsilon budget2 alpha else Raise KeyError).
Proof.
  destruct (same_support_spec budget1 budget2) as (a & b & Hss & _ & _ & Ha & Hb).
  exists a, b. split; [exact Hss|].
  unfold Budget.same_support in Hss. cbv zeta in Hss.
  destruct (for_each _ _ _) as [[o1 o2]|] eqn:Hloop; [|discriminate]. simpl in Hss.
  injection Hss as <- <-.
  split; [|split].
  - unfold Budget.alphas. apply keys_init_congr.
    eapply same_support_loop_keys; [|exact Hloop]. reflexivity.
  - apply init_ascending.
  - intros alpha. unfold Budget.epsilon, item. rewrite Ha, Hb.
    destruct (Budget.shared budget1 budget2 alpha); split; reflexivity.
Qed.

(** [__add__]: never raises; the sum has the orders the two budgets share,
    each with the sum of the two epsilons *)
Theorem add_pointwise (self other : @Budget.t Q) :
  exists sum,
    Budget.add self other = Return sum /\
    forall alpha,
      Budget.epsilon sum alpha
      = match get keq self alpha, get keq other alpha with
        | Some e1, Some e2 => Return (e1 + e2)
        | _, _ => Raise KeyError
        end.
Proof.
  destruct (add_spec self other) as (c & Hc & _ & Hget). exists c. split; [exact Hc|].
  intros alpha. unfold Budget.epsilon, item. rewrite Hget. unfold Budget.pointwise.
  destruct (get keq self alpha), (get keq other alpha); reflexivity.
Qed.

(** [__sub__]: a budget minus itself has the orders of the budget, each at
    zero *)
Theorem sub_self_zero (self : @Budget.t Q) :
  exists diff,
    Budget.sub self self = Return diff /\
    forall alpha,
      contains keq diff alpha = contains keq self alpha /\
      forall e, Budget.epsilon diff alpha = Return e -> e == 0.
Proof.
  destruct (sub_spec self self) as (c & Hc & _ & Hget). exists c. split; [exact Hc|].
  intros alpha. unfold contains, Budget.epsilon, item. rewrite Hget. unfold Budget.pointwise.
  destruct (get keq self alpha) as [e0|]; split; try reflexivity.
  - intros e [= <-]. lra.
  - discriminate.
Qed.

(** [can_allocate] raises in two cases only: [AssertionError] exactly when
    some epsilon of the demand is negative, and [ValueError] (from [max] of an
    empty list) exactly when the demand is not negative and the two budgets
    share no order *)
Theorem can_allocate_errors (self demand_budget : @Budget.t Q) :
  (Budget.can_allocate self demand_budget = Raise AssertionError <->
     Exists (fun e => e < 0) (Budget.epsilons demand_budget)) /\
  (Budget.can_allocate self demand_budget = Raise ValueError <->
     Forall (fun e => 0 <= e) (Budget.epsilons demand_budget) /\
     forall alpha, Budget.shared self demand_budget alpha = false) /\
  (forall e, Budget.can_allocate self demand_budget = Raise e ->
     e = AssertionError \/ e = ValueError).
Proof.
  unfold Budget.can_allocate, Budget.is_positive_all_alphas.
  destruct (sub_spec self demand_budget) as (diff & Hsub & Hu & Hget). rewrite Hsub. simpl.
  assert (Budget.epsilons diff = [] <-> forall alpha, Budget.shared self demand_budget alpha = false)
    as Hempty.
  { split.
    - intros He alpha. destruct (Budget.shared self demand_budget alpha) eqn:E; [|reflexivity].
      unfold Budget.shared, contains in E.
      specialize (Hget alpha). unfold Budget.pointwise in Hget.
      destruct (get keq self alpha) as [e1|]; [|discriminate].
      destruct (get keq demand_budget alpha) as [e2|]; [|discriminate].
      apply get_In in Hget as (k & _ & Hin).
      assert (In (e1 - e2) (Budget.epsilons diff)) as Hv.
      { unfold Budget.epsilons, values. change (e1 - e2) with (snd (k, e1 - e2)).
        apply in_map. exact Hin. }
      rewrite He in Hv. destruct Hv.
    - intros Hno. destruct diff as [|[k v] diff]; [reflexivity|]. exfalso.
      specialize (Hget k). simpl in Hget. rewrite Qeq_bool_refl in Hget.
      specialize (Hno k). unfold Budget.pointwise in Hget. unfold Budget.shared, contains in Hno.
      destruct (get keq self k); [|discriminate].
      destruct (get keq demand_budget k); discriminate. }
  destruct (Budget.is_positive_all_alphas_loop (Budget.epsilons demand_budget)) eqn:Hpos; simpl.
  - apply is_positive_all_alphas_loop_iff in Hpos.
    assert (~ Exists (fun e => e < 0) (Budget.epsilons demand_budget)) as Hnex.
    { intros Hex. apply Exists_exists in Hex as (e & He & Hlt).
      rewrite Forall_forall in Hpos. specialize (Hpos e He). lra. }
    destruct (Budget.epsilons diff) as [|x xs] eqn:Hd; simpl.
    + split; [split; [discriminate | tauto]|]. split.
      * split; [intros _; split; [exact Hpos | apply Hempty; reflexivity] | reflexivity].
      * intros e [= <-]. right. reflexivity.
    + assert (~ forall alpha, Budget.shared self demand_budget alpha = false) as Hsome.
      { intros H. apply Hempty in H. discriminate. }
      destruct (Qle_bool 0 (Budget.max_loop x xs));
        (split; [split; [discriminate | tauto]|]; split; [split; [discriminate | tauto] | discriminate]).
  - assert (Exists (fun e => e < 0) (Budget.epsilons demand_budget)) as Hex.
    { clear -Hpos. induction (Budget.epsilons demand_budget) as [|e es IH]; simpl in Hpos; [discriminate|].
      destruct (Qlt_bool e 0) eqn:E.
      - left. apply Qlt_bool_iff. exact E.
      - right. apply IH. exact Hpos. }
    split; [split; [intros _; exact Hex | reflexivity]|]. split.
    + split; [discriminate|]. intros [Hall _]. exfalso.
      apply Exists_exists in Hex as (e & He & Hlt).
      rewrite Forall_forall in Hall. specialize (Hall e He). lra.
    + intros e [= <-]. left. reflexivity.
Qed.
End BudgetAlgebra.

Section ItemsFacts.
Local Abbreviation keq := Qeq_bool.
Local Abbreviation hasq := (has_key Qeq_bool).
Context {V W : Type}.

Lemma comprehension_items_loop (f : Q -> V -> W) (rest : @dict Q V) : forall (acc : @dict Q W),
  (forall k, In k (keys rest) -> hasq (keys acc) k = false) ->
  uniq keq (keys rest) ->
  fold_left (fun orders '(alpha, epsilon) => set keq orders alpha (f alpha epsilon)) rest acc
  = acc ++ map (fun '(alpha, epsilon) => (alpha, f alpha epsilon)) rest.
Proof.
  induction rest as [|[k v] rest IH]; intros acc Hfresh Hu; simpl.
  - rewrite app_nil_r. reflexivity.
  - destruct Hu as [Hk Hu].
    assert (contains keq acc k = false) as Hc.
    { rewrite (get_has_key keq). apply Hfresh. left. reflexivity. }
    rewrite (set_append keq acc k _ Hc), IH.
    + rewrite <- app_assoc. reflexivity.
    + intros k' Hk'. unfold keys. rewrite map_app, (has_key_app keq).
      fold (keys acc). rewrite (Hfresh k') by (right; exact Hk'). simpl. rewrite orb_false_r.
      destruct (keq k k') eqn:E; [|reflexivity].
      simpl in Hk. rewrite (has_key_keq keq _ _ _ E) in Hk.
      rewrite (has_key_self keq _ _ Hk') in Hk. discriminate.
    + exact Hu.
Qed.

Lemma keys_map_items (f : Q -> V -> W) (d : @dict Q V) :
  keys (map (fun '(alpha, epsilon) => (alpha, f alpha epsilon)) d) = keys d.
Proof.
  unfold keys. rewrite map_map. apply map_ext. intros [a e]. reflexivity.
Qed.

(** on a budget the comprehension over [zip(alphas, epsilons)] rewrites each
    epsilon in place, and the constructor leaves the result as it is *)
Lemma init_comprehension_items (f : Q -> V -> W) (self : @dict Q V) :
  Budget.ascending (keys self) = true ->
  Budget.init (BudgetOps.comprehension_items f self)
  = map (fun '(alpha, epsilon) => (alpha, f alpha epsilon)) self.
Proof.
  intros H. unfold BudgetOps.comprehension_items.
  rewrite comprehension_items_loop; [|reflexivity | apply ascending_uniq; exact H].
  simpl. apply init_id. rewrite keys_map_items. exact H.
Qed.

Lemma get_map_items (f : Q -> V -> W) (d : @dict Q V) alpha :
  (forall a a' e, keq a a' = true -> f a e = f a' e) ->
  get keq (map (fun '(a, e) => (a, f a e)) d) alpha = option_map (f alpha) (get keq d alpha).
Proof.
  intros Hf. induction d as [|[k v] d IH]; simpl; [reflexivity|].
  destruct (keq k alpha) eqn:E; [|exact IH]. simpl. rewrite (Hf _ _ _ E). reflexivity.
Qed.
End ItemsFacts.

Section MoreBudget.
Local Open Scope Q_scope.
Local Abbreviation keq := Qeq_bool.
Local Abbreviation hasq := (has_key Qeq_bool).

Lemma is_positive_loop_iff es :
  Budget.is_positive_loop es = true <-> exists e, In e es /\ 0 <= e.
Proof.
  induction es as [|e es IH]; simpl.
  - split; [discriminate | intros (e & [] & _)].
  - destruct (Qle_bool 0 e) eqn:E.
    + apply Qle_bool_iff in E. split; [eauto | reflexivity].
    + rewrite IH. split.
      * intros (x & Hx & H0). eauto.
      * intros (x & [<- | Hx] & H0); [|eauto].
        apply Qle_bool_iff in H0. congruence.
Qed.

Lemma py_max_is_positive es m :
  Budget.py_max es = Return m -> Qle_bool 0 m = Budget.is_positive_loop es.
Proof.
  intros Hm. destruct (Budget.is_positive_loop es) eqn:Hp.
  - apply is_positive_loop_iff in Hp. apply py_max_nonneg in Hp as (m' & Hm' & H0).
    rewrite Hm in Hm'. injection Hm' as <-. apply Qle_bool_iff. exact H0.
  - destruct (Qle_bool 0 m) eqn:E; [|reflexivity].
    apply Qle_bool_iff in E.
    assert (exists x, In x es /\ 0 <= x) as Hx by (apply py_max_nonneg; eauto).
    apply is_positive_loop_iff in Hx. congruence.
Qed.

(** [__ge__]: never raises; true exactly when one shared order has enough
    budget; where [can_allocate] answers, it answers the same *)
Theorem ge_spec (self other : @Budget.t Q) :
  exists v,
    BudgetOps.ge self other = Return v /\
    (v = true <->
       exists alpha es eo,
         Budget.epsilon self alpha = Return es /\
         Budget.epsilon other alpha = Return eo /\ eo <= es) /\
    (forall w, Budget.can_allocate self other = Return w -> w = v).
Proof.
  unfold BudgetOps.ge.
  destruct (sub_spec self other) as (diff & Hsub & Hu & Hget). rewrite Hsub. simpl.
  exists (Budget.is_positive diff). split; [reflexivity|].
  assert (Budget.is_positive diff = true <->
          exists alpha es eo, Budget.epsilon self alpha = Return es /\
            Budget.epsilon other alpha = Return eo /\ eo <= es) as Hiff.
  { unfold Budget.is_positive. rewrite is_positive_loop_iff. split.
    - intros (x & Hx & H0). apply (values_get keq) in Hx as (alpha & Hx); [|exact Hu].
      rewrite Hget in Hx. unfold Budget.pointwise in Hx.
      destruct (get keq self alpha) as [es|] eqn:Es; [|discriminate].
      destruct (get keq other alpha) as [eo|] eqn:Eo; [|discriminate].
      injection Hx as <-. exists alpha, es, eo. rewrite !epsilon_Return.
      split; [exact Es|]. split; [exact Eo | lra].
    - intros (alpha & es & eo & Hs & Ho & Hle). rewrite epsilon_Return in Hs, Ho.
      exists (es - eo). split; [|lra]. apply (values_get keq); [exact Hu|].
      exists alpha. rewrite Hget. unfold Budget.pointwise. rewrite Hs, Ho. reflexivity. }
  split; [exact Hiff|].
  intros w Hw. unfold Budget.can_allocate in Hw.
  destruct (negb (Budget.is_positive_all_alphas other)); [discriminate|].
  rewrite Hsub in Hw. simpl in Hw.
  destruct (Budget.py_max (Budget.epsilons diff)) as [m|] eqn:Hm; simpl in Hw; [|discriminate].
  rewrite (py_max_is_positive _ _ Hm) in Hw. unfold Budget.is_positive.
  destruct (Budget.is_positive_loop (Budget.epsilons diff)); congruence.
Qed.

Lemma py_max2_nonneg e : 0 <= BudgetOps.py_max2 e 0.
Proof.
  unfold BudgetOps.py_max2. destruct (Qlt_bool e 0) eqn:E; [lra|].
  apply Qlt_bool_false in E. exact E.
Qed.

(** [positive]: the orders stay, each epsilon becomes [max(epsilon, 0)], and
    the result passes [is_positive_all_alphas] *)
Theorem positive_clamps (orders : @dict Q Q) :
  let self := Budget.init orders in
  BudgetOps.positive self = map (fun '(alpha, epsilon) => (alpha, BudgetOps.py_max2 epsilon 0)) self /\
  Budget.alphas (BudgetOps.positive self) = Budget.alphas self /\
  Budget.is_positive_all_alphas (BudgetOps.positive self) = true.
Proof.
  intros self.
  assert (BudgetOps.positive self
          = map (fun '(alpha, epsilon) => (alpha, BudgetOps.py_max2 epsilon 0)) self) as Heq.
  { unfold BudgetOps.positive. apply init_comprehension_items. apply (init_ascending orders). }
  split; [exact Heq|]. rewrite Heq. split.
  - unfold Budget.alphas. apply keys_map_items.
  - unfold Budget.is_positive_all_alphas. apply is_positive_all_alphas_loop_iff.
    unfold Budget.epsilons, values. rewrite map_map. rewrite Forall_forall.
    intros e He. apply list_elem_of_In, in_map_iff in He as ([a x] & <- & _). simpl.
    apply py_max2_nonneg.
Qed.
End MoreBudget.

Section Threshold.
Local Open Scope Q_scope.
Local Abbreviation keq := Qeq_bool.
Local Abbreviation hasq := (has_key Qeq_bool).

Lemma comprehension_raises {V} (f : Q -> result V) e ks : forall acc,
  (forall k, In k ks -> (exists v, f k = Return v) \/ f k = Raise e) ->
  (exists k, In k ks /\ f k = Raise e) ->
  for_each (fun orders alpha => x ← f alpha; Return (set keq orders alpha x)) ks acc = Raise e.
Proof.
  induction ks as [|k ks IH]; intros acc Hall (k0 & Hin & Hk0); [destruct Hin|].
  simpl. destruct (Hall k (or_introl Logic.eq_refl)) as [(v & Hv) | Hr].
  - rewrite Hv. simpl. apply IH.
    + intros k' Hk'. apply Hall. right. exact Hk'.
    + destruct Hin as [<- | Hin]; [congruence | eauto].
  - rewrite Hr. reflexivity.
Qed.

Lemma py_min2_le_r x y : BudgetOps.py_min2 x y <= y.
Proof.
  unfold BudgetOps.py_min2. destruct (Qlt_bool y x) eqn:E; [lra|].
  apply Qlt_bool_false in E. exact E.
Qed.

Lemma py_min2_le_l x y : BudgetOps.py_min2 x y <= x.
Proof.
  unfold BudgetOps.py_min2. destruct (Qlt_bool y x) eqn:E; [|lra].
  apply Qlt_bool_iff in E. lra.
Qed.

(** [add_with_threshold]: when [other] and [threshold] have every order of
    [self], the result has the orders of [self], each with
    [min(self + other, threshold)], so never above the threshold; when an
    order of [self] is missing in one of them, the call raises [KeyError] *)
Theorem add_with_threshold_spec (self other threshold : @Budget.t Q) :
  if forallb (fun alpha => contains keq other alpha && contains keq threshold alpha)
       (Budget.alphas self)
  then exists c,
      BudgetOps.add_with_threshold self other threshold = Return c /\
      (forall alpha, contains keq c alpha = contains keq self alpha) /\
      (forall alpha es, Budget.epsilon self alpha = Return es ->
         exists eo et,
           Budget.epsilon other alpha = Return eo /\
           Budget.epsilon threshold alpha = Return et /\
           Budget.epsilon c alpha = Return (BudgetOps.py_min2 (es + eo) et) /\
           BudgetOps.py_min2 (es + eo) et <= et /\
           BudgetOps.py_min2 (es + eo) et <= es + eo)
  else BudgetOps.add_with_threshold self other threshold = Raise KeyError.
Proof.
  unfold BudgetOps.add_with_threshold.
  set (f := fun alpha => es ← Budget.epsilon self alpha; eo ← Budget.epsilon other alpha;
                         et ← Budget.epsilon threshold alpha;
                         Return (BudgetOps.py_min2 (es + eo) et)).
  unfold Budget.comprehension.
  assert (forall k, In k (Budget.alphas self) -> exists es, get keq self k = Some es) as Hself.
  { intros k Hk. apply (has_key_get keq). apply has_key_self; [apply _ | exact Hk]. }
  destruct (forallb _ _) eqn:Hall.
  - rewrite forallb_forall in Hall.
    set (g := fun alpha =>
                match get keq self alpha, get keq other alpha, get keq threshold alpha with
                | Some es, Some eo, Some et => BudgetOps.py_min2 (es + eo) et
                | _, _, _ => 0
                end).
    destruct (comprehension_spec f g (Budget.alphas self) []) as (o & Ho & Hgo).
    { intros k Hk. destruct (Hself k Hk) as (es & Hes).
      specialize (Hall k Hk). apply andb_true_iff in Hall as [H1 H2]. unfold contains in H1, H2.
      unfold f, g, Budget.epsilon, item. rewrite Hes.
      destruct (get keq other k); [|discriminate].
      destruct (get keq threshold k); [|discriminate]. reflexivity. }
    { intros k k' Hkk _. unfold g. rewrite !(get_keq keq _ _ _ Hkk). reflexivity. }
    exists (Budget.init o). rewrite Ho. simpl. split; [reflexivity|]. split.
    + intros alpha. unfold contains. rewrite init_get, Hgo. simpl.
      fold (contains keq self alpha). rewrite (get_has_key keq).
      unfold Budget.alphas. destruct (hasq (keys self) alpha); reflexivity.
    + intros alpha es Hes. rewrite epsilon_Return in Hes.
      assert (hasq (keys self) alpha = true) as Hk by (apply (has_key_get keq); eauto).
      apply (has_key_In keq) in Hk as (k & Hk & Hkk).
      specialize (Hall k Hk). apply andb_true_iff in Hall as [H1 H2]. unfold contains in H1, H2.
      rewrite (get_keq keq other _ _ Hkk) in H1. rewrite (get_keq keq threshold _ _ Hkk) in H2.
      destruct (get keq other alpha) as [eo|] eqn:Eo; [|discriminate].
      destruct (get keq threshold alpha) as [et|] eqn:Et; [|discriminate].
      exists eo, et. rewrite !epsilon_Return. split; [exact Eo|]. split; [exact Et|].
      split; [|split; [apply py_min2_le_r | apply py_min2_le_l]].
      rewrite init_get, Hgo. unfold Budget.alphas.
      rewrite <- (has_key_keq keq _ _ _ Hkk).
      rewrite (has_key_self keq _ _ Hk). unfold g.
      rewrite Hes, Eo, Et. reflexivity.
  - rewrite (comprehension_raises f KeyError); [reflexivity| |].
    + intros k Hk. destruct (Hself k Hk) as (es & Hes).
      unfold f, Budget.epsilon, item. rewrite Hes.
      destruct (get keq other k); [|right; reflexivity].
      destruct (get keq threshold k); [left; eauto | right; reflexivity].
    + apply not_true_iff_false in Hall.
      assert (exists k, In k (Budget.alphas self) /\
                (contains keq other k && contains keq threshold k) = false) as (k & Hk & Hc).
      { clear -Hall. induction (Budget.alphas self) as [|k ks IH]; simpl in Hall; [congruence|].
        destruct (contains keq other k && contains keq threshold k) eqn:E.
        - destruct IH as (k' & Hk' & Hc); [exact Hall|]. exists k'. split; [right|]; assumption.
        - exists k. split; [left; reflexivity | exact E]. }
      exists k. split; [exact Hk|]. destruct (Hself k Hk) as (es & Hes).
      unfold f, Budget.epsilon, item, contains in *. rewrite Hes.
      destruct (get keq other k); [|reflexivity].
      destruct (get keq threshold k); [discriminate | reflexivity].
Qed.
End Threshold.

Section Normalize.
Local Open Scope Q_scope.
Local Abbreviation keq := Qeq_bool.
Local Abbreviation hasq := (has_key Qeq_bool).

Lemma normalize_loop (a b : @Budget.t Q) ks : forall acc,
  (forall k, In k ks -> contains keq a k = true /\ contains keq b k = true) ->
  exists orders,
    for_each
      (fun orders alpha =>
         eb ← Budget.epsilon b alpha;
         if Qlt_bool 0 eb
         then
           ea ← Budget.epsilon a alpha;
           eb ← Budget.epsilon b alpha;
           Return (set keq orders alpha (ea / eb))
         else Return orders)
      ks acc = Return orders /\
    forall alpha,
      get keq orders alpha
      = match (if hasq ks alpha then get keq a alpha else None), get keq b alpha with
        | Some ea, Some eb => if Qlt_bool 0 eb then Some (ea / eb) else get keq acc alpha
        | _, _ => get keq acc alpha
        end.
Proof.
  induction ks as [|k ks IH]; intros acc Hin; simpl.
  - exists acc. split; [reflexivity|]. reflexivity.
  - destruct (Hin k (or_introl Logic.eq_refl)) as [Ha Hb]. unfold contains in Ha, Hb.
    destruct (get keq a k) as [ea|] eqn:Ea; [|discriminate].
    destruct (get keq b k) as [eb|] eqn:Eb; [|discriminate].
    unfold Budget.epsilon, item. rewrite Eb. simpl.
    destruct (Qlt_bool 0 eb) eqn:Hpos.
    + rewrite Ea. simpl.
      destruct (IH (set keq acc k (ea / eb))) as (o & Ho & Hgo).
      { intros k' Hk'. apply Hin. right. exact Hk'. }
      exists o. split; [exact Ho|]. intros alpha. rewrite Hgo, (get_set keq).
      destruct (keq k alpha) eqn:E; simpl.
      * rewrite <- !(get_keq keq _ _ _ E), Ea, Eb, Hpos.
        destruct (hasq ks alpha); reflexivity.
      * reflexivity.
    + destruct (IH acc) as (o & Ho & Hgo).
      { intros k' Hk'. apply Hin. right. exact Hk'. }
      exists o. split; [exact Ho|]. intros alpha. rewrite Hgo.
      destruct (keq k alpha) eqn:E; simpl; [|reflexivity].
      rewrite <- !(get_keq keq _ _ _ E), Ea, Eb, Hpos.
      destruct (hasq ks alpha); reflexivity.
Qed.

(** [normalize_by]: never raises; the result has exactly the orders the two
    budgets share at which [other] is positive, each with the quotient *)
Theorem normalize_by_spec (self other : @Budget.t Q) :
  exists c,
    BudgetOps.normalize_by self other = Return c /\
    forall alpha,
      get keq c alpha
      = match get keq self alpha, get keq other alpha with
        | Some ea, Some eb => if Qlt_bool 0 eb then Some (ea / eb) else None
        | _, _ => None
        end.
Proof.
  unfold BudgetOps.normalize_by.
  destruct (same_support_spec self other) as (a & b & Hss & Hua & Hub & Hga & Hgb).
  rewrite Hss. simpl.
  destruct (normalize_loop a b (Budget.alphas a) []) as (o & Ho & Hgo).
  { intros k Hk.
    assert (contains keq a k = true) as Ha.
    { rewrite (get_has_key keq). apply has_key_self; [apply _ | exact Hk]. }
    split; [exact Ha|]. unfold contains in *. rewrite Hga in Ha. rewrite Hgb.
    destruct (Budget.shared self other k) eqn:E; [|discriminate].
    unfold Budget.shared, contains in E.
    destruct (get keq self k); [|discriminate]. destruct (get keq other k); [reflexivity | discriminate]. }
  rewrite Ho. simpl. exists (Budget.init o). split; [reflexivity|].
  intros alpha. rewrite init_get, Hgo. unfold Budget.alphas. rewrite <- (get_has_key keq).
  unfold contains. rewrite Hga, Hgb. unfold Budget.shared, contains. simpl.
  destruct (get keq self alpha) as [ea|]; destruct (get keq other alpha) as [eb|]; simpl;
    try reflexivity.
Qed.

Lemma mul_pointwise (self : @Budget.t Q) (n : Q) :
  exists c,
    BudgetOps.mul self n = Return c /\
    forall alpha, get keq c alpha = option_map (fun e => e * n) (get keq self alpha).
Proof.
  unfold BudgetOps.mul.
  set (f := fun alpha => e ← Budget.epsilon self alpha; Return (e * n)).
  unfold Budget.comprehension.
  set (g := fun alpha => match get keq self alpha with Some e => e * n | None => 0 end).
  destruct (comprehension_spec f g (Budget.alphas self) []) as (o & Ho & Hgo).
  { intros k Hk. unfold f, g, Budget.epsilon, item.
    assert (exists e, get keq self k = Some e) as (e & He).
    { apply (has_key_get keq). apply has_key_self; [apply _ | exact Hk]. }
    rewrite He. reflexivity. }
  { intros k k' Hkk _. unfold g. rewrite (get_keq keq _ _ _ Hkk). reflexivity. }
  rewrite Ho. simpl. exists (Budget.init o). split; [reflexivity|].
  intros alpha. rewrite init_get, Hgo. unfold Budget.alphas. rewrite <- (get_has_key keq).
  unfold contains, g. destruct (get keq self alpha); reflexivity.
Qed.

(** [__mul__]: never raises; the orders stay and each epsilon is multiplied *)
Theorem mul_scales (self : @Budget.t Q) (n : Q) :
  exists c,
    BudgetOps.mul self n = Return c /\
    forall alpha, get keq c alpha = option_map (fun e => e * n) (get keq self alpha).
Proof. apply mul_pointwise. Qed.
End Normalize.

Section RoundTrips.
Local Abbreviation keq := Qeq_bool.
Local Abbreviation hasq := (has_key Qeq_bool).

Lemma keys_combine {V} (ks : list Q) : forall (vs : list V),
  length ks = length vs -> keys (combine ks vs) = ks.
Proof.
  induction ks as [|k ks IH]; intros [|v vs] H; simpl in *; try reflexivity; try discriminate.
  f_equal. apply IH. congruence.
Qed.

Lemma values_combine {V} (ks : list Q) : forall (vs : list V),
  length ks = length vs -> values (combine ks vs) = vs.
Proof.
  induction ks as [|k ks IH]; intros [|v vs] H; simpl in *; try reflexivity; try discriminate.
  f_equal. apply IH. congruence.
Qed.

Lemma map_items_id {V} (d : @dict Q V) : map (fun '(alpha, epsilon) => (alpha, epsilon)) d = d.
Proof. induction d as [|[k v] d IH]; simpl; congruence. Qed.

(** [from_epsilon_list]: with as many epsilons as orders and the orders
    strictly increasing (as in the default [ALPHAS]), the budget lists the
    orders and the epsilons exactly as given *)
Theorem from_epsilon_list_round_trip (epsilon_list alpha_list : list Q) :
  length alpha_list = length epsilon_list ->
  Budget.ascending alpha_list = true ->
  exists b,
    BudgetOps.from_epsilon_list epsilon_list alpha_list = Return b /\
    Budget.alphas b = alpha_list /\
    Budget.epsilons b = epsilon_list.
Proof.
  intros Hlen Hasc. unfold BudgetOps.from_epsilon_list.
  rewrite Hlen, Nat.eqb_refl. simpl.
  pose proof (init_comprehension_items (fun _ e => e) (combine alpha_list epsilon_list)) as H.
  unfold BudgetOps.comprehension_items in H. rewrite map_items_id in H.
  rewrite H by (rewrite keys_combine; assumption).
  exists (combine alpha_list epsilon_list). split; [reflexivity|]. split.
  - apply keys_combine. exact Hlen.
  - apply values_combine. exact Hlen.
Qed.

Lemma from_epsilon_list_round_trip_witness :
  exists b,
    BudgetOps.from_epsilon_list [1; 1 # 2; 0]%Q [3 # 2; 2; 64]%Q = Return b /\
    Budget.alphas b = [3 # 2; 2; 64]%Q /\
    Budget.epsilons b = [1; 1 # 2; 0]%Q.
Proof.
  apply (from_epsilon_list_round_trip [1; 1 # 2; 0]%Q [3 # 2; 2; 64]%Q); reflexivity.
Defined.

(** [from_epsilon_list]: lists of different lengths are refused *)
Lemma from_epsilon_list_length_mismatch (epsilon_list alpha_list : list Q) :
  length alpha_list <> length epsilon_list ->
  BudgetOps.from_epsilon_list epsilon_list alpha_list = Raise ValueError.
Proof.
  intros H. unfold BudgetOps.from_epsilon_list.
  apply Nat.eqb_neq in H. rewrite H. reflexivity.
Qed.

End RoundTrips.

(** ** schedulers/metrics.py: the vectorised overflow metrics *)

Section DropLoop.
Import SoftmaxOverflow VectorizedBatchOverflowRelevance.

Lemma drop_body_row (overflow : matrix) (block_id : nat) row :
  overflow !! block_id = Some row -> row <> [] ->
  drop_body overflow block_id = Return (<[block_id := drop_row row]> overflow).
Proof.
  intros Hrow Hne. unfold drop_body, drop_row. rewrite Hrow.
  destruct row as [|x row]; [congruence|]. simpl.
  destruct (float_le _ _); [reflexivity|].
  f_equal. symmetry. apply list_insert_id. exact Hrow.
Qed.

Lemma drop_loop_from (n : nat) : forall (k : nat) (done todo : matrix),
  length done = k -> length todo = n -> Forall (fun row => row <> []) todo ->
  for_each drop_body (seq k n) (done ++ todo) = Return (done ++ map drop_row todo).
Proof.
  induction n as [|n IH]; intros k done todo Hk Hn Hne.
  - destruct todo; [|discriminate]. reflexivity.
  - destruct todo as [|row todo]; [discriminate|].
    apply Forall_cons in Hne as [Hrow Hne]. simpl.
    rewrite (drop_body_row _ _ row).
    + simpl. replace (<[k:=drop_row row]> (done ++ row :: todo))
        with ((done ++ [drop_row row]) ++ todo).
      * rewrite (IH (S k) (done ++ [drop_row row]) todo).
        -- rewrite <- app_assoc. reflexivity.
        -- rewrite length_app. simpl. lia.
        -- simpl in Hn. lia.
        -- exact Hne.
      * unfold matrix in *. rewrite <- app_assoc. simpl. rewrite insert_app_r_alt by lia.
        replace (k - length done)%nat with 0%nat by lia. reflexivity.
    + unfold matrix in *. rewrite lookup_app_r by lia.
      replace (k - length done)%nat with 0%nat by lia. reflexivity.
    + exact Hrow.
Qed.

Lemma drop_loop_whole (overflow : matrix) :
  Forall (fun row => row <> []) overflow ->
  for_each drop_body (seq 0 (length overflow)) overflow = Return (map drop_row overflow).
Proof.
  intros Hne. apply (drop_loop_from (length overflow) 0%nat [] overflow); auto.
Qed.

(** The loop over blocks without contention, in [SoftmaxOverflow] and in
    [VectorizedBatchOverflowRelevance]: a row whose smallest overflow is not
    positive comes out as NaN at every order (from [ndarray.fill], which
    returns [None]), and every other row is left as it is *)
Theorem drop_loop_rows (overflow : matrix) :
  Forall (fun row => row <> []) overflow ->
  for_each drop_body (seq 0 (length overflow)) overflow = Return (map drop_row overflow).
Proof. apply drop_loop_whole. Qed.

Lemma drop_loop_rows_witness :
  for_each drop_body (seq 0 2) [[Fin 1; Fin (-1)]; [Fin 1; Fin 2]]
  = Return [[NaN; NaN]; [Fin 1; Fin 2]].
Proof.
  apply (drop_loop_rows [[Fin 1; Fin (-1)]; [Fin 1; Fin 2]]).
  repeat constructor; discriminate.
Defined.
End DropLoop.

Section VectorizedRank.
Import SoftmaxOverflow VectorizedBatchOverflowRelevance SoftmaxExample.

Lemma map_result_Forall2 {A B} (f : A -> result B) xs : forall ys,
  map_result f xs = Return ys -> Forall2 (fun x y => f x = Return y) xs ys.
Proof.
  induction xs as [|x xs IH]; intros ys H; simpl in H.
  - injection H as <-. constructor.
  - destruct (f x) as [y|] eqn:Hy; simpl in H; [|discriminate].
    destruct (map_result f xs) as [ys'|] eqn:Hys; simpl in H; [|discriminate].
    injection H as <-. constructor; [exact Hy | apply IH; reflexivity].
Qed.

Lemma map_result_length {A B} (f : A -> result B) xs ys :
  map_result f xs = Return ys -> length ys = length xs.
Proof. intros H. apply map_result_Forall2, Forall2_length in H. congruence. Qed.

Lemma inplace_add_shape (overflow sum_demands total : matrix) :
  inplace_add overflow sum_demands = Return total -> same_shape total overflow.
Proof.
  unfold inplace_add. destruct (elementwise float_add overflow sum_demands) as [t|]; [|discriminate].
  simpl. destruct (_ && _) eqn:E; [|discriminate]. intros [= <-].
  apply andb_true_iff in E as [Hlen Hrows]. apply Nat.eqb_eq in Hlen.
  unfold same_shape. revert overflow Hlen Hrows.
  induction t as [|row t IH]; intros [|row' overflow] Hlen Hrows; try discriminate; constructor.
  - simpl in Hrows. apply andb_true_iff in Hrows as [H _]. apply Nat.eqb_eq in H. exact H.
  - apply IH; [simpl in Hlen; congruence|].
    simpl in Hrows. apply andb_true_iff in Hrows as [_ H]. exact H.
Qed.

Lemma overflow_matrix_shape (blocks : @dict nat Block) (tasks : list Task) truncate overflow :
  overflow_matrix blocks tasks truncate = Return overflow ->
  length overflow = length blocks /\
  Forall (fun row => length row = length Budget.ALPHAS) overflow.
Proof.
  unfold overflow_matrix. cbv zeta.
  destruct (map_result _ (seq 0 (length blocks))) as [rows|] eqn:Hrows; simpl; [|discriminate].
  destruct (sum_demands tasks) as [demands|]; simpl; [|discriminate].
  intros H. apply inplace_add_shape in H. unfold same_shape in H.
  pose proof (map_result_length _ _ _ Hrows) as Hlen. rewrite length_seq in Hlen.
  split; [apply Forall2_length in H; unfold matrix in *; lia|].
  apply map_result_Forall2 in Hrows.
  assert (Forall (fun row => length row = length Budget.ALPHAS) rows) as Hall.
  { clear -Hrows. induction Hrows as [|b row bs rows Hb _ IH]; constructor; [|exact IH].
    unfold overflow_row in Hb. apply map_result_length in Hb. exact Hb. }
  clear -H Hall. induction H as [|r r' t rows Hr _ IH]; constructor.
  - apply Forall_cons in Hall as [Hall _]. rewrite Hr. exact Hall.
  - apply IH. apply Forall_cons in Hall as [_ Hall]. exact Hall.
Qed.

Lemma relevance_rows_spec (blocks : @dict nat Block) (tasks : list Task)
    (truncate_available_budget : bool) (overflow : matrix) :
  overflow_matrix blocks tasks truncate_available_budget = Return overflow ->
  compute_relevance_matrix blocks tasks true truncate_available_budget
  = Return (map (fun row => map np_reciprocal (drop_row row)) overflow).
Proof.
  intros H. unfold compute_relevance_matrix. cbv zeta. rewrite H. simpl.
  destruct (overflow_matrix_shape _ _ _ _ H) as [Hlen Hrows].
  rewrite <- Hlen, drop_loop_whole.
  - simpl. rewrite map_map. reflexivity.
  - eapply Forall_impl; [exact Hrows|]. intros row Hrow Hnil. subst row. discriminate Hrow.
Qed.

(** [VectorizedBatchOverflowRelevance.compute_relevance_matrix] with
    [drop_blocks_with_no_contention] and no pending task: the row of a block
    whose smallest overflow is not positive is NaN at every order, and every
    other row holds the reciprocals of its overflows *)
Theorem vectorized_relevance_rows (blocks : @dict nat Block)
    (truncate_available_budget : bool) (overflow : matrix) :
  overflow_matrix blocks [] truncate_available_budget = Return overflow ->
  compute_relevance_matrix blocks [] true truncate_available_budget
  = Return (map (fun row => map np_reciprocal (drop_row row)) overflow).
Proof. apply relevance_rows_spec. Qed.

Lemma vectorized_relevance_rows_witness :
  compute_relevance_matrix [(0%nat, idle_block)] [] true false
  = Return (map (fun row => map np_reciprocal (drop_row row)) [replicate 12 (Fin (-1))]).
Proof.
  apply (vectorized_relevance_rows [(0%nat, idle_block)] false [replicate 12 (Fin (-1))]).
  vm_compute. reflexivity.
Defined.
End VectorizedRank.

Section VectorizedApply.
Import SoftmaxOverflow VectorizedBatchOverflowRelevance SoftmaxExample.
Variable np_exp : Q -> float64.




End VectorizedApply.


Section FcfsFacts.
Local Open Scope Q_scope.




End FcfsFacts.

Section DynamicFlat.
Import DynamicFlatRelevance.
Local Open Scope Q_scope.
Local Abbreviation keq := Qeq_bool.

Lemma dynamic_alpha_step (blocks : @dict nat Block) (block_id : nat) (block : Block)
    (task_budget : @Budget.t Q) (cost alpha demand remaining_budget : Q) :
  get Nat.eqb blocks block_id = Some block ->
  get keq task_budget alpha = Some demand ->
  get keq (budget block) alpha = Some remaining_budget ->
  alpha_body blocks block_id task_budget cost alpha
  = Return (if Qlt_bool 0 remaining_budget then cost + demand / remaining_budget else cost).
Proof.
  intros Hb Hd Hr. unfold alpha_body, Budget.epsilon, item. rewrite Hd. simpl.
  rewrite Hb. simpl. rewrite Hr. simpl. destruct (Qlt_bool 0 remaining_budget); reflexivity.
Qed.




Lemma dynamic_block_step (blocks : @dict nat Block) (block_id : nat) (block : Block)
    (task_budget : @Budget.t Q) (cost : Q) :
  get Nat.eqb blocks block_id = Some block ->
  block_body blocks cost (block_id, task_budget)
  = for_each (alpha_body blocks block_id task_budget) (Budget.alphas (initial_budget block)) cost.
Proof. intros Hb. unfold block_body, item. rewrite Hb. reflexivity. Qed.

Lemma dynamic_alpha_loop_exhausted (blocks : @dict nat Block) (block_id : nat) (block : Block)
    (task_budget : @Budget.t Q) (alphas : list Q) (cost : Q) :
  get Nat.eqb blocks block_id = Some block ->
  (forall alpha, In alpha alphas ->
     contains keq task_budget alpha = true /\ contains keq (budget block) alpha = true) ->
  (forall alpha remaining_budget, In alpha alphas ->
     get keq (budget block) alpha = Some remaining_budget -> remaining_budget <= 0) ->
  for_each (alpha_body blocks block_id task_budget) alphas cost = Return cost.
Proof.
  intros Hb. induction alphas as [|alpha alphas IH]; intros Hok Hex; [reflexivity|].
  destruct (Hok alpha (or_introl Logic.eq_refl)) as [Hd Hr]. unfold contains in Hd, Hr.
  destruct (get keq task_budget alpha) as [demand|] eqn:Ed; [|discriminate].
  destruct (get keq (budget block) alpha) as [remaining_budget|] eqn:Er; [|discriminate].
  cbn [for_each]. rewrite (dynamic_alpha_step _ _ _ _ _ _ _ _ Hb Ed Er).
  assert (Qlt_bool 0 remaining_budget = false) as ->.
  { apply Qlt_bool_false. apply (Hex alpha); [left; reflexivity | exact Er]. }
  simpl. apply IH.
  - intros a Ha. apply Hok. right. exact Ha.
  - intros a r Ha. apply Hex. right. exact Ha.
Qed.

(** [DynamicFlatRelevance.apply] on a task that asks only for exhausted
    blocks (no order of the block has budget left): the cost is zero and
    the rank is infinite, the highest there is *)
Theorem dynamic_flat_relevance_exhausted (task : Task) (blocks : @dict nat Block) :
  Forall (entry_ok blocks) (budget_per_block task) ->
  (forall block_id task_budget block,
     In (block_id, task_budget) (budget_per_block task) ->
     get Nat.eqb blocks block_id = Some block -> exhausted block) ->
  apply task blocks = Return (PInf, set_cost task 0).
Proof.
  intros Hok Hex. unfold apply.
  assert (for_each (block_body blocks) (budget_per_block task) 0 = Return 0) as ->.
  { generalize 0 as cost. revert Hok Hex.
    induction (budget_per_block task) as [|[block_id task_budget] entries IH];
      intros Hok Hex cost; [reflexivity|].
    apply Forall_cons in Hok as [(block & Hb & Halphas) Hok]. simpl in Hb, Halphas.
    cbn [for_each]. rewrite (dynamic_block_step _ _ _ _ _ Hb).
    rewrite (dynamic_alpha_loop_exhausted blocks block_id block task_budget _ cost Hb Halphas).
    - simpl. apply IH; [exact Hok|].
      intros b tb bl Hin. apply (Hex b tb bl). right. exact Hin.
    - apply (Hex block_id task_budget block); [left; reflexivity | exact Hb]. }
  reflexivity.
Qed.

Lemma dynamic_flat_relevance_exhausted_witness :
  let spent :=
    {| initial_budget := Budget.init [(2, 1)]; budget := Budget.init [(2, 0)];
       available_unlocked_budget := Budget.init [(2, 0)];
       truncated_available_unlocked_budget := Budget.init [(2, 0)] |} in
  let task :=
    {| id := 0; profit := 1; budget_per_block := [(0%nat, Budget.init [(2, 1 # 2)])];
       cost := 0; demand_matrix := [] |} in
  apply task [(0%nat, spent)] = Return (PInf, set_cost task 0).
Proof.
  intros spent task. apply dynamic_flat_relevance_exhausted.
  - constructor; [|constructor]. exists spent. split; [reflexivity|].
    intros alpha [<- | []]. split; reflexivity.
  - intros block_id task_budget block [[= <- <-] | []] [= <-] alpha r [<- | []] [= <-].
    vm_compute. discriminate.
Defined.

End DynamicFlat.

(** ** schedulers/metrics.py: more on the local knapsack *)

Section KnapsackMore.
Import Knapsack.
Local Open Scope Q_scope.

Lemma solve_le_length (capacity : float64) (task_demands : @dict nat Q) :
  (solve_local_knapsack_no_profits capacity task_demands <= length task_demands)%nat.
Proof.
  unfold solve_local_knapsack_no_profits. destruct (float_le capacity (Fin 0)); [lia|].
  cbv zeta.
  pose proof (knapsack_loop_le capacity (sorted Qle_bool (values task_demands)) (Fin 0) 0) as H.
  rewrite (Permutation_length (sorted_Permutation Qle_bool (values task_demands))) in H.
  replace (length (values task_demands)) with (length task_demands) in H
    by (unfold values; rewrite length_map; reflexivity).
  lia.
Qed.

(** [solve_local_knapsack_no_profits] never counts more tasks than there
    are, and counts all of them when the capacity is not [<= 0] and every
    running sum of their demands, added in ascending order in floating
    point, is at most the capacity *)
Theorem knapsack_count_bounds (task_demands : @dict nat Q) :
  (forall capacity,
     (solve_local_knapsack_no_profits capacity task_demands <= length task_demands)%nat) /\
  (forall capacity,
     float_le capacity (Fin 0) = false ->
     (forall j, (1 <= j <= length task_demands)%nat ->
        float_le (float_sum (take j (sorted Qle_bool (values task_demands)))) capacity = true) ->
     solve_local_knapsack_no_profits capacity task_demands = length task_demands).
Proof.
  split; [intros capacity; apply solve_le_length|].
  intros capacity Hc Hfit. apply Nat.le_antisymm; [apply solve_le_length|].
  destruct (solve_prefix capacity task_demands Hc) as (Hk & _ & Hnext).
  assert (length (sorted Qle_bool (values task_demands)) = length task_demands) as Hlen.
  { rewrite (Permutation_length (sorted_Permutation Qle_bool (values task_demands))).
    unfold values. apply length_map. }
  rewrite Hlen in *.
  destruct (Nat.le_gt_cases (length task_demands)
              (solve_local_knapsack_no_profits capacity task_demands)) as [H | H]; [exact H|].
  specialize (Hnext H). rewrite Hfit in Hnext by lia. discriminate.
Qed.

(** [solve_local_knapsack_no_profits] is monotone in the capacity: more
    budget never packs fewer tasks *)
Theorem knapsack_capacity_monotone (c c' : Q) (task_demands : @dict nat Q) :
  c <= c' ->
  (solve_local_knapsack_no_profits (Fin c) task_demands
   <= solve_local_knapsack_no_profits (Fin c') task_demands)%nat.
Proof.
  intros Hle. destruct (Qlt_le_dec 0 c) as [Hc | Hc].
  - rewrite (solve_with_capacity (Fin c) task_demands (positive_capacity c Hc)).
    rewrite (solve_with_capacity (Fin c') task_demands); [|apply positive_capacity; lra].
    apply knapsack_loop_monotone; [apply sorted_StronglySorted | exact Hle].
  - rewrite solve_no_capacity; [lia|]. simpl. apply Qle_bool_iff. exact Hc.
Qed.

Lemma knapsack_capacity_monotone_witness :
  (solve_local_knapsack_no_profits (Fin (1 # 2)) [(0, 1 # 4); (1, 1 # 2); (2, 1 # 3)]%nat
   <= solve_local_knapsack_no_profits (Fin 1) [(0, 1 # 4); (1, 1 # 2); (2, 1 # 3)]%nat)%nat.
Proof.
  apply knapsack_capacity_monotone. vm_compute. discriminate.
Defined.
End KnapsackMore.

(** ** simulator: the termination clock and the producer of blocks *)

Section TerminationClockMore.
Import ResourceManager.

Lemma termination_clock_run (config : Config) (fires : event -> option nat) :
  match fires block_production_terminated with
  | None => run fires start (termination_clock config) = None
  | Some t_block =>
      exists final t_task,
        run fires start (termination_clock config) = Some final /\
        now final = t_block + set_block_arrival_time config + data_lifetime config /\
        triggered_at fires final task_production_terminated = Some t_task /\
        t_task <= t_block + set_block_arrival_time config
  end.
Proof.
  unfold termination_clock, start. cbv zeta.
  generalize (set_block_arrival_time config) as i. intros i. simpl.
  destruct (fires block_production_terminated) as [t_block|] eqn:Hb; [|reflexivity].
  simpl. unfold triggered_at. simpl.
  destruct (fires task_production_terminated) as [t|] eqn:Ht.
  - destruct (Nat.leb_spec t (t_block + i)) as [Hle | Hgt].
    + eexists _, t. split; [reflexivity|]. unfold triggered_at. simpl.
      split; [lia|]. split; [|lia].
      destruct (Nat.leb_spec t (t_block + i + data_lifetime config)); [reflexivity | lia].
    + eexists _, (t_block + i). split; [reflexivity|].
      unfold triggered_at. simpl. split; [lia|]. split; [reflexivity | lia].
  - eexists _, (t_block + i). split; [reflexivity|].
    unfold triggered_at. simpl. split; [lia|]. split; [reflexivity | lia].
Qed.

(** The termination clock among other processes, whatever they trigger and
    when: it never resumes if block production is never declared
    terminated; otherwise it ends [block_arrival_interval + data_lifetime]
    after that declaration, and task production is terminated by then, at
    the latest [block_arrival_interval] after the declaration *)
Theorem termination_clock_any_environment (config : Config) (fires : event -> option nat) :
  match fires block_production_terminated with
  | None => run fires start (termination_clock config) = None
  | Some t_block =>
      exists final t_task,
        run fires start (termination_clock config) = Some final /\
        now final = t_block + set_block_arrival_time config + data_lifetime config /\
        triggered_at fires final task_production_terminated = Some t_task /\
        t_task <= t_block + set_block_arrival_time config
  end.
Proof. apply termination_clock_run. Qed.
End TerminationClockMore.

Section BlockProducer.
Import ResourceManager Blocks.

Lemma initial_blocks_loop (n : nat) : forall s,
  let s' := repeat_loop n start_block s in
  Blocks.now s' = Blocks.now s /\
  blocks_count s' = blocks_count s + n /\
  rev (started s') = rev (started s) ++ map (fun block_id => (block_id, Blocks.now s)) (seq (blocks_count s) n) /\
  last_item s' = last_item s /\
  Blocks.block_production_terminated s' = Blocks.block_production_terminated s.
Proof.
  induction n as [|n IH]; intros s; cbn [repeat_loop].
  - cbv zeta. rewrite app_nil_r, Nat.add_0_r. auto.
  - specialize (IH (start_block s)). cbv zeta in IH. cbn [start_block Blocks.now blocks_count
      started last_item Blocks.block_production_terminated] in IH.
    destruct IH as (H1 & H2 & H3 & H4 & H5). cbv zeta.
    split; [exact H1|]. split; [rewrite H2; lia|]. split; [|split; assumption].
    rewrite H3. cbn [rev seq map]. rewrite <- app_assoc. reflexivity.
Qed.

Lemma online_blocks_loop (interval n : nat) : forall s,
  let s' := repeat_loop n (fun s => timeout interval (start_block s)) s in
  Blocks.now s' = Blocks.now s + n * interval /\
  blocks_count s' = blocks_count s + n /\
  rev (started s')
    = rev (started s)
      ++ map (fun block_id => (block_id, Blocks.now s + (block_id - blocks_count s) * interval))
           (seq (blocks_count s) n) /\
  last_item s' = last_item s /\
  Blocks.block_production_terminated s' = Blocks.block_production_terminated s.
Proof.
  induction n as [|n IH]; intros s; cbn [repeat_loop].
  - cbv zeta. rewrite app_nil_r, Nat.add_0_r. simpl. auto.
  - specialize (IH (timeout interval (start_block s))). cbv zeta in IH.
    cbn [timeout start_block Blocks.now blocks_count started last_item
         Blocks.block_production_terminated] in IH.
    destruct IH as (H1 & H2 & H3 & H4 & H5). cbv zeta.
    split; [rewrite H1; lia|]. split; [rewrite H2; lia|]. split; [|split; assumption].
    rewrite H3. cbn [rev seq map]. rewrite <- app_assoc. cbn [app]. f_equal. f_equal.
    + f_equal. rewrite Nat.sub_diag. lia.
    + apply map_ext_in. intros block_id Hin. apply in_seq in Hin. f_equal.
      replace (block_id - blocks_count s) with (S (block_id - S (blocks_count s))) by lia. lia.
Qed.

Lemma block_producer_run (blocks : BlocksConfig) (config : Config) :
  let s := block_producer blocks config Blocks.start in
  let online := max_num blocks - initial_blocks_num blocks in
  rev (started s)
    = map (fun block_id => (block_id, arrival_time blocks config block_id))
        (seq 0 (initial_blocks_num blocks + online)) /\
  blocks_count s = initial_blocks_num blocks + online /\
  last_item s = negb (Nat.eqb (initial_blocks_num blocks) (max_num blocks)) /\
  Blocks.block_production_terminated s = Some (online * set_block_arrival_time config) /\
  Blocks.now s = online * set_block_arrival_time config.
Proof.
  intros s online. unfold s, block_producer. cbv zeta.
  fold online.
  pose proof (initial_blocks_loop (initial_blocks_num blocks) Blocks.start) as H1.
  cbv zeta in H1. set (s1 := repeat_loop (initial_blocks_num blocks) start_block Blocks.start) in *.
  pose proof (online_blocks_loop (set_block_arrival_time config) online s1) as H2.
  cbv zeta in H2.
  set (s2 := repeat_loop online _ s1) in *.
  destruct H1 as (N1 & C1 & S1 & L1 & T1). destruct H2 as (N2 & C2 & S2 & L2 & T2).
  cbn [Blocks.start Blocks.now blocks_count started last_item
       Blocks.block_production_terminated rev app] in N1, C1, S1, L1, T1.
  assert (Blocks.block_production_terminated s2 = None) as T by congruence.
  assert (rev (started s2)
          = map (fun block_id => (block_id, arrival_time blocks config block_id))
              (seq 0 (initial_blocks_num blocks + online))) as Hs.
  { rewrite S2, S1, C1, N1, seq_app, map_app.
    match goal with
    | |- ?a ++ ?b = ?c ++ ?d => assert (a = c) as ->; [| assert (b = d) as ->; [|reflexivity]]
    end.
    - apply map_ext_in. intros block_id Hin. apply in_seq in Hin. unfold arrival_time.
      replace (block_id - initial_blocks_num blocks) with 0 by lia. reflexivity.
    - apply map_ext_in. intros block_id Hin. unfold arrival_time. reflexivity. }
  destruct (negb (initial_blocks_num blocks =? max_num blocks));
    cbn [Blocks.block_production_terminated]; rewrite T;
    cbn [started blocks_count last_item Blocks.block_production_terminated Blocks.now];
    (split; [exact Hs|]); (split; [lia|]); (split; [congruence || reflexivity|]);
    rewrite N2, N1; split; reflexivity.
Qed.

(** [block_producer], started with the simulation: the blocks get the ids
    0, 1, 2, ... in the order they are started; the initial blocks are all
    started at time 0 and the others one every [block_arrival_interval];
    [LastItem] is sent exactly when online blocks were asked for; and block
    production is declared terminated one interval after the last block *)
Theorem block_producer_schedule (blocks : BlocksConfig) (config : Config) :
  let s := block_producer blocks config Blocks.start in
  let online := max_num blocks - initial_blocks_num blocks in
  rev (started s)
    = map (fun block_id => (block_id, arrival_time blocks config block_id))
        (seq 0 (initial_blocks_num blocks + online)) /\
  blocks_count s = initial_blocks_num blocks + online /\
  last_item s = negb (Nat.eqb (initial_blocks_num blocks) (max_num blocks)) /\
  Blocks.block_production_terminated s = Some (online * set_block_arrival_time config) /\
  Blocks.now s = online * set_block_arrival_time config.
Proof. apply block_producer_run. Qed.

(** The producer and the clock together: when the producer is the one that
    declares block production terminated, the termination clock ends
    [block_arrival_interval + data_lifetime] after the last online block
    interval *)
Theorem simulation_end_time (blocks : BlocksConfig) (config : Config)
    (fires : event -> option nat) :
  fires ResourceManager.block_production_terminated
    = Blocks.block_production_terminated (block_producer blocks config Blocks.start) ->
  exists final,
    run fires ResourceManager.start (termination_clock config) = Some final /\
    ResourceManager.now final
    = (max_num blocks - initial_blocks_num blocks) * set_block_arrival_time config
      + set_block_arrival_time config + data_lifetime config.
Proof.
  intros Hfires. pose proof (termination_clock_run config fires) as Hrun.
  destruct (block_producer_run blocks config) as (_ & _ & _ & Hend & _).
  rewrite Hfires, Hend in Hrun.
  destruct Hrun as (final & _ & Hf & Hnow & _). exists final. split; assumption.
Qed.

Lemma simulation_end_time_witness :
  exists final,
    run (only_blocks 3) ResourceManager.start (termination_clock {| data_lifetime := 30 |})
      = Some final /\
    ResourceManager.now final
    = (max_num {| initial_blocks_num := 2; max_num := 5 |}
       - initial_blocks_num {| initial_blocks_num := 2; max_num := 5 |})
      * set_block_arrival_time {| data_lifetime := 30 |}
      + set_block_arrival_time {| data_lifetime := 30 |}
      + data_lifetime {| data_lifetime := 30 |}.
Proof.
  apply (simulation_end_time {| initial_blocks_num := 2; max_num := 5 |}
           {| data_lifetime := 30 |} (only_blocks 3)).
  reflexivity.
Defined.
End BlockProducer.

(** ** budget/task.py: the demand matrix *)

Section DemandMatrix.
Import TaskMatrix.
Local Open Scope Q_scope.
Local Abbreviation keq := Qeq_bool.

Lemma result_bind_Return {A B} (a : A) (f : A -> result B) : (Return a ≫= f) = f a.
Proof. reflexivity. Qed.

Lemma setitem_row (m : list (list Q)) (block_id i : nat) (v : Q) (row : list Q) :
  m !! block_id = Some row -> (i < length row)%nat ->
  setitem m block_id i v = Return (<[block_id := <[i := v]> row]> m).
Proof.
  intros Hrow Hi. unfold setitem. rewrite Hrow.
  destruct (Nat.ltb_spec i (length row)) as [_|H]; [reflexivity | lia].
Qed.

Lemma row_loop (task_budget : @Budget.t Q) (block_id : nat) (rest : list Q) :
  forall (k : nat) (m : list (list Q)) (row : list Q),
  m !! block_id = Some row ->
  length row = (k + length rest)%nat ->
  (forall alpha, In alpha rest -> contains keq task_budget alpha = true) ->
  for_each
    (fun m '(i, alpha) => e ← Budget.epsilon task_budget alpha; setitem m block_id i e)
    (combine (seq k (length rest)) rest) m
  = Return (<[block_id := take k row ++ map (eps_or_zero task_budget) rest]> m).
Proof.
  induction rest as [|alpha rest IH]; intros k m row Hrow Hlen Hcov.
  - simpl. simpl in Hlen. rewrite app_nil_r, take_ge by lia.
    rewrite list_insert_id by exact Hrow. reflexivity.
  - cbn [length seq combine for_each]. cbv beta iota.
    pose proof (Hcov alpha (or_introl Logic.eq_refl)) as Hc. unfold contains in Hc.
    assert (Budget.epsilon task_budget alpha = Return (eps_or_zero task_budget alpha)) as ->.
    { unfold Budget.epsilon, item, eps_or_zero.
      destruct (get keq task_budget alpha); [reflexivity | discriminate]. }
    simpl in Hlen. rewrite result_bind_Return.
    rewrite (setitem_row _ _ _ _ row Hrow) by lia. rewrite result_bind_Return.
    rewrite (IH (S k) _ (<[k := eps_or_zero task_budget alpha]> row)).
    + rewrite list_insert_insert_eq. f_equal. f_equal.
      rewrite (take_S_r _ _ (eps_or_zero task_budget alpha)).
      * rewrite <- app_assoc. cbn [app map].
        rewrite take_insert_ge by lia. reflexivity.
      * apply list_lookup_insert_eq. lia.
    + apply list_lookup_insert_eq. apply lookup_lt_Some in Hrow. exact Hrow.
    + rewrite length_insert. lia.
    + intros a Ha. apply Hcov. right. exact Ha.
Qed.

Lemma block_body_step (alphas : list Q) (m : list (list Q)) (block_id : nat)
    (task_budget : @Budget.t Q) :
  block_body alphas m (block_id, task_budget)
  = for_each
      (fun m '(i, alpha) => e ← Budget.epsilon task_budget alpha; setitem m block_id i e)
      (combine (seq 0 (length alphas)) alphas) m.
Proof. reflexivity. Qed.

Lemma block_loop (alphas : list Q) (entries : @dict nat (@Budget.t Q)) :
  forall (m : list (list Q)),
  uniq Nat.eqb (keys entries) ->
  Forall (fun row => length row = length alphas) m ->
  (forall block_id task_budget, In (block_id, task_budget) entries ->
     (block_id < length m)%nat /\ covers alphas (block_id, task_budget)) ->
  exists m',
    for_each (block_body alphas) entries m = Return m' /\
    length m' = length m /\
    forall block_id,
      m' !! block_id
      = match get Nat.eqb entries block_id with
        | Some task_budget => Some (map (eps_or_zero task_budget) alphas)
        | None => m !! block_id
        end.
Proof.
  induction entries as [|[b0 bud0] entries IH]; intros m Hu Hrows Hok.
  - exists m. split; [reflexivity|]. split; reflexivity.
  - destruct Hu as [Hfresh Hu].
    destruct (Hok b0 bud0 (or_introl Logic.eq_refl)) as [Hb0 Hcov].
    destruct (lookup_lt_is_Some_2 m b0 Hb0) as [row Hrow].
    assert (length row = length alphas) as Hlen.
    { rewrite Forall_forall in Hrows. apply Hrows. eapply list_elem_of_lookup_2. exact Hrow. }
    cbn [for_each]. rewrite block_body_step.
    rewrite (row_loop bud0 b0 alphas 0 m row Hrow); [|simpl; exact Hlen | exact Hcov].
    rewrite result_bind_Return. rewrite take_0. cbn [app].
    set (m1 := <[b0 := map (eps_or_zero bud0) alphas]> m).
    destruct (IH m1) as (m' & Hrun & Hlen' & Hget).
    + exact Hu.
    + unfold m1. apply Forall_insert; [exact Hrows | apply length_map].
    + intros b bud Hin. unfold m1. rewrite length_insert. apply Hok. right. exact Hin.
    + exists m'. split; [exact Hrun|]. split.
      * rewrite Hlen'. unfold m1. apply length_insert.
      * intros b. rewrite Hget. cbn [get].
        destruct (Nat.eqb_spec b0 b) as [<- | Hne].
        -- assert (get Nat.eqb entries b0 = None) as ->.
           { destruct (get Nat.eqb entries b0) eqn:E; [|reflexivity].
             assert (has_key Nat.eqb (keys entries) b0 = true) as H
               by (apply (has_key_get Nat.eqb); eauto).
             simpl in Hfresh. congruence. }
           unfold m1. apply list_lookup_insert_eq. exact Hb0.
        -- destruct (get Nat.eqb entries b); [reflexivity|].
           unfold m1. apply list_lookup_insert_ne. exact Hne.
Qed.

Lemma py_max_nat_spec (ks : list nat) :
  ks <> [] ->
  exists max_id, py_max_nat ks = Return max_id /\ In max_id ks /\ Forall (fun k => (k <= max_id)%nat) ks.
Proof.
  destruct ks as [|k ks]; [congruence|]. intros _. simpl. eexists. split; [reflexivity|].
  revert k. induction ks as [|x ks IH]; intros k; simpl.
  - split; [left; reflexivity | constructor; [lia | constructor]].
  - destruct (IH (Nat.max k x)) as [Hin Hall].
    apply Forall_cons in Hall as [Hk Hall]. split.
    + destruct Hin as [Hin | Hin]; [|right; right; exact Hin].
      destruct (Nat.max_spec k x) as [[_ E] | [_ E]]; rewrite E in *; simpl; auto.
    + constructor; [lia|]. constructor; [lia | exact Hall].
Qed.

(** [build_demand_matrix] without [max_block_id] (or with 0, which [or]
    treats alike), on a task that asks for some block and whose budgets are
    given at every order: the matrix has one row per block id up to the
    largest the task asks for, the row of a block the task asks for holds
    its demands at the orders, and every other row is zero *)
Theorem build_demand_matrix_rows (task : Task) (alphas : list Q) (max_block_id : option nat) :
  max_block_id = None \/ max_block_id = Some 0%nat ->
  budget_per_block task <> [] ->
  uniq Nat.eqb (keys (budget_per_block task)) ->
  Forall (covers alphas) (budget_per_block task) ->
  exists task' largest,
    build_demand_matrix task alphas max_block_id = Return task' /\
    In largest (keys (budget_per_block task)) /\
    Forall (fun block_id => (block_id <= largest)%nat) (keys (budget_per_block task)) /\
    demand_matrix task' = map (spec_row task alphas) (seq 0 (largest + 1)).
Proof.
  intros Hmax Hne Hu Hcov.
  destruct (py_max_nat_spec (keys (budget_per_block task))) as (largest & Hl & Hin & Hall).
  { destruct (budget_per_block task); [congruence | discriminate]. }
  assert (build_demand_matrix task alphas max_block_id
          = build_demand_matrix task alphas None) as ->
    by (destruct Hmax as [-> | ->]; reflexivity).
  unfold build_demand_matrix. rewrite Hl, result_bind_Return. cbv zeta.
  destruct (block_loop alphas (budget_per_block task)
              (replicate (largest + 1) (replicate (length alphas) 0))) as (m & Hrun & Hlen & Hget).
  - exact Hu.
  - apply Forall_replicate. apply length_replicate.
  - intros b bud Hb. rewrite length_replicate. split.
    + rewrite Forall_forall in Hall.
      assert (b <= largest)%nat; [|lia]. apply Hall. apply list_elem_of_In.
      unfold keys. apply in_map_iff. exists (b, bud). split; [reflexivity | exact Hb].
    + rewrite Forall_forall in Hcov. apply Hcov. apply list_elem_of_In. exact Hb.
  - rewrite Hrun, result_bind_Return. exists (
      {| id := id task; profit := profit task; budget_per_block := budget_per_block task;
         cost := cost task; demand_matrix := m |}), largest.
    split; [reflexivity|]. split; [exact Hin|]. split; [exact Hall|]. cbn [demand_matrix].
    rewrite length_replicate in Hlen.
    apply list_eq. intros b. rewrite Hget, list_lookup_fmap. unfold spec_row.
    destruct (Nat.lt_ge_cases b (largest + 1)) as [Hb | Hb].
    + rewrite lookup_seq_lt by exact Hb. cbn [fmap option_fmap option_map plus].
      destruct (get Nat.eqb (budget_per_block task) b); [reflexivity|].
      apply lookup_replicate_2. exact Hb.
    + rewrite lookup_seq_ge by exact Hb. cbn [fmap option_fmap option_map].
      destruct (get Nat.eqb (budget_per_block task) b) as [bud|] eqn:E.
      * exfalso. apply (get_In Nat.eqb) in E as (b' & Hbb & Hin').
        apply Nat.eqb_eq in Hbb. subst b'.
        rewrite Forall_forall in Hall.
        assert (b <= largest)%nat; [|lia]. apply Hall. apply list_elem_of_In.
        unfold keys. apply in_map_iff. exists (b, bud). split; [reflexivity | exact Hin'].
      * apply lookup_replicate_None. exact Hb.
Qed.

Lemma build_demand_matrix_rows_witness :
  let task :=
    {| id := 0; profit := 1;
       budget_per_block := [(2%nat, Budget.init [(2, 1 # 2); (3, 1 # 4)])];
       cost := 0; demand_matrix := [] |} in
  exists task' largest,
    build_demand_matrix task [2; 3] (Some 0%nat) = Return task' /\
    In largest (keys (budget_per_block task)) /\
    Forall (fun block_id => (block_id <= largest)%nat) (keys (budget_per_block task)) /\
    demand_matrix task' = map (spec_row task [2; 3]) (seq 0 (largest + 1)).
Proof.
  intros task. apply build_demand_matrix_rows.
  - right. reflexivity.
  - discriminate.
  - simpl. split; [reflexivity | exact I].
  - constructor; [|constructor]. intros alpha [<- | [<- | []]]; reflexivity.
Defined.
End DemandMatrix.

(** ** budget/block_selection.py: asking for every block *)

Section SelectAll.
Import BlockSelection SoftmaxExample.

Lemma full_sample_Permutation (n : nat) (out : list nat) :
  length out = n -> out ⊆+ seq 0 n -> Permutation out (seq 0 n).
Proof.
  intros Hlen Hsub. apply submseteq_length_Permutation; [exact Hsub|].
  rewrite length_seq, Hlen. reflexivity.
Qed.

Lemma random_sample_all (n : nat) (o : result (list nat)) :
  random_sample (seq 0 n) n o -> exists l, o = Return l /\ Permutation l (seq 0 n).
Proof.
  unfold random_sample. rewrite length_seq, Nat.leb_refl.
  intros (out & -> & Hlen & Hsub). exists out. split; [reflexivity|].
  apply full_sample_Permutation; assumption.
Qed.

(** Every policy, asked for as many blocks as there are (at least one),
    selects each block exactly once: the outcome is a permutation of
    [range(n_blocks)], and nothing is raised; for [Zeta s] provided [s] is
    not negative and every weight [(i + 1) ** (-s)] is large enough to be a
    positive float after the division by the sum *)
Theorem select_all_blocks (p : policy) (blocks : @dict nat Block) :
  0 < length blocks ->
  zeta_ok p (length blocks) (length blocks) ->
  (exists o, select_blocks p blocks (length blocks) o) /\
  forall o, select_blocks p blocks (length blocks) o ->
    exists l, o = Return l /\ Permutation l (seq 0 (length blocks)).
Proof.
  intros Hpos Hzeta. set (n := length blocks) in *. unfold select_blocks. fold n. cbv zeta.
  rewrite Nat.ltb_irrefl.
  pose proof (even_odd_length (seq 0 n)) as Hparts. rewrite length_seq in Hparts.
  destruct p as [| | | |s].
  - split; [apply random_sample_exists; rewrite length_seq; reflexivity|].
    intros o. apply random_sample_all.
  - split; [eexists; reflexivity|]. intros o ->. eexists. split; [reflexivity|].
    rewrite Nat.sub_diag. symmetry. apply Permutation_rev.
  - split.
    + destruct (random_sample_exists (seq 0 n) n) as [o Ho]; [rewrite length_seq; reflexivity|].
      exists o, 1. split; [right; reflexivity | exact Ho].
    + intros o (selection & [-> | ->] & Hsel); simpl in Hsel; [|apply random_sample_all; exact Hsel].
      destruct (Nat.ltb_spec (length (List.filter Nat.even (seq 0 n))) n) as [Hev|Hev].
      * destruct Hsel as (sampled & Hsample & ->). unfold random_sample in Hsample.
        destruct (Nat.leb_spec (n - length (List.filter Nat.even (seq 0 n)))
                    (length (List.filter Nat.odd (seq 0 n)))) as [_|H]; [|lia].
        destruct Hsample as (out & -> & Hlen & Hsub). simpl.
        eexists. split; [reflexivity|]. apply full_sample_Permutation.
        -- rewrite length_app, Hlen. lia.
        -- etransitivity; [apply submseteq_app; [reflexivity | exact Hsub]|].
           rewrite (even_odd_Permutation (seq 0 n)). reflexivity.
      * unfold random_sample in Hsel.
        destruct (Nat.leb_spec n (length (List.filter Nat.even (seq 0 n)))) as [_|H]; [|lia].
        destruct Hsel as (out & -> & Hlen & Hsub). eexists. split; [reflexivity|].
        apply full_sample_Permutation; [exact Hlen|].
        etransitivity; [exact Hsub | apply filter_sublist_seq].
  - split.
    + exists (Return (seq 0 n)), 0. split; [unfold random_randint; lia | reflexivity].
    + intros o (offset & [_ Hoff] & ->). eexists. split; [reflexivity|].
      replace offset with 0 by lia. reflexivity.
  - split; [apply zeta_choice_exists; [reflexivity | exact Hzeta]|].
    intros o Ho.
    destruct (zeta_choice_valid s n n o (Nat.le_refl n) Hzeta Ho) as (l & -> & Hlen & Hnd & Hlt).
    exists l. split; [reflexivity|]. apply full_sample_Permutation; [exact Hlen|].
    apply NoDup_submseteq; [exact Hnd|]. intros x Hx. rewrite Forall_forall in Hlt.
    apply elem_of_seq. specialize (Hlt x Hx). lia.
Qed.

Lemma select_all_blocks_witness :
  (exists o, select_blocks (Zeta 2) three_blocks (length three_blocks) o) /\
  forall o, select_blocks (Zeta 2) three_blocks (length three_blocks) o ->
    exists l, o = Return l /\ Permutation l (seq 0 (length three_blocks)).
Proof.
  apply (select_all_blocks (Zeta 2) three_blocks); [simpl; lia|].
  apply zeta_2_ok. simpl. lia.
Defined.
End SelectAll.

Section UniformTaskFacts.
Import UniformTask.
Local Open Scope Q_scope.
Local Abbreviation keq := Qeq_bool.

Lemma fold_set_blocks {V} (v : V) (block_ids : list nat) : forall (d : @dict nat V) (b : nat),
  get Nat.eqb (fold_left (fun d block_id => set Nat.eqb d block_id v) block_ids d) b
  = if has_key Nat.eqb block_ids b then Some v else get Nat.eqb d b.
Proof.
  induction block_ids as [|x block_ids IH]; intros d b; simpl; [reflexivity|].
  rewrite IH, (get_set Nat.eqb). destruct (Nat.eqb x b); simpl; [|reflexivity].
  destruct (has_key Nat.eqb block_ids b); reflexivity.
Qed.

(** [UniformTask.set_budget_per_block] with a tiebreaker that is not
    negative: it raises nothing; every listed block gets one and the same
    budget, which becomes the budget of the task; that budget is the old one
    with every epsilon multiplied by one factor between 1 and
    [1 + demands_tiebreaker]; blocks not listed keep what they had *)
Theorem set_budget_per_block_uniform (self : t) (block_ids : list nat) (demands_tiebreaker : Q) :
  0 <= demands_tiebreaker ->
  (exists o, set_budget_per_block self block_ids demands_tiebreaker o) /\
  forall o, set_budget_per_block self block_ids demands_tiebreaker o ->
    exists self' factor,
      o = Return self' /\
      1 <= factor /\ factor <= 1 + demands_tiebreaker /\
      (forall alpha,
         match get keq (UniformTask.budget self) alpha with
         | Some e => exists e', get keq (UniformTask.budget self') alpha = Some e' /\ e' == e * factor
         | None => get keq (UniformTask.budget self') alpha = None
         end) /\
      (forall block_id,
         get Nat.eqb (budget_per_block (task self')) block_id
         = if has_key Nat.eqb block_ids block_id then Some (UniformTask.budget self')
           else get Nat.eqb (budget_per_block (task self)) block_id).
Proof.
  intros Hpos. unfold set_budget_per_block.
  destruct (Qeq_bool demands_tiebreaker 0) eqn:E; split.
  - eexists. exists (Return (UniformTask.budget self)). split; reflexivity.
  - intros o (scaled & -> & ->). simpl. eexists. exists 1. split; [reflexivity|].
    split; [lra|]. split; [lra|]. cbn [UniformTask.budget task budget_per_block]. split.
    + intros alpha. destruct (get keq (UniformTask.budget self) alpha) as [e|]; [|reflexivity].
      exists e. split; [reflexivity | lra].
    + intros block_id. apply fold_set_blocks.
  - eexists. eexists. split; [|reflexivity].
    exists 0. split; [unfold np_random_random; lra | reflexivity].
  - intros o (scaled & (fraction_offset & [H0 H1] & ->) & ->).
    destruct (mul_pointwise (UniformTask.budget self) (1 + demands_tiebreaker * fraction_offset))
      as (c & Hc & Hget).
    rewrite Hc. simpl. eexists. exists (1 + demands_tiebreaker * fraction_offset).
    split; [reflexivity|]. split; [nra|]. split; [nra|].
    cbn [UniformTask.budget task budget_per_block]. split.
    + intros alpha. rewrite Hget.
      destruct (get keq (UniformTask.budget self) alpha) as [e|]; [|reflexivity].
      exists (e * (1 + demands_tiebreaker * fraction_offset)). split; [reflexivity | lra].
    + intros block_id. apply fold_set_blocks.
Qed.

Lemma set_budget_per_block_uniform_witness :
  let self :=
    {| task := {| id := 0; profit := 1; budget_per_block := []; cost := 0; demand_matrix := [] |};
       UniformTask.budget := Budget.init [(2, 1 # 2)] |} in
  (exists o, set_budget_per_block self [0; 1]%nat (1 # 100) o) /\
  forall o, set_budget_per_block self [0; 1]%nat (1 # 100) o ->
    exists self' factor,
      o = Return self' /\
      1 <= factor /\ factor <= 1 + (1 # 100) /\
      (forall alpha,
         match get keq (UniformTask.budget self) alpha with
         | Some e => exists e', get keq (UniformTask.budget self') alpha = Some e' /\ e' == e * factor
         | None => get keq (UniformTask.budget self') alpha = None
         end) /\
      (forall block_id,
         get Nat.eqb (budget_per_block (task self')) block_id
         = if has_key Nat.eqb [0; 1]%nat block_id then Some (UniformTask.budget self')
           else get Nat.eqb (budget_per_block (task self)) block_id).
Proof.
  intros self. apply (set_budget_per_block_uniform self [0; 1]%nat (1 # 100)).
  vm_compute. discriminate.
Defined.
End UniformTaskFacts.
